(** * Radix encodings of RFC 4648: hex, base32, base64 and base64url

    A shallow embedding of [src/hex.ts], [src/base32.ts] and [src/base64.ts]
    and the verification of their encode/decode functions.

    Conventions of the embedding.
    - A [Uint8Array] is a [list byte]; reading an element gives its value
      as an integer ([byte_val]), storing an integer keeps its low eight
      bits ([to_uint8]).
    - A JavaScript string is a [list ascii]; [s[i]] is [nth_error s i],
      where [None] stands for [undefined].  The decoders only compare a
      character with the pad character and look it up in a decode map, so
      code units above 255 behave like any other character outside the map.
    - A [number] used with the bit operators goes through the 32-bit
      conversion of JavaScript ([int32]); a [bigint] is a plain [Z].
    - [throw new Error(msg)] is the [Err] case of [res], one constructor
      of [error] per message of the source. *)

From Stdlib Require Import ZArith NArith List Ascii String Lia Bool.
From Stdlib.Strings Require Import Byte.
Import ListNotations.

Local Open Scope Z_scope.

(** ** JavaScript values *)

Module JS.

(** [ToInt32]: wrap an integer into the signed 32-bit range. *)
Definition int32 (z : Z) : Z := (z + 2147483648) mod 4294967296 - 2147483648.

(** [a << b], [a >> b], [a | b], [a & b] on numbers. *)
Definition shl (a b : Z) : Z := int32 (Z.shiftl (int32 a) (b mod 32)).
Definition sar (a b : Z) : Z := Z.shiftr (int32 a) (b mod 32).
Definition or (a b : Z) : Z := int32 (Z.lor (int32 a) (int32 b)).
Definition and (a b : Z) : Z := int32 (Z.land (int32 a) (int32 b)).

End JS.

Definition bytes := list byte.
Definition str := list ascii.

(** Value of an element of a [Uint8Array]. *)
Definition byte_val (b : byte) : Z := Z.of_N (Byte.to_N b).

(** Store into a [Uint8Array]: the value modulo 256. *)
Definition to_uint8 (z : Z) : byte :=
  match Byte.of_N (Z.to_N (z mod 256)) with
  | Some b => b
  | None => x00
  end.

Definition lit (s : string) : str := list_ascii_of_string s.

Definition pad : ascii := "="%char.

(** [s[i] === "="]; [undefined] is not the pad character. *)
Definition is_pad (c : option ascii) : bool :=
  match c with
  | Some a => Ascii.eqb a pad
  | None => false
  end.

(** [alphabet[i]] appended to a string: a one-character string, or the text
    of [undefined] when the index is out of range. *)
Definition char_at (alphabet : str) (i : Z) : str :=
  if i <? 0 then lit "undefined"
  else match nth_error alphabet (Z.to_nat i) with
       | Some c => [c]
       | None => lit "undefined"
       end.

(** A decode map: the object literal of the source, key by key. *)
Definition decode_map := list (ascii * Z).

(** [m[c]]; [None] when [c in m] is false.  A key read from a string is one
    character long, or is [undefined]: [in] never finds an inherited
    property of the object literal. *)
Fixpoint lookup (m : decode_map) (c : ascii) : option Z :=
  match m with
  | [] => None
  | (k, v) :: m' => if Ascii.eqb k c then Some v else lookup m' c
  end.

(** ** Errors *)

Inductive error : Type :=
| InvalidHexString   (* Error("Invalid hex string") *)
| InvalidCharacter   (* Error("Invalid character") *)
| InvalidPadding.    (* Error("Invalid padding") *)

Inductive res (A : Type) : Type :=
| Ok (a : A)
| Err (e : error).
Arguments Ok {A} a.
Arguments Err {A} e.

Definition bind {A B} (r : res A) (f : A -> res B) : res B :=
  match r with
  | Ok a => f a
  | Err e => Err e
  end.

Notation "x <- r ;; k" := (bind r (fun x => k))
  (at level 61, r at next level, right associativity).

(** A [for] loop over the values of [js] whose body may throw. *)
Fixpoint for_each {S} (body : S -> nat -> res S) (js : list nat) (s : S)
  : res S :=
  match js with
  | [] => Ok s
  | j :: js' => s' <- body s j ;; for_each body js' s'
  end.

Definition is_ok {A} (r : res A) : bool :=
  match r with Ok _ => true | Err _ => false end.

Module EncodingPadding.
Inductive t : Type := Include | None.
End EncodingPadding.

Module DecodingPadding.
Inductive t : Type := Required | Ignore.
End DecodingPadding.

(** Number of iterations of [for (i = 0; i < len; i += w)]. *)
Definition trips (len w : nat) : nat := Nat.div (len + w - 1) w.

(** ** hex.ts *)

Module Hex.

Definition alphabetUpperCase : str := lit "0123456789ABCDEF".
Definition alphabetLowerCase : str := lit "0123456789abcdef".

Definition decodeMap : decode_map :=
  [ ("0"%char, 0); ("1"%char, 1); ("2"%char, 2); ("3"%char, 3);
    ("4"%char, 4); ("5"%char, 5); ("6"%char, 6); ("7"%char, 7);
    ("8"%char, 8); ("9"%char, 9);
    ("a"%char, 10); ("A"%char, 10);
    ("b"%char, 11); ("B"%char, 11);
    ("c"%char, 12); ("C"%char, 12);
    ("d"%char, 13); ("D"%char, 13);
    ("e"%char, 14); ("E"%char, 14);
    ("f"%char, 15); ("F"%char, 15) ].

(** The body shared by [encodeHexUpperCase] and [encodeHexLowerCase]:
    [for (i = 0; i < data.length; i++)], two characters per byte. *)
Fixpoint encode_loop (alphabet : str) (data : bytes) (result : str) : str :=
  match data with
  | [] => result
  | b :: data' =>
      let result := result ++ char_at alphabet (JS.sar (byte_val b) 4) in
      let result := result ++ char_at alphabet (JS.and (byte_val b) 15) in
      encode_loop alphabet data' result
  end.

Definition encodeHexUpperCase (data : bytes) : str :=
  encode_loop alphabetUpperCase data [].

Definition encodeHexLowerCase (data : bytes) : str :=
  encode_loop alphabetLowerCase data [].

(** One iteration of the loop of [decodeHex] at index [i]: the byte stored
    in [result[i / 2]], which starts at 0. *)
Definition decode_pair (data : str) (i : nat) : res byte :=
  match nth_error data i with
  | None => Err InvalidCharacter
  | Some hi =>
      match lookup decodeMap hi with
      | None => Err InvalidCharacter
      | Some vhi =>
          match nth_error data (i + 1) with
          | None => Err InvalidCharacter
          | Some lo =>
              match lookup decodeMap lo with
              | None => Err InvalidCharacter
              | Some vlo =>
                  let cell := byte_val (to_uint8 (JS.or 0 (JS.shl vhi 4))) in
                  Ok (to_uint8 (JS.or cell vlo))
              end
          end
      end
  end.

(** [for (i = 0; i < data.length; i += 2)], [n] iterations left. *)
Fixpoint decode_loop (data : str) (n i : nat) (result : bytes)
  : res bytes :=
  match n with
  | O => Ok result
  | S n' =>
      b <- decode_pair data i ;;
      decode_loop data n' (i + 2) (result ++ [b])
  end.

Definition decodeHex (data : str) : res bytes :=
  if negb (Nat.eqb (Nat.modulo (List.length data) 2) 0)
  then Err InvalidHexString
  else decode_loop data (trips (List.length data) 2) 0 [].

End Hex.

(** ** base64.ts *)

Module Base64.

Definition base64Alphabet : str :=
  lit "ABCDEFGHIJKLMNOPQRSTUVWXYZabcdefghijklmnopqrstuvwxyz0123456789+/".

Definition base64urlAlphabet : str :=
  lit "ABCDEFGHIJKLMNOPQRSTUVWXYZabcdefghijklmnopqrstuvwxyz0123456789-_".

(** The entries that [base64DecodeMap] and [base64urlDecodeMap] have in
    common, in the order of the source. *)
Definition common_entries : decode_map :=
  [ ("0"%char, 52); ("1"%char, 53); ("2"%char, 54); ("3"%char, 55);
    ("4"%char, 56); ("5"%char, 57); ("6"%char, 58); ("7"%char, 59);
    ("8"%char, 60); ("9"%char, 61);
    ("A"%char, 0); ("B"%char, 1); ("C"%char, 2); ("D"%char, 3);
    ("E"%char, 4); ("F"%char, 5); ("G"%char, 6); ("H"%char, 7);
    ("I"%char, 8); ("J"%char, 9); ("K"%char, 10); ("L"%char, 11);
    ("M"%char, 12); ("N"%char, 13); ("O"%char, 14); ("P"%char, 15);
    ("Q"%char, 16); ("R"%char, 17); ("S"%char, 18); ("T"%char, 19);
    ("U"%char, 20); ("V"%char, 21); ("W"%char, 22); ("X"%char, 23);
    ("Y"%char, 24); ("Z"%char, 25);
    ("a"%char, 26); ("b"%char, 27); ("c"%char, 28); ("d"%char, 29);
    ("e"%char, 30); ("f"%char, 31); ("g"%char, 32); ("h"%char, 33);
    ("i"%char, 34); ("j"%char, 35); ("k"%char, 36); ("l"%char, 37);
    ("m"%char, 38); ("n"%char, 39); ("o"%char, 40); ("p"%char, 41);
    ("q"%char, 42); ("r"%char, 43); ("s"%char, 44); ("t"%char, 45);
    ("u"%char, 46); ("v"%char, 47); ("w"%char, 48); ("x"%char, 49);
    ("y"%char, 50); ("z"%char, 51) ].

Definition base64DecodeMap : decode_map :=
  common_entries ++ [ ("+"%char, 62); ("/"%char, 63) ].

Definition base64urlDecodeMap : decode_map :=
  common_entries ++ [ ("-"%char, 62); ("_"%char, 63) ].

(** [for (j = 0; j < 3 && i + j < bytes.byteLength; j++)]: the state is
    [(buffer, bufferBitSize)]. *)
Fixpoint read_loop (data : bytes) (i : nat) (js : list nat) (st : Z * Z)
  : Z * Z :=
  match js with
  | [] => st
  | j :: js' =>
      match nth_error data (i + j) with
      | Some b =>
          read_loop data i js'
            (JS.or (JS.shl (fst st) 8) (byte_val b), snd st + 8)
      | None => st
      end
  end.

(** Body of [for (j = 0; j < 4; j++)] of the encoder: the state is
    [(result, bufferBitSize)]. *)
Definition emit (alphabet : str) (padding : EncodingPadding.t) (buffer : Z)
  (st : str * Z) (j : nat) : str * Z :=
  let (result, bufferBitSize) := st in
  if 6 <=? bufferBitSize then
    (result ++ char_at alphabet (JS.and (JS.sar buffer (bufferBitSize - 6)) 63),
     bufferBitSize - 6)
  else if 0 <? bufferBitSize then
    (result ++ char_at alphabet (JS.and (JS.shl buffer (6 - bufferBitSize)) 63),
     0)
  else
    match padding with
    | EncodingPadding.Include => (result ++ [pad], bufferBitSize)
    | EncodingPadding.None => (result, bufferBitSize)
    end.

(** One iteration of the outer loop of the encoder, at index [i]. *)
Definition encode_chunk (data : bytes) (alphabet : str)
  (padding : EncodingPadding.t) (i : nat) (result : str) : str :=
  let (buffer, bufferBitSize) := read_loop data i (seq 0 3) (0, 0) in
  fst (fold_left (emit alphabet padding buffer) (seq 0 4)
         (result, bufferBitSize)).

(** [for (i = 0; i < bytes.byteLength; i += 3)], [n] iterations left. *)
Fixpoint encode_loop (data : bytes) (alphabet : str)
  (padding : EncodingPadding.t) (n i : nat) (result : str) : str :=
  match n with
  | O => result
  | S n' =>
      encode_loop data alphabet padding n' (i + 3)
        (encode_chunk data alphabet padding i result)
  end.

Definition encodeBase64_internal (data : bytes) (alphabet : str)
  (padding : EncodingPadding.t) : str :=
  encode_loop data alphabet padding (trips (List.length data) 3) 0 [].

Definition encodeBase64 (data : bytes) : str :=
  encodeBase64_internal data base64Alphabet EncodingPadding.Include.
Definition encodeBase64NoPadding (data : bytes) : str :=
  encodeBase64_internal data base64Alphabet EncodingPadding.None.
Definition encodeBase64url (data : bytes) : str :=
  encodeBase64_internal data base64urlAlphabet EncodingPadding.Include.
Definition encodeBase64urlNoPadding (data : bytes) : str :=
  encodeBase64_internal data base64urlAlphabet EncodingPadding.None.

(** Body of [for (j = 0; j < 4; j++)] of the decoder: the state is
    [(chunk, bitsRead)]; [Ok st] unchanged is [continue]. *)
Definition scan_step (encoded : str) (decodeMap : decode_map)
  (padding : DecodingPadding.t) (i : nat) (st : Z * Z) (j : nat)
  : res (Z * Z) :=
  let c := nth_error encoded (i + j) in
  let skip :=
    match padding with
    | DecodingPadding.Required => is_pad c
    | DecodingPadding.Ignore =>
        (List.length encoded <=? i + j)%nat || is_pad c
    end in
  if skip then Ok st
  else if (0 <? j)%nat && is_pad (nth_error encoded (i + j - 1)) then
    Err InvalidPadding
  else
    match c with
    | None => Err InvalidCharacter
    | Some a =>
        match lookup decodeMap a with
        | None => Err InvalidCharacter
        | Some v =>
            Ok (JS.or (fst st) (JS.shl v ((3 - Z.of_nat j) * 6)), snd st + 6)
        end
    end.

(** The character loop of one window: [(chunk, bitsRead)] at its end. *)
Definition scan (encoded : str) (decodeMap : decode_map)
  (padding : DecodingPadding.t) (i : nat) : res (Z * Z) :=
  for_each (scan_step encoded decodeMap padding i) (seq 0 4) (0, 0).

(** [if (bitsRead < 24) { ... }]: the check of a short window. *)
Definition check (chunk bitsRead : Z) : res unit :=
  if bitsRead <? 24 then
    unused <- (if bitsRead =? 12 then Ok (JS.and chunk 65535)
               else if bitsRead =? 18 then Ok (JS.and chunk 255)
               else Err InvalidPadding) ;;
    if negb (unused =? 0) then Err InvalidPadding else Ok tt
  else Ok tt.

(** [for (let i = 0; i < byteLength; i++)] with
    [byteLength = Math.floor(bitsRead / 8)].  The bytes are appended to
    [result]: the source writes them at [totalBytes] into an array of
    [ceil(length / 4) * 3] cells, three per window, and returns the first
    [totalBytes] cells. *)
Definition extract (chunk bitsRead : Z) (result : bytes) : bytes :=
  fold_left
    (fun result k =>
       result ++ [to_uint8 (JS.and (JS.sar chunk (16 - Z.of_nat k * 8)) 255)])
    (seq 0 (Z.to_nat (bitsRead / 8))) result.

(** One iteration of the outer loop of the decoder, at index [i]. *)
Definition decode_window (encoded : str) (decodeMap : decode_map)
  (padding : DecodingPadding.t) (i : nat) (result : bytes) : res bytes :=
  st <- scan encoded decodeMap padding i ;;
  _ <- check (fst st) (snd st) ;;
  Ok (extract (fst st) (snd st) result).

(** [for (let i = 0; i < encoded.length; i += 4)], [n] iterations left. *)
Fixpoint decode_loop (encoded : str) (decodeMap : decode_map)
  (padding : DecodingPadding.t) (n i : nat) (result : bytes) : res bytes :=
  match n with
  | O => Ok result
  | S n' =>
      result' <- decode_window encoded decodeMap padding i result ;;
      decode_loop encoded decodeMap padding n' (i + 4) result'
  end.

Definition decodeBase64_internal (encoded : str) (decodeMap : decode_map)
  (padding : DecodingPadding.t) : res bytes :=
  decode_loop encoded decodeMap padding (trips (List.length encoded) 4) 0 [].

Definition decodeBase64 (encoded : str) : res bytes :=
  decodeBase64_internal encoded base64DecodeMap DecodingPadding.Required.
Definition decodeBase64IgnorePadding (encoded : str) : res bytes :=
  decodeBase64_internal encoded base64DecodeMap DecodingPadding.Ignore.
Definition decodeBase64url (encoded : str) : res bytes :=
  decodeBase64_internal encoded base64urlDecodeMap DecodingPadding.Required.
Definition decodeBase64urlIgnorePadding (encoded : str) : res bytes :=
  decodeBase64_internal encoded base64urlDecodeMap DecodingPadding.Ignore.

End Base64.

(** ** base32.ts *)

Module Base32.

Definition base32UpperCaseAlphabet : str :=
  lit "ABCDEFGHIJKLMNOPQRSTUVWXYZ234567".

Definition base32LowerCaseAlphabet : str :=
  lit "abcdefghijklmnopqrstuvwxyz234567".

Definition base32DecodeMap : decode_map :=
  [ ("A"%char, 0); ("B"%char, 1); ("C"%char, 2); ("D"%char, 3);
    ("E"%char, 4); ("F"%char, 5); ("G"%char, 6); ("H"%char, 7);
    ("I"%char, 8); ("J"%char, 9); ("K"%char, 10); ("L"%char, 11);
    ("M"%char, 12); ("N"%char, 13); ("O"%char, 14); ("P"%char, 15);
    ("Q"%char, 16); ("R"%char, 17); ("S"%char, 18); ("T"%char, 19);
    ("U"%char, 20); ("V"%char, 21); ("W"%char, 22); ("X"%char, 23);
    ("Y"%char, 24); ("Z"%char, 25);
    ("a"%char, 0); ("b"%char, 1); ("c"%char, 2); ("d"%char, 3);
    ("e"%char, 4); ("f"%char, 5); ("g"%char, 6); ("h"%char, 7);
    ("i"%char, 8); ("j"%char, 9); ("k"%char, 10); ("l"%char, 11);
    ("m"%char, 12); ("n"%char, 13); ("o"%char, 14); ("p"%char, 15);
    ("q"%char, 16); ("r"%char, 17); ("s"%char, 18); ("t"%char, 19);
    ("u"%char, 20); ("v"%char, 21); ("w"%char, 22); ("x"%char, 23);
    ("y"%char, 24); ("z"%char, 25);
    ("2"%char, 26); ("3"%char, 27); ("4"%char, 28); ("5"%char, 29);
    ("6"%char, 30); ("7"%char, 31) ].

(** [for (j = 0; j < 5 && i + j < bytes.byteLength; j++)]: the state is
    [(buffer, bufferBitSize)], [buffer] a bigint. *)
Fixpoint read_loop (data : bytes) (i : nat) (js : list nat) (st : Z * Z)
  : Z * Z :=
  match js with
  | [] => st
  | j :: js' =>
      match nth_error data (i + j) with
      | Some b =>
          read_loop data i js'
            (Z.lor (Z.shiftl (fst st) 8) (byte_val b), snd st + 8)
      | None => st
      end
  end.

(** [if (bufferBitSize % 5 !== 0) { ... }]: the buffer is completed with
    zero bits on the right to a multiple of five bits. *)
Definition align (st : Z * Z) : Z * Z :=
  let (buffer, bufferBitSize) := st in
  if negb (Z.rem bufferBitSize 5 =? 0) then
    (Z.shiftl buffer (5 - Z.rem bufferBitSize 5),
     bufferBitSize + (5 - Z.rem bufferBitSize 5))
  else st.

(** Body of [for (j = 0; j < 8; j++)] of the encoder: the state is
    [(result, bufferBitSize)]. *)
Definition emit (alphabet : str) (padding : EncodingPadding.t) (buffer : Z)
  (st : str * Z) (j : nat) : str * Z :=
  let (result, bufferBitSize) := st in
  if 5 <=? bufferBitSize then
    (result ++ char_at alphabet
                 (Z.land (Z.shiftr buffer (bufferBitSize - 5)) 31),
     bufferBitSize - 5)
  else if 0 <? bufferBitSize then
    (result ++ char_at alphabet
                 (Z.land (Z.shiftl buffer (6 - bufferBitSize)) 63),
     0)
  else
    match padding with
    | EncodingPadding.Include => (result ++ [pad], bufferBitSize)
    | EncodingPadding.None => (result, bufferBitSize)
    end.

(** One iteration of the outer loop of the encoder, at index [i]. *)
Definition encode_chunk (data : bytes) (alphabet : str)
  (padding : EncodingPadding.t) (i : nat) (result : str) : str :=
  let (buffer, bufferBitSize) := align (read_loop data i (seq 0 5) (0, 0)) in
  fst (fold_left (emit alphabet padding buffer) (seq 0 8)
         (result, bufferBitSize)).

(** [for (i = 0; i < bytes.byteLength; i += 5)], [n] iterations left. *)
Fixpoint encode_loop (data : bytes) (alphabet : str)
  (padding : EncodingPadding.t) (n i : nat) (result : str) : str :=
  match n with
  | O => result
  | S n' =>
      encode_loop data alphabet padding n' (i + 5)
        (encode_chunk data alphabet padding i result)
  end.

Definition encodeBase32_internal (data : bytes) (alphabet : str)
  (padding : EncodingPadding.t) : str :=
  encode_loop data alphabet padding (trips (List.length data) 5) 0 [].

Definition encodeBase32UpperCase (data : bytes) : str :=
  encodeBase32_internal data base32UpperCaseAlphabet EncodingPadding.Include.
Definition encodeBase32UpperCaseNoPadding (data : bytes) : str :=
  encodeBase32_internal data base32UpperCaseAlphabet EncodingPadding.None.
Definition encodeBase32LowerCase (data : bytes) : str :=
  encodeBase32_internal data base32LowerCaseAlphabet EncodingPadding.Include.
Definition encodeBase32LowerCaseNoPadding (data : bytes) : str :=
  encodeBase32_internal data base32LowerCaseAlphabet EncodingPadding.None.
Definition encodeBase32 (data : bytes) : str := encodeBase32UpperCase data.
Definition encodeBase32NoPadding (data : bytes) : str :=
  encodeBase32UpperCaseNoPadding data.

(** Body of [for (j = 0; j < 8; j++)] of the decoder: the state is
    [(chunk, bitsRead)], [chunk] a bigint; [Ok st] unchanged is
    [continue]. *)
Definition scan_step (encoded : str) (decodeMap : decode_map)
  (padding : DecodingPadding.t) (i : nat) (st : Z * Z) (j : nat)
  : res (Z * Z) :=
  let c := nth_error encoded (i + j) in
  let past_end := (List.length encoded <=? i + j)%nat in
  let data_char :=
    if (0 <? j)%nat && is_pad (nth_error encoded (i + j - 1)) then
      Err InvalidPadding
    else
      match c with
      | None => Err InvalidCharacter
      | Some a =>
          match lookup decodeMap a with
          | None => Err InvalidCharacter
          | Some v =>
              Ok (Z.lor (fst st) (Z.shiftl v ((7 - Z.of_nat j) * 5)),
                  snd st + 5)
          end
      end in
  match padding with
  | DecodingPadding.Required =>
      if is_pad c then Ok st
      else if past_end then Err InvalidPadding
      else data_char
  | DecodingPadding.Ignore =>
      if past_end || is_pad c then Ok st else data_char
  end.

(** The character loop of one window: [(chunk, bitsRead)] at its end. *)
Definition scan (encoded : str) (decodeMap : decode_map)
  (padding : DecodingPadding.t) (i : nat) : res (Z * Z) :=
  for_each (scan_step encoded decodeMap padding i) (seq 0 8) (0, 0).

(** [if (bitsRead < 40) { ... }]: the check of a short window. *)
Definition check (chunk bitsRead : Z) : res unit :=
  if bitsRead <? 40 then
    unused <- (if bitsRead =? 10 then Ok (Z.land chunk 4294967295)
               else if bitsRead =? 20 then Ok (Z.land chunk 16777215)
               else if bitsRead =? 25 then Ok (Z.land chunk 65535)
               else if bitsRead =? 35 then Ok (Z.land chunk 255)
               else Err InvalidPadding) ;;
    if negb (unused =? 0) then Err InvalidPadding else Ok tt
  else Ok tt.

(** [for (let i = 0; i < byteLength; i++)] with
    [byteLength = Math.floor(bitsRead / 8)]; the bytes are appended to
    [result] (five cells per window are allocated in the source). *)
Definition extract (chunk bitsRead : Z) (result : bytes) : bytes :=
  fold_left
    (fun result k =>
       result ++
       [to_uint8 (Z.land (Z.shiftr chunk (32 - Z.of_nat k * 8)) 255)])
    (seq 0 (Z.to_nat (bitsRead / 8))) result.

(** One iteration of the outer loop of the decoder, at index [i]. *)
Definition decode_window (encoded : str) (decodeMap : decode_map)
  (padding : DecodingPadding.t) (i : nat) (result : bytes) : res bytes :=
  st <- scan encoded decodeMap padding i ;;
  _ <- check (fst st) (snd st) ;;
  Ok (extract (fst st) (snd st) result).

(** [for (let i = 0; i < encoded.length; i += 8)], [n] iterations left. *)
Fixpoint decode_loop (encoded : str) (decodeMap : decode_map)
  (padding : DecodingPadding.t) (n i : nat) (result : bytes) : res bytes :=
  match n with
  | O => Ok result
  | S n' =>
      result' <- decode_window encoded decodeMap padding i result ;;
      decode_loop encoded decodeMap padding n' (i + 8) result'
  end.

Definition decodeBase32_internal (encoded : str) (decodeMap : decode_map)
  (padding : DecodingPadding.t) : res bytes :=
  decode_loop encoded decodeMap padding (trips (List.length encoded) 8) 0 [].

Definition decodeBase32 (encoded : str) : res bytes :=
  decodeBase32_internal encoded base32DecodeMap DecodingPadding.Required.
Definition decodeBase32IgnorePadding (encoded : str) : res bytes :=
  decodeBase32_internal encoded base32DecodeMap DecodingPadding.Ignore.

End Base32.

Definition hello : bytes := map to_uint8 [72; 101; 108; 108; 111].

(** ** Vocabulary of the statements *)

(** The character of value [v]. *)
Definition sym (alphabet : str) (v : Z) : ascii :=
  nth (Z.to_nat v) alphabet pad.

(** [alphabet] has [n] characters, none of them the pad character, and
    [m] sends the character at index [i] to [i]. *)
Definition agrees (n : nat) (alphabet : str) (m : decode_map) : bool :=
  Nat.eqb (List.length alphabet) n
  && forallb
       (fun i =>
          match nth_error alphabet i with
          | Some c =>
              negb (Ascii.eqb c pad)
              && match lookup m c with
                 | Some v => v =? Z.of_nat i
                 | None => false
                 end
          | None => false
          end) (seq 0 n).

(** The two characters that the hex encoders write for the byte [b]. *)
Definition digits (alphabet : str) (b : byte) : str :=
  char_at alphabet (JS.sar (byte_val b) 4)
  ++ char_at alphabet (JS.and (byte_val b) 15).

(** What the round trip needs from an alphabet: each byte is written as two
    characters that [Hex.decode_pair] reads back. *)
Definition inverts (alphabet : str) : Prop :=
  forall b, exists c1 c2,
    digits alphabet b = [c1; c2]
    /\ forall rest, Hex.decode_pair (c1 :: c2 :: rest) 0 = Ok b.

(** The value of the six bits of [buf] above bit [s]. *)
Definition field (buf s : Z) : Z := (buf / 2 ^ s) mod 64.

(** The value of the low bits of [buf], moved up by [s] places in a
    six-bit slot. *)
Definition last_field (buf s : Z) : Z := (buf * 2 ^ s) mod 64.

(** The pads that close a short chunk of an encoding. *)
Definition pads (p : EncodingPadding.t) (n : nat) : str :=
  match p with
  | EncodingPadding.Include => repeat pad n
  | EncodingPadding.None => []
  end.

(** A short window of a decoder: [n] pads, or in Ignore mode the end of the
    input, after the data characters. *)
Definition closes (p : DecodingPadding.t) (n : nat) (tl : str) : Prop :=
  tl = repeat pad n \/ (tl = [] /\ p = DecodingPadding.Ignore).

(** The value of the five bits of [buf] above bit [s]. *)
Definition field5 (buf s : Z) : Z := (buf / 2 ^ s) mod 32.

(** [ceil(a / b)] on natural numbers. *)
Definition ceil_div (a b : nat) : nat := Nat.div (a + b - 1) b.

(** Length of an encoding: [w] characters per chunk when padded,
    [ceil(8 n / k)] characters otherwise. *)
Definition encoded_length (k w : nat) (p : EncodingPadding.t) (n : nat) : nat :=
  match p with
  | EncodingPadding.Include => (w * ceil_div n (Nat.div (w * k) 8))%nat
  | EncodingPadding.None => ceil_div (8 * n) k
  end.

(** Index of the character written for a final group of [r] bits,
    [0 < r < k]: the low [r] bits of the last byte, moved left to the top of
    a [k]-bit slot. *)
Definition partial_index (k : Z) (B : bytes) : Z :=
  let r := (8 * Z.of_nat (List.length B)) mod k in
  Z.shiftl (Z.land (byte_val (last B x00)) (Z.ones r)) (k - r).

(** The last character of [s] that is not a pad. *)
Definition last_data (s : str) : option ascii :=
  find (fun c => negb (Ascii.eqb c pad)) (rev s).

(** A result that is not an error other than [E]. *)
Definition error_or_ok {A} (E : error) (r : res A) : Prop :=
  r = Err E \/ exists a, r = Ok a.

(** [j > 0 && encoded[i + j - 1] === "="]: the test of the decoders for a
    character that follows a pad. *)
Definition after_pad (e : str) (i j : nat) : bool :=
  (0 <? j)%nat && is_pad (nth_error e (i + j - 1)).

(** The bit counts of the short windows of RFC 4648: two or three
    characters of six bits; two, four, five or seven characters of five
    bits. *)
Definition valid_short (k bits : Z) : Prop :=
  if k =? 6 then bits = 12 \/ bits = 18
  else bits = 10 \/ bits = 20 \/ bits = 25 \/ bits = 35.

(** The bits of the accumulator of [width] bits below the last complete
    byte of the [bits] bits read. *)
Definition unused_bits (width chunk bits : Z) : Z :=
  Z.land chunk (Z.ones (width - 8 * (bits / 8))).

(** The ordering rule as the specification states it, for a decoder over
    windows of [W] characters: a character of the alphabet after a pad (or,
    in Ignore mode, after the end of the input) in one window makes the
    decoder fail with invalid padding. *)
Definition ordering_claim (W : nat)
  (decode : str -> decode_map -> DecodingPadding.t -> res bytes)
  (e : str) (m : decode_map) (p : DecodingPadding.t) : Prop :=
  forall q j j' c,
    (j < j' < W)%nat ->
    nth_error e (W * q + j) = Some pad
    \/ (p = DecodingPadding.Ignore /\ nth_error e (W * q + j) = None) ->
    nth_error e (W * q + j') = Some c ->
    Ascii.eqb c pad = false -> lookup m c <> None ->
    decode e m p = Err InvalidPadding.

(** Every character before position [P] is a pad or in the decode map. *)
Definition known_before (e : str) (m : decode_map) (P : nat) : Prop :=
  forall k c, (k < P)%nat -> nth_error e k = Some c ->
    Ascii.eqb c pad = true \/ lookup m c <> None.

(** No pad before position [P]. *)
Definition no_pad_before (e : str) (P : nat) : Prop :=
  forall k, (k < P)%nat -> nth_error e k <> Some pad.

(** The window [q0] is the first that fails, with the error [E]: [window q]
    is the result of window [q] on its own. *)
Definition first_failure (window : nat -> res bytes) (q0 : nat) (E : error)
  : Prop :=
  (forall q', (q' < q0)%nat -> exists w, window q' = Ok w)
  /\ window q0 = Err E.

(** The decoder result [r] is the error of the first window that fails, a
    window at or before [q]. *)
Definition fails_by (window : nat -> res bytes) (r : res bytes) (q : nat)
  : Prop :=
  exists q0 E, (q0 <= q)%nat /\ first_failure window q0 E /\ r = Err E.

(** The windows of the decoders, each on its own. *)
Definition base64_window (e : str) (m : decode_map) (p : DecodingPadding.t)
  (q : nat) : res bytes :=
  Base64.decode_window e m p (4 * q) [].

Definition base32_window (e : str) (m : decode_map) (p : DecodingPadding.t)
  (q : nat) : res bytes :=
  Base32.decode_window e m p (8 * q) [].

(** Position [k] of the window at index [i] is a data position: no pad
    stands at it or before it in the window.  From its first pad on, a
    window holds padding, and the decoders take no data character there. *)
Definition data_position (e : str) (i k : nat) : Prop :=
  forall k', (k' <= k)%nat -> nth_error e (i + k') <> Some pad.

(** Every character at a data position of the window at index [i] is in
    the decode map. *)
Definition leading_known (e : str) (m : decode_map) (i : nat) : Prop :=
  forall k c, nth_error e (i + k) = Some c -> data_position e i k ->
    lookup m c <> None.

(** A character outside the decode map at a data position of the window at
    index [i]. *)
Definition leading_stray (e : str) (m : decode_map) (i : nat) : Prop :=
  exists k c, nth_error e (i + k) = Some c /\ data_position e i k
    /\ lookup m c = None.

(** The short-window claim as the specification states it, for a decoder
    over windows of [W] characters of [k] bits: when the character loop of
    a window ends with fewer than [width] bits, a successful decode implies
    a valid bit count and zero unused bits, and otherwise the decoder fails
    with invalid padding. *)
Definition short_window_claim (W : nat) (k width : Z)
  (scan : str -> decode_map -> DecodingPadding.t -> nat -> res (Z * Z))
  (decode : str -> decode_map -> DecodingPadding.t -> res bytes)
  (e : str) (m : decode_map) (p : DecodingPadding.t) : Prop :=
  forall q chunk bits,
    (W * q < List.length e)%nat ->
    scan e m p (W * q)%nat = Ok (chunk, bits) -> bits < width ->
    (forall out, decode e m p = Ok out ->
       valid_short k bits /\ unused_bits width chunk bits = 0)
    /\ (~ (valid_short k bits /\ unused_bits width chunk bits = 0) ->
        decode e m p = Err InvalidPadding).

(** The crossover claim as the specification states it: a character [c]
    of the other Base64 alphabet at a data position makes the decoder fail
    with invalid character. *)
Definition crossover_claim (e : str) (m : decode_map)
  (p : DecodingPadding.t) (c : ascii) : Prop :=
  forall q j, (j < 4)%nat -> nth_error e (4 * q + j) = Some c ->
    data_position e (4 * q) j ->
    Base64.decodeBase64_internal e m p = Err InvalidCharacter.

(** What the claim says of the Base64 decoder at a position past the end of
    an input that does not fill its last window: the invalid-character
    error. *)
Definition past_end_claim (e : str) (m : decode_map) : Prop :=
  Nat.modulo (List.length e) 4 <> 0%nat ->
  forall q j st,
    (4 * q < List.length e <= 4 * q + j)%nat -> (j < 4)%nat ->
    Base64.scan_step e m DecodingPadding.Required (4 * q) st j
    = Err InvalidCharacter.

(** Every character of [e] is a data character of the decode map. *)
Definition all_data (e : str) (m : decode_map) : Prop :=
  forall k c, nth_error e k = Some c ->
    Ascii.eqb c pad = false /\ lookup m c <> None.

(** [c] with an ASCII lower-case letter replaced by its upper-case letter. *)
Definition ascii_upper (c : ascii) : ascii :=
  let n := N_of_ascii c in
  if ((97 <=? n) && (n <=? 122))%N then ascii_of_N (n - 32) else c.

(** [c] with an ASCII upper-case letter replaced by its lower-case letter. *)
Definition ascii_lower (c : ascii) : ascii :=
  let n := N_of_ascii c in
  if ((65 <=? n) && (n <=? 90))%N then ascii_of_N (n + 32) else c.

(** [c in m]. *)
Definition in_map (m : decode_map) (c : ascii) : bool :=
  match lookup m c with Some _ => true | None => false end.

(** The value of a hex digit, 0 for any other character. *)
Definition hex_value (c : ascii) : Z :=
  match lookup Hex.decodeMap c with Some v => v | None => 0 end.

(** The bytes that a string of hex digits denotes, two digits per byte. *)
Fixpoint hex_bytes (data : str) : bytes :=
  match data with
  | c1 :: c2 :: rest => to_uint8 (16 * hex_value c1 + hex_value c2)
                        :: hex_bytes rest
  | _ => []
  end.

(** [c] of the Base64 alphabet as the character of the same value in the
    Base64url alphabet. *)
Definition url_char (c : ascii) : ascii :=
  if Ascii.eqb c "+" then "-"%char
  else if Ascii.eqb c "/" then "_"%char else c.

(** Number of pads that close the padded encoding of [n] bytes in chunks
    of [k] bytes and [w] characters: [w] minus the characters written for
    the bytes of a last short chunk. *)
Definition pad_count (k w n : nat) : nat :=
  let r := Nat.modulo n k in
  if Nat.eqb r 0 then 0%nat
  else (w - ceil_div (8 * r) (Nat.div (8 * k) w))%nat.

(** [c] is one of the two characters that only the Base64url alphabet
    has. *)
Definition url_only (c : ascii) : bool :=
  Ascii.eqb c "-" || Ascii.eqb c "_".

(** The six-bit groups of a byte sequence, most significant first, the last
    one completed with zero bits. *)
Fixpoint groups6 (data : bytes) : list Z :=
  match data with
  | a :: b :: c :: rest =>
      let buf := byte_val a * 65536 + byte_val b * 256 + byte_val c in
      [field buf 18; field buf 12; field buf 6; field buf 0] ++ groups6 rest
  | [a; b] =>
      let buf := byte_val a * 256 + byte_val b in
      [field buf 10; field buf 4; last_field buf 2]
  | [a] => [field (byte_val a) 2; last_field (byte_val a) 4]
  | [] => []
  end.

(** The five-bit groups of a byte sequence, most significant first, the
    last one completed with zero bits. *)
Fixpoint groups5 (data : bytes) : list Z :=
  match data with
  | a :: b :: c :: d :: e :: rest =>
      let buf :=
        (((byte_val a * 256 + byte_val b) * 256 + byte_val c) * 256
         + byte_val d) * 256 + byte_val e in
      [field5 buf 35; field5 buf 30; field5 buf 25; field5 buf 20;
       field5 buf 15; field5 buf 10; field5 buf 5; field5 buf 0]
      ++ groups5 rest
  | [a; b; c; d] =>
      let buf :=
        (((byte_val a * 256 + byte_val b) * 256 + byte_val c) * 256
         + byte_val d) * 8 in
      [field5 buf 30; field5 buf 25; field5 buf 20; field5 buf 15;
       field5 buf 10; field5 buf 5; field5 buf 0]
  | [a; b; c] =>
      let buf := ((byte_val a * 256 + byte_val b) * 256 + byte_val c) * 2 in
      [field5 buf 20; field5 buf 15; field5 buf 10; field5 buf 5;
       field5 buf 0]
  | [a; b] =>
      let buf := (byte_val a * 256 + byte_val b) * 16 in
      [field5 buf 15; field5 buf 10; field5 buf 5; field5 buf 0]
  | [a] => [field5 (byte_val a * 4) 5; field5 (byte_val a * 4) 0]
  | [] => []
  end.

(** ** Test vectors *)

Example hex_vec_upper :
  Hex.encodeHexUpperCase (map to_uint8 [255; 10; 15]) = lit "FF0A0F".
Proof. reflexivity. Qed.

Example hex_vec_lower :
  Hex.encodeHexLowerCase (map to_uint8 [255; 10; 15]) = lit "ff0a0f".
Proof. reflexivity. Qed.

Example hex_vec_decode :
  Hex.decodeHex (lit "ff0a0F") = Ok (map to_uint8 [255; 10; 15]).
Proof. reflexivity. Qed.

Example hex_vec_odd : Hex.decodeHex (lit "abc") = Err InvalidHexString.
Proof. reflexivity. Qed.

Example base64_vec_hello : Base64.encodeBase64 hello = lit "SGVsbG8=".
Proof. reflexivity. Qed.

Example base64_vec_hello_nopad :
  Base64.encodeBase64NoPadding hello = lit "SGVsbG8"
  /\ Base64.decodeBase64IgnorePadding (lit "SGVsbG8") = Ok hello.
Proof. split; reflexivity. Qed.

Example base64_vec_bad_order :
  Base64.decodeBase64 (lit "SG=sbG8=") = Err InvalidPadding.
Proof. reflexivity. Qed.

Example base64_vec_unused_bits :
  Base64.decodeBase64 (lit "SGV=") = Err InvalidPadding
  /\ Base64.decodeBase64 (lit "SGU=") = Ok (map to_uint8 [72; 101]).
Proof. split; reflexivity. Qed.

Example base32_vec_hello : Base32.encodeBase32UpperCase hello = lit "JBSWY3DP".
Proof. reflexivity. Qed.

Example base32_vec_short :
  Base32.encodeBase32UpperCase (map to_uint8 [72; 101]) = lit "JBSQ===="
  /\ Base32.decodeBase32 (lit "JBSQ====") = Ok (map to_uint8 [72; 101])
  /\ Base32.decodeBase32IgnorePadding (lit "jbsq")
     = Ok (map to_uint8 [72; 101]).
Proof. repeat split; reflexivity. Qed.

(** ** Bytes, loops and 32-bit operations *)

Lemma byte_val_range (b : byte) : 0 <= byte_val b < 256.
Proof.
  unfold byte_val. pose proof (Byte.to_N_bounded b) as H.
  split; [apply N2Z.is_nonneg | ].
  apply N2Z.inj_le in H. simpl in H. lia.
Qed.

Lemma to_uint8_byte_val (b : byte) : to_uint8 (byte_val b) = b.
Proof.
  unfold to_uint8. rewrite Z.mod_small by apply byte_val_range.
  unfold byte_val. rewrite N2Z.id, Byte.of_to_N. reflexivity.
Qed.

Lemma trips_0 (w : nat) : (0 < w)%nat -> trips 0 w = 0%nat.
Proof. intros H. unfold trips. apply Nat.div_small. lia. Qed.

Lemma trips_add (len w : nat) :
  (0 < w)%nat -> trips (w + len) w = S (trips len w).
Proof.
  intros H. unfold trips.
  replace (w + len + w - 1)%nat with (len + w - 1 + 1 * w)%nat by lia.
  rewrite Nat.div_add by lia. lia.
Qed.

Lemma trips_short (len w : nat) :
  (0 < len <= w)%nat -> trips len w = 1%nat.
Proof.
  intros H. unfold trips.
  replace (len + w - 1)%nat with (len - 1 + 1 * w)%nat by lia.
  rewrite Nat.div_add by lia. rewrite Nat.div_small by lia. reflexivity.
Qed.

Lemma int32_small (z : Z) :
  -2147483648 <= z < 2147483648 -> JS.int32 z = z.
Proof. intros H. unfold JS.int32. rewrite Z.mod_small; lia. Qed.

Lemma bind_ok {A B} (r : res A) (f : A -> res B) (b : B) :
  bind r f = Ok b -> exists a, r = Ok a /\ f a = Ok b.
Proof. destruct r as [a | e]; simpl; [eauto | discriminate]. Qed.

Lemma bind_err {A B} (r : res A) (f : A -> res B) (e : error) :
  bind r f = Err e -> r = Err e \/ exists a, r = Ok a /\ f a = Err e.
Proof. destruct r as [a | e']; simpl; [eauto | intros [= ->]; auto]. Qed.

(** ** Hex: length and round trip *)

Module HexFacts.
Import Hex.

Lemma upper_inverts : inverts alphabetUpperCase.
Proof.
  intros b. destruct b; do 2 eexists; (split; [reflexivity | ]);
    intros rest; reflexivity.
Qed.

Lemma lower_inverts : inverts alphabetLowerCase.
Proof.
  intros b. destruct b; do 2 eexists; (split; [reflexivity | ]);
    intros rest; reflexivity.
Qed.

Lemma encode_loop_acc (alphabet : str) (data : bytes) (r : str) :
  encode_loop alphabet data r = r ++ encode_loop alphabet data [].
Proof.
  revert r. induction data as [| b data IH]; intros r; simpl.
  - now rewrite app_nil_r.
  - rewrite IH. rewrite (IH (_ ++ _)). now rewrite <- !app_assoc.
Qed.

Lemma encode_loop_cons (alphabet : str) (b : byte) (data : bytes) :
  encode_loop alphabet (b :: data) []
  = digits alphabet b ++ encode_loop alphabet data [].
Proof. simpl. now rewrite encode_loop_acc. Qed.

Lemma encode_loop_length (alphabet : str) (data : bytes) :
  inverts alphabet ->
  List.length (encode_loop alphabet data []) = (2 * List.length data)%nat.
Proof.
  intros Hinv. induction data as [| b data IH]; [reflexivity | ].
  rewrite encode_loop_cons, length_app, IH.
  destruct (Hinv b) as (c1 & c2 & -> & _). simpl. lia.
Qed.

Lemma decode_pair_shift (c1 c2 : ascii) (rest : str) (i : nat) :
  decode_pair (c1 :: c2 :: rest) (i + 2) = decode_pair rest i.
Proof.
  unfold decode_pair.
  replace (i + 2 + 1)%nat with (S (S (i + 1))) by lia.
  replace (i + 2)%nat with (S (S i)) by lia. reflexivity.
Qed.

Lemma decode_loop_shift (c1 c2 : ascii) (rest : str) (n i : nat) (r : bytes) :
  decode_loop (c1 :: c2 :: rest) n (i + 2) r = decode_loop rest n i r.
Proof.
  revert i r. induction n as [| n IH]; intros i r; simpl; [reflexivity | ].
  rewrite decode_pair_shift. destruct (decode_pair rest i); simpl; auto.
Qed.

Lemma decode_loop_encode (alphabet : str) (data : bytes) (r : bytes) :
  inverts alphabet ->
  decode_loop (encode_loop alphabet data []) (List.length data) 0 r
  = Ok (r ++ data).
Proof.
  intros Hinv. revert r. induction data as [| b data IH]; intros r.
  - simpl. now rewrite app_nil_r.
  - rewrite encode_loop_cons.
    destruct (Hinv b) as (c1 & c2 & -> & Hdec).
    cbn [List.length decode_loop app]. rewrite Hdec. cbn [bind].
    rewrite (decode_loop_shift c1 c2 _ _ 0), IH.
    now rewrite <- app_assoc.
Qed.

Lemma decodeHex_encode (alphabet : str) (data : bytes) :
  inverts alphabet ->
  decodeHex (encode_loop alphabet data []) = Ok data.
Proof.
  intros Hinv. unfold decodeHex.
  rewrite encode_loop_length by assumption.
  replace (Nat.modulo (2 * List.length data) 2) with 0%nat.
  2:{ symmetry. rewrite Nat.mul_comm. apply Nat.Div0.mod_mul. }
  cbn [Nat.eqb negb].
  replace (trips (2 * List.length data) 2) with (List.length data).
  - now rewrite decode_loop_encode.
  - unfold trips.
    replace (2 * List.length data + 2 - 1)%nat
      with (1 + List.length data * 2)%nat by lia.
    rewrite Nat.div_add by lia. reflexivity.
Qed.

End HexFacts.

(** ** Bit fields as arithmetic *)

Lemma lor_disjoint (a v n : Z) :
  0 <= n -> 0 <= v < 2 ^ n -> a mod 2 ^ n = 0 -> Z.lor a v = a + v.
Proof.
  intros Hn Hv Ha.
  assert (Hland : Z.land a v = 0).
  { apply Z.bits_inj'. intros k Hk. rewrite Z.land_spec, Z.bits_0.
    destruct (Z.lt_ge_cases k n) as [Hlt | Hge].
    - replace (Z.testbit a k) with false; [reflexivity | ].
      symmetry. apply Z.mod_divide in Ha; [ | apply Z.pow_nonzero; lia].
      destruct Ha as [q ->]. apply Z.mul_pow2_bits_low. assumption.
    - replace (Z.testbit v k) with false; [apply andb_false_r | ].
      symmetry. destruct (Z.eq_dec v 0) as [-> | Hnz]; [apply Z.bits_0 | ].
      apply Z.bits_above_log2; [lia | ].
      apply Z.log2_lt_pow2; [lia | ].
      apply Z.lt_le_trans with (2 ^ n); [lia | ].
      apply Z.pow_le_mono_r; lia. }
  rewrite Z.add_nocarry_lxor by assumption.
  symmetry. apply Z.lxor_lor. assumption.
Qed.

Ltac zdm := Z.div_mod_to_equations; lia.

Lemma js_shl_small (a s : Z) :
  0 <= s < 32 -> 0 <= a -> a * 2 ^ s < 2147483648 -> JS.shl a s = a * 2 ^ s.
Proof.
  intros Hs Ha Hb. unfold JS.shl.
  assert (a < 2147483648).
  { assert (1 <= 2 ^ s) by (apply Z.pow_le_mono_r with (b := 0); lia ). nia. }
  rewrite (int32_small a) by lia.
  rewrite (Z.mod_small s) by lia.
  rewrite Z.shiftl_mul_pow2 by lia.
  apply int32_small. assert (0 < 2 ^ s) by (apply Z.pow_pos_nonneg; lia). nia.
Qed.

Lemma js_sar_small (a s : Z) :
  0 <= s < 32 -> 0 <= a < 2147483648 -> JS.sar a s = a / 2 ^ s.
Proof.
  intros Hs Ha. unfold JS.sar.
  rewrite int32_small by lia. rewrite (Z.mod_small s) by lia.
  apply Z.shiftr_div_pow2. lia.
Qed.

Lemma js_and_ones (a n : Z) :
  0 <= n < 32 -> 0 <= a < 2147483648 -> JS.and a (Z.ones n) = a mod 2 ^ n.
Proof.
  intros Hn Ha. unfold JS.and.
  assert (Hp : 0 < 2 ^ n <= 2 ^ 31).
  { split; [apply Z.pow_pos_nonneg; lia | apply Z.pow_le_mono_r; lia]. }
  change (2 ^ 31) with 2147483648 in Hp.
  rewrite (int32_small a) by lia.
  rewrite (int32_small (Z.ones n)) by (rewrite Z.ones_equiv; lia).
  rewrite Z.land_ones by lia.
  apply int32_small. pose proof (Z.mod_pos_bound a (2 ^ n)). lia.
Qed.

Lemma js_or_disjoint (a v n : Z) :
  0 <= n -> 0 <= v < 2 ^ n -> a mod 2 ^ n = 0 -> 0 <= a -> a + v < 2147483648 ->
  JS.or a v = a + v.
Proof.
  intros Hn Hv Hm Ha Hb. unfold JS.or.
  rewrite (int32_small a), (int32_small v) by lia.
  rewrite (lor_disjoint a v n) by assumption.
  apply int32_small. lia.
Qed.

Ltac pow2 :=
  repeat match goal with
         | |- context [Z.pow 2 (Zpos ?p)] =>
             let v := eval vm_compute in (Z.pow 2 (Zpos p)) in
             change (Z.pow 2 (Zpos p)) with v
         end.
Ltac rng := pow2; first [lia | zdm].

Lemma js_pack (buf v : Z) :
  0 <= buf < 65536 -> 0 <= v < 256 -> JS.or (JS.shl buf 8) v = buf * 256 + v.
Proof.
  intros Hb Hv.
  rewrite js_shl_small by rng.
  rewrite (js_or_disjoint _ v 8) by rng.
  rng.
Qed.

Lemma js_field (buf s : Z) :
  0 <= s < 32 -> 0 <= buf < 2147483648 ->
  JS.and (JS.sar buf s) 63 = (buf / 2 ^ s) mod 64.
Proof.
  intros Hs Hb. rewrite js_sar_small by lia.
  assert (0 < 2 ^ s) by (apply Z.pow_pos_nonneg; lia).
  change 63 with (Z.ones 6). rewrite js_and_ones; [reflexivity | lia | ].
  split; [apply Z.div_pos; lia | ].
  apply Z.div_lt_upper_bound; nia.
Qed.

Lemma js_last_field (buf s : Z) :
  0 <= s < 8 -> 0 <= buf < 65536 ->
  JS.and (JS.shl buf s) 63 = (buf * 2 ^ s) mod 64.
Proof.
  intros Hs Hb.
  assert (0 < 2 ^ s <= 2 ^ 8)
    by (split; [apply Z.pow_pos_nonneg | apply Z.pow_le_mono_r]; lia).
  change (2 ^ 8) with 256 in *.
  rewrite js_shl_small by nia.
  change 63 with (Z.ones 6). rewrite js_and_ones; [reflexivity | lia | nia].
Qed.

Lemma js_byte_field (chunk s : Z) :
  0 <= s < 32 -> 0 <= chunk < 2147483648 ->
  JS.and (JS.sar chunk s) 255 = (chunk / 2 ^ s) mod 256.
Proof.
  intros Hs Hb. rewrite js_sar_small by lia.
  assert (0 < 2 ^ s) by (apply Z.pow_pos_nonneg; lia).
  change 255 with (Z.ones 8). rewrite js_and_ones; [reflexivity | lia | ].
  split; [apply Z.div_pos; lia | ].
  apply Z.div_lt_upper_bound; nia.
Qed.

Lemma js_place (chunk v s : Z) :
  0 <= s <= 18 -> 0 <= v < 64 -> 0 <= chunk < 16777216 ->
  chunk mod 2 ^ (s + 6) = 0 ->
  JS.or chunk (JS.shl v s) = chunk + v * 2 ^ s.
Proof.
  intros Hs Hv Hc Hm.
  assert (0 < 2 ^ s <= 2 ^ 18)
    by (split; [apply Z.pow_pos_nonneg | apply Z.pow_le_mono_r]; lia).
  change (2 ^ 18) with 262144 in *.
  rewrite js_shl_small by nia.
  apply (js_or_disjoint _ _ (s + 6)); try lia; try nia.
  rewrite Z.pow_add_r by lia. change (2 ^ 6) with 64. nia.
Qed.

(** ** Alphabets and decode maps *)

Lemma agrees_spec (n : nat) (alphabet : str) (m : decode_map) (v : Z) :
  agrees n alphabet m = true -> 0 <= v < Z.of_nat n ->
  char_at alphabet v = [sym alphabet v]
  /\ Ascii.eqb (sym alphabet v) pad = false
  /\ lookup m (sym alphabet v) = Some v.
Proof.
  intros Hag Hv. unfold agrees in Hag.
  apply andb_true_iff in Hag. destruct Hag as [Hlen Hall].
  apply Nat.eqb_eq in Hlen. rewrite forallb_forall in Hall.
  specialize (Hall (Z.to_nat v)).
  assert (Hin : In (Z.to_nat v) (seq 0 n)) by (apply in_seq; lia).
  specialize (Hall Hin).
  unfold char_at, sym.
  destruct (Z.ltb_spec v 0) as [Hneg | _]; [lia | ].
  destruct (nth_error alphabet (Z.to_nat v)) as [c | ] eqn:Hnth;
    [ | discriminate].
  rewrite (nth_error_nth _ _ _ Hnth).
  apply andb_true_iff in Hall. destruct Hall as [Hpad Hlook].
  apply negb_true_iff in Hpad.
  destruct (lookup m c) as [w | ]; [ | discriminate].
  apply Z.eqb_eq in Hlook. rewrite Z2Nat.id in Hlook by lia. subst w.
  auto.
Qed.

Lemma is_pad_sym (n : nat) (alphabet : str) (m : decode_map) (v : Z) :
  agrees n alphabet m = true -> 0 <= v < Z.of_nat n ->
  is_pad (Some (sym alphabet v)) = false.
Proof. intros Hag Hv. simpl. now apply (agrees_spec n alphabet m v). Qed.

(** ** Base64: the encoder and the decoder, chunk by chunk *)

Lemma list_ind3 {A} (P : list A -> Prop) :
  P [] -> (forall a, P [a]) -> (forall a b, P [a; b]) ->
  (forall a b c l, P l -> P (a :: b :: c :: l)) ->
  forall l, P l.
Proof.
  intros H0 H1 H2 H3 l.
  enough (P l /\ (forall a, P (a :: l)) /\ (forall a b, P (a :: b :: l)))
    by tauto.
  induction l as [| x l (IH0 & IH1 & IH2)]; auto.
Qed.

Module Base64Facts.
Import Base64.

Lemma b64_read_loop_skipn (data : bytes) (d i : nat) (js : list nat)
  (st : Z * Z) :
  read_loop data (d + i) js st = read_loop (skipn d data) i js st.
Proof.
  revert st. induction js as [| j js IH]; intros st; simpl; [reflexivity | ].
  rewrite nth_error_skipn, Nat.add_assoc.
  destruct (nth_error data (d + i + j)); [apply IH | reflexivity].
Qed.

Lemma b64_encode_chunk_skipn (data : bytes) (al : str) (p : EncodingPadding.t)
  (d i : nat) (r : str) :
  encode_chunk data al p (d + i) r = encode_chunk (skipn d data) al p i r.
Proof. unfold encode_chunk. now rewrite b64_read_loop_skipn. Qed.

Lemma b64_encode_loop_skipn (data : bytes) (al : str) (p : EncodingPadding.t)
  (d n i : nat) (r : str) :
  encode_loop data al p n (d + i) r = encode_loop (skipn d data) al p n i r.
Proof.
  revert i r. induction n as [| n IH]; intros i r; simpl; [reflexivity | ].
  rewrite <- Nat.add_assoc, IH. now rewrite b64_encode_chunk_skipn.
Qed.

Lemma b64_emit_acc (al : str) (p : EncodingPadding.t) (buf : Z) (r : str)
  (s : Z) (j : nat) :
  emit al p buf (r, s) j
  = (r ++ fst (emit al p buf ([], s) j), snd (emit al p buf ([], s) j)).
Proof.
  unfold emit. destruct (6 <=? s); [reflexivity | ].
  destruct (0 <? s); [reflexivity | ].
  destruct p; simpl; [reflexivity | now rewrite app_nil_r].
Qed.

Lemma b64_emit_loop_acc (al : str) (p : EncodingPadding.t) (buf : Z)
  (js : list nat) (r : str) (s : Z) :
  fst (fold_left (emit al p buf) js (r, s))
  = r ++ fst (fold_left (emit al p buf) js ([], s)).
Proof.
  revert r s. induction js as [| j js IH]; intros r s; cbn [fold_left].
  - simpl. now rewrite app_nil_r.
  - rewrite b64_emit_acc. rewrite IH.
    destruct (emit al p buf ([], s) j) as [piece s'] eqn:E. simpl.
    rewrite (IH piece). now rewrite app_assoc.
Qed.

Lemma b64_encode_chunk_acc (data : bytes) (al : str) (p : EncodingPadding.t)
  (i : nat) (r : str) :
  encode_chunk data al p i r = r ++ encode_chunk data al p i [].
Proof.
  unfold encode_chunk. destruct (read_loop data i (seq 0 3) (0, 0)).
  apply b64_emit_loop_acc.
Qed.

Lemma b64_encode_loop_acc (data : bytes) (al : str) (p : EncodingPadding.t)
  (n i : nat) (r : str) :
  encode_loop data al p n i r = r ++ encode_loop data al p n i [].
Proof.
  revert i r. induction n as [| n IH]; intros i r; simpl.
  - now rewrite app_nil_r.
  - rewrite IH, (IH _ (encode_chunk data al p i [])).
    rewrite (b64_encode_chunk_acc data al p i r). now rewrite app_assoc.
Qed.

Lemma b64_read_loop_3 (a b c : byte) (rest : bytes) :
  read_loop (a :: b :: c :: rest) 0 (seq 0 3) (0, 0)
  = (JS.or (JS.shl (JS.or (JS.shl (JS.or (JS.shl 0 8) (byte_val a)) 8)
                      (byte_val b)) 8) (byte_val c), 24).
Proof. reflexivity. Qed.

Lemma b64_encode_chunk_3 (a b c : byte) (rest : bytes) (al : str)
  (p : EncodingPadding.t) (r : str) :
  encode_chunk (a :: b :: c :: rest) al p 0 r = encode_chunk [a; b; c] al p 0 r.
Proof.
  unfold encode_chunk.
  rewrite (b64_read_loop_3 a b c rest), (b64_read_loop_3 a b c []).
  reflexivity.
Qed.

Lemma b64_encode_loop_S (data : bytes) (al : str) (p : EncodingPadding.t)
  (n i : nat) (r : str) :
  encode_loop data al p (S n) i r
  = encode_loop data al p n (i + 3) (encode_chunk data al p i r).
Proof. reflexivity. Qed.

(** The encoder, three bytes at a time. *)
Lemma b64_encode_cons3 (a b c : byte) (rest : bytes) (al : str)
  (p : EncodingPadding.t) :
  encodeBase64_internal (a :: b :: c :: rest) al p
  = encode_chunk [a; b; c] al p 0 [] ++ encodeBase64_internal rest al p.
Proof.
  unfold encodeBase64_internal.
  change (List.length (a :: b :: c :: rest)) with (3 + List.length rest)%nat.
  rewrite trips_add by lia.
  rewrite b64_encode_loop_S, b64_encode_chunk_3.
  change (0 + 3)%nat with (3 + 0)%nat.
  rewrite b64_encode_loop_skipn.
  apply b64_encode_loop_acc.
Qed.

Lemma b64_encode_short (data : bytes) (al : str) (p : EncodingPadding.t) :
  (0 < List.length data <= 3)%nat ->
  encodeBase64_internal data al p = encode_chunk data al p 0 [].
Proof.
  intros H. unfold encodeBase64_internal. rewrite trips_short by assumption.
  reflexivity.
Qed.

Lemma b64_read_loop_2 (a b : byte) :
  read_loop [a; b] 0 (seq 0 3) (0, 0)
  = (JS.or (JS.shl (JS.or (JS.shl 0 8) (byte_val a)) 8) (byte_val b), 16).
Proof. reflexivity. Qed.

Lemma b64_read_loop_1 (a : byte) :
  read_loop [a] 0 (seq 0 3) (0, 0) = (JS.or (JS.shl 0 8) (byte_val a), 8).
Proof. reflexivity. Qed.

Lemma field_range (buf s : Z) : 0 <= field buf s < 64.
Proof. unfold field. apply Z.mod_pos_bound. lia. Qed.

Lemma last_field_range (buf s : Z) : 0 <= last_field buf s < 64.
Proof. unfold last_field. apply Z.mod_pos_bound. lia. Qed.

Section Emit.
Variables (al : str) (m : decode_map).
Hypothesis Hag : agrees 64 al m = true.

Lemma b64_emit_data (p : EncodingPadding.t) (buf s s' : Z) (r : str) (j : nat) :
  6 <= s <= 24 -> s' = s - 6 -> 0 <= buf < 16777216 ->
  emit al p buf (r, s) j = (r ++ [sym al (field buf s')], s').
Proof.
  intros Hs -> Hb. unfold emit.
  destruct (Z.leb_spec 6 s) as [_ | ?]; [ | lia].
  rewrite js_field by lia. fold (field buf (s - 6)).
  destruct (agrees_spec 64 al m (field buf (s - 6)) Hag) as (-> & _).
  - apply field_range.
  - reflexivity.
Qed.

Lemma b64_emit_last (p : EncodingPadding.t) (buf s : Z) (r : str) (j : nat) :
  0 < s < 6 -> 0 <= buf < 65536 ->
  emit al p buf (r, s) j = (r ++ [sym al (last_field buf (6 - s))], 0).
Proof.
  intros Hs Hb. unfold emit.
  destruct (Z.leb_spec 6 s) as [? | _]; [lia | ].
  destruct (Z.ltb_spec 0 s) as [_ | ?]; [ | lia].
  rewrite js_last_field by lia. fold (last_field buf (6 - s)).
  destruct (agrees_spec 64 al m (last_field buf (6 - s)) Hag) as (-> & _).
  - apply last_field_range.
  - reflexivity.
Qed.

Lemma b64_emit_pad (p : EncodingPadding.t) (buf : Z) (r : str) (j : nat) :
  emit al p buf (r, 0) j
  = (match p with
     | EncodingPadding.Include => r ++ [pad]
     | EncodingPadding.None => r
     end, 0).
Proof. unfold emit. cbn [Z.leb Z.ltb Z.compare]. now destruct p. Qed.

Lemma b64_encode_chunk_full (p : EncodingPadding.t) (a b c : byte) :
  let buf := byte_val a * 65536 + byte_val b * 256 + byte_val c in
  encode_chunk [a; b; c] al p 0 []
  = [sym al (field buf 18); sym al (field buf 12);
     sym al (field buf 6); sym al (field buf 0)].
Proof.
  intros buf. unfold encode_chunk. rewrite b64_read_loop_3.
  pose proof (byte_val_range a). pose proof (byte_val_range b).
  pose proof (byte_val_range c).
  rewrite (js_pack 0) by lia. rewrite (js_pack (0 * 256 + _)) by lia.
  rewrite (js_pack ((0 * 256 + _) * 256 + _)) by lia.
  replace (((0 * 256 + byte_val a) * 256 + byte_val b) * 256 + byte_val c)
    with buf by (unfold buf; lia).
  assert (0 <= buf < 16777216) by (unfold buf; lia).
  cbn [seq fold_left].
  rewrite (b64_emit_data p buf 24 18) by lia.
  rewrite (b64_emit_data p buf 18 12) by lia.
  rewrite (b64_emit_data p buf 12 6) by lia.
  rewrite (b64_emit_data p buf 6 0) by lia.
  reflexivity.
Qed.

Lemma b64_encode_chunk_two (p : EncodingPadding.t) (a b : byte) :
  let buf := byte_val a * 256 + byte_val b in
  encode_chunk [a; b] al p 0 []
  = [sym al (field buf 10); sym al (field buf 4);
     sym al (last_field buf 2)] ++ pads p 1.
Proof.
  intros buf. unfold encode_chunk. rewrite b64_read_loop_2.
  pose proof (byte_val_range a). pose proof (byte_val_range b).
  rewrite (js_pack 0) by lia. rewrite (js_pack (0 * 256 + _)) by lia.
  replace ((0 * 256 + byte_val a) * 256 + byte_val b)
    with buf by (unfold buf; lia).
  assert (0 <= buf < 65536) by (unfold buf; lia).
  cbn [seq fold_left].
  rewrite (b64_emit_data p buf 16 10) by lia.
  rewrite (b64_emit_data p buf 10 4) by lia.
  rewrite (b64_emit_last p buf 4) by lia.
  rewrite b64_emit_pad. destruct p; reflexivity.
Qed.

Lemma b64_encode_chunk_one (p : EncodingPadding.t) (a : byte) :
  let buf := byte_val a in
  encode_chunk [a] al p 0 []
  = [sym al (field buf 2); sym al (last_field buf 4)] ++ pads p 2.
Proof.
  intros buf. unfold encode_chunk. rewrite b64_read_loop_1.
  pose proof (byte_val_range a).
  rewrite (js_pack 0) by lia.
  replace (0 * 256 + byte_val a) with buf by (unfold buf; lia).
  assert (0 <= buf < 256) by (unfold buf; lia).
  cbn [seq fold_left].
  rewrite (b64_emit_data p buf 8 2) by lia.
  rewrite (b64_emit_last p buf 2) by lia.
  rewrite !b64_emit_pad. destruct p; reflexivity.
Qed.
End Emit.

(** *** The decoder, window by window *)

Lemma leb_skipn (A : Type) (l : list A) (d k : nat) :
  (List.length (skipn d l) <=? k)%nat = (List.length l <=? d + k)%nat.
Proof.
  rewrite length_skipn.
  destruct (Nat.leb_spec (List.length l - d) k),
    (Nat.leb_spec (List.length l) (d + k)); auto; lia.
Qed.

Lemma b64_scan_step_skipn (e : str) (m : decode_map) (p : DecodingPadding.t)
  (d i : nat) (st : Z * Z) (j : nat) :
  scan_step e m p (d + i) st j = scan_step (skipn d e) m p i st j.
Proof.
  unfold scan_step.
  rewrite leb_skipn, !nth_error_skipn, !Nat.add_assoc.
  destruct j as [| j]; [reflexivity | ].
  replace (d + i + S j - 1)%nat with (d + (i + S j - 1))%nat by lia.
  reflexivity.
Qed.

Lemma for_each_ext {S} (f g : S -> nat -> res S) (js : list nat) (s : S) :
  (forall s j, In j js -> f s j = g s j) ->
  for_each f js s = for_each g js s.
Proof.
  revert s. induction js as [| j js IH]; intros s H; [reflexivity | ].
  cbn [for_each]. rewrite H by (left; reflexivity).
  destruct (g s j); [ | reflexivity]. cbn [bind]. apply IH.
  intros s' j' Hin. apply H. now right.
Qed.

Lemma b64_scan_skipn (e : str) (m : decode_map) (p : DecodingPadding.t)
  (d i : nat) :
  scan e m p (d + i) = scan (skipn d e) m p i.
Proof.
  unfold scan. apply for_each_ext. intros s j _. apply b64_scan_step_skipn.
Qed.

Lemma b64_decode_window_skipn (e : str) (m : decode_map) (p : DecodingPadding.t)
  (d i : nat) (r : bytes) :
  decode_window e m p (d + i) r = decode_window (skipn d e) m p i r.
Proof. unfold decode_window. now rewrite b64_scan_skipn. Qed.

Lemma b64_decode_loop_S (e : str) (m : decode_map) (p : DecodingPadding.t)
  (n i : nat) (r : bytes) :
  decode_loop e m p (S n) i r
  = (r' <- decode_window e m p i r ;; decode_loop e m p n (i + 4) r').
Proof. reflexivity. Qed.

Lemma b64_decode_loop_skipn (e : str) (m : decode_map) (p : DecodingPadding.t)
  (d n i : nat) (r : bytes) :
  decode_loop e m p n (d + i) r = decode_loop (skipn d e) m p n i r.
Proof.
  revert i r. induction n as [| n IH]; intros i r; [reflexivity | ].
  rewrite !b64_decode_loop_S, b64_decode_window_skipn.
  destruct (decode_window (skipn d e) m p i r); [ | reflexivity].
  cbn [bind]. rewrite <- Nat.add_assoc. apply IH.
Qed.

Lemma fold_left_snoc {A B} (f : B -> A) (l : list B) (r : list A) :
  fold_left (fun r k => r ++ [f k]) l r = r ++ map f l.
Proof.
  revert r. induction l as [| k l IH]; intros r; cbn [fold_left map].
  - now rewrite app_nil_r.
  - rewrite IH, <- app_assoc. reflexivity.
Qed.

Lemma b64_extract_acc (chunk bits : Z) (r : bytes) :
  extract chunk bits r = r ++ extract chunk bits [].
Proof. unfold extract. now rewrite !fold_left_snoc. Qed.

Lemma b64_decode_window_acc (e : str) (m : decode_map) (p : DecodingPadding.t)
  (i : nat) (r : bytes) :
  decode_window e m p i r
  = (out <- decode_window e m p i [] ;; Ok (r ++ out)).
Proof.
  unfold decode_window. destruct (scan e m p i) as [st | err]; [ | reflexivity].
  cbn [bind]. destruct (check (fst st) (snd st)); [ | reflexivity].
  cbn [bind]. now rewrite b64_extract_acc.
Qed.

Lemma b64_decode_loop_acc (e : str) (m : decode_map) (p : DecodingPadding.t)
  (n i : nat) (r : bytes) :
  decode_loop e m p n i r
  = (out <- decode_loop e m p n i [] ;; Ok (r ++ out)).
Proof.
  revert i r. induction n as [| n IH]; intros i r.
  - cbn [decode_loop bind]. now rewrite app_nil_r.
  - rewrite !b64_decode_loop_S. rewrite (b64_decode_window_acc e m p i r).
    destruct (decode_window e m p i []) as [w | err]; [ | reflexivity].
    cbn [bind]. rewrite (IH _ (r ++ w)), (IH _ ([] ++ w)).
    destruct (decode_loop e m p n (i + 4) []); [ | reflexivity].
    cbn [bind app]. now rewrite app_assoc.
Qed.

Lemma b64_decode_cons4 (c0 c1 c2 c3 : ascii) (rest : str) (m : decode_map)
  (p : DecodingPadding.t) :
  decodeBase64_internal (c0 :: c1 :: c2 :: c3 :: rest) m p
  = (w <- decode_window (c0 :: c1 :: c2 :: c3 :: rest) m p 0 [] ;;
     out <- decodeBase64_internal rest m p ;;
     Ok (w ++ out)).
Proof.
  unfold decodeBase64_internal.
  change (List.length (c0 :: c1 :: c2 :: c3 :: rest))
    with (4 + List.length rest)%nat.
  rewrite trips_add by lia. rewrite b64_decode_loop_S.
  destruct (decode_window _ m p 0 []) as [w | err]; [ | reflexivity].
  cbn [bind]. change (0 + 4)%nat with (4 + 0)%nat.
  rewrite b64_decode_loop_skipn. apply b64_decode_loop_acc.
Qed.

Lemma b64_decode_short (e : str) (m : decode_map) (p : DecodingPadding.t) :
  (0 < List.length e <= 4)%nat ->
  decodeBase64_internal e m p = decode_window e m p 0 [].
Proof.
  intros H. unfold decodeBase64_internal. rewrite trips_short by assumption.
  rewrite b64_decode_loop_S. now destruct (decode_window e m p 0 []).
Qed.

Lemma b64_decode_nil (m : decode_map) (p : DecodingPadding.t) :
  decodeBase64_internal [] m p = Ok [].
Proof. reflexivity. Qed.

Lemma ok_fst_eq {A B} (a a' : A) (b : B) : a = a' -> Ok (a, b) = Ok (a', b).
Proof. now intros ->. Qed.

(** *** One step of the character loop *)

Lemma b64_scan_step_data (e : str) (m : decode_map) (p : DecodingPadding.t)
  (i : nat) (st : Z * Z) (j : nat) (c : ascii) (v : Z) :
  nth_error e (i + j) = Some c -> Ascii.eqb c pad = false ->
  (0 <? j)%nat && is_pad (nth_error e (i + j - 1)) = false ->
  lookup m c = Some v ->
  scan_step e m p i st j
  = Ok (JS.or (fst st) (JS.shl v ((3 - Z.of_nat j) * 6)), snd st + 6).
Proof.
  intros Hc Hp Hprev Hv. unfold scan_step.
  assert (Hlen : (List.length e <=? i + j)%nat = false).
  { apply Nat.leb_gt. apply nth_error_Some. now rewrite Hc. }
  rewrite Hlen, Hc, Hprev, Hv. cbn [is_pad orb]. rewrite Hp.
  now destruct p.
Qed.

Lemma b64_scan_step_pad (e : str) (m : decode_map) (p : DecodingPadding.t)
  (i : nat) (st : Z * Z) (j : nat) :
  nth_error e (i + j) = Some pad -> scan_step e m p i st j = Ok st.
Proof.
  intros Hc. unfold scan_step. rewrite Hc. cbn [is_pad].
  replace (Ascii.eqb pad pad) with true by reflexivity.
  rewrite orb_true_r. now destruct p.
Qed.

Lemma b64_scan_step_end (e : str) (m : decode_map) (i : nat) (st : Z * Z)
  (j : nat) :
  nth_error e (i + j) = None ->
  scan_step e m DecodingPadding.Ignore i st j = Ok st.
Proof.
  intros Hc. unfold scan_step.
  apply nth_error_None in Hc. apply Nat.leb_le in Hc. now rewrite Hc.
Qed.

Section Windows.
Variables (al : str) (m : decode_map).
Hypothesis Hag : agrees 64 al m = true.
Variable p : DecodingPadding.t.

Let ok (v : Z) (H : 0 <= v < 64) := agrees_spec 64 al m v Hag H.

Lemma b64_scan_full (v0 v1 v2 v3 : Z) :
  0 <= v0 < 64 -> 0 <= v1 < 64 -> 0 <= v2 < 64 -> 0 <= v3 < 64 ->
  scan [sym al v0; sym al v1; sym al v2; sym al v3] m p 0
  = Ok (v0 * 262144 + v1 * 4096 + v2 * 64 + v3, 24).
Proof.
  intros H0 H1 H2 H3.
  destruct (ok v0 H0) as (_ & P0 & L0). destruct (ok v1 H1) as (_ & P1 & L1).
  destruct (ok v2 H2) as (_ & P2 & L2). destruct (ok v3 H3) as (_ & P3 & L3).
  unfold scan. cbn [seq for_each].
  set (e := [sym al v0; sym al v1; sym al v2; sym al v3]).
  rewrite (b64_scan_step_data e m p 0 _ 0 _ v0 eq_refl P0 eq_refl L0).
  cbn [bind].
  rewrite (b64_scan_step_data e m p 0 _ 1 _ v1 eq_refl P1 P0 L1).
  cbn [bind].
  rewrite (b64_scan_step_data e m p 0 _ 2 _ v2 eq_refl P2 P1 L2).
  cbn [bind].
  rewrite (b64_scan_step_data e m p 0 _ 3 _ v3 eq_refl P3 P2 L3).
  cbn [bind fst snd Z.of_nat Pos.of_succ_nat Pos.succ].
  change ((3 - 0) * 6) with 18. change ((3 - 1) * 6) with 12.
  change ((3 - 2) * 6) with 6. change ((3 - 3) * 6) with 0.
  rewrite (js_place 0 v0 18) by rng.
  rewrite (js_place _ v1 12) by rng.
  rewrite (js_place _ v2 6) by rng.
  rewrite (js_place _ v3 0) by rng.
  apply ok_fst_eq. rng.
Qed.

Lemma b64_scan_three (v0 v1 v2 : Z) (tl : str) :
  0 <= v0 < 64 -> 0 <= v1 < 64 -> 0 <= v2 < 64 -> closes p 1 tl ->
  scan ([sym al v0; sym al v1; sym al v2] ++ tl) m p 0
  = Ok (v0 * 262144 + v1 * 4096 + v2 * 64, 18).
Proof.
  intros H0 H1 H2 Htl.
  destruct (ok v0 H0) as (_ & P0 & L0). destruct (ok v1 H1) as (_ & P1 & L1).
  destruct (ok v2 H2) as (_ & P2 & L2).
  unfold scan. cbn [seq for_each].
  set (e := [sym al v0; sym al v1; sym al v2] ++ tl).
  rewrite (b64_scan_step_data e m p 0 _ 0 _ v0 eq_refl P0 eq_refl L0).
  cbn [bind].
  rewrite (b64_scan_step_data e m p 0 _ 1 _ v1 eq_refl P1 P0 L1).
  cbn [bind].
  rewrite (b64_scan_step_data e m p 0 _ 2 _ v2 eq_refl P2 P1 L2).
  cbn [bind].
  assert (Hlast : forall st, scan_step e m p 0 st 3 = Ok st).
  { intros st. subst e. destruct Htl as [-> | [-> ->]].
    - now apply b64_scan_step_pad.
    - now apply b64_scan_step_end. }
  rewrite Hlast.
  cbn [bind fst snd Z.of_nat Pos.of_succ_nat Pos.succ].
  change ((3 - 0) * 6) with 18. change ((3 - 1) * 6) with 12.
  change ((3 - 2) * 6) with 6.
  rewrite (js_place 0 v0 18) by rng.
  rewrite (js_place _ v1 12) by rng.
  rewrite (js_place _ v2 6) by rng.
  apply ok_fst_eq. rng.
Qed.

Lemma b64_scan_two (v0 v1 : Z) (tl : str) :
  0 <= v0 < 64 -> 0 <= v1 < 64 -> closes p 2 tl ->
  scan ([sym al v0; sym al v1] ++ tl) m p 0
  = Ok (v0 * 262144 + v1 * 4096, 12).
Proof.
  intros H0 H1 Htl.
  destruct (ok v0 H0) as (_ & P0 & L0). destruct (ok v1 H1) as (_ & P1 & L1).
  unfold scan. cbn [seq for_each].
  set (e := [sym al v0; sym al v1] ++ tl).
  rewrite (b64_scan_step_data e m p 0 _ 0 _ v0 eq_refl P0 eq_refl L0).
  cbn [bind].
  rewrite (b64_scan_step_data e m p 0 _ 1 _ v1 eq_refl P1 P0 L1).
  cbn [bind].
  assert (Hlast : forall st j, (j = 2 \/ j = 3)%nat ->
                               scan_step e m p 0 st j = Ok st).
  { intros st j Hj. subst e. destruct Htl as [-> | [-> ->]].
    - apply b64_scan_step_pad. now destruct Hj as [-> | ->].
    - apply b64_scan_step_end. now destruct Hj as [-> | ->]. }
  rewrite (Hlast _ 2%nat) by auto. cbn [bind].
  rewrite (Hlast _ 3%nat) by auto.
  cbn [bind fst snd Z.of_nat Pos.of_succ_nat Pos.succ].
  change ((3 - 0) * 6) with 18. change ((3 - 1) * 6) with 12.
  rewrite (js_place 0 v0 18) by rng.
  rewrite (js_place _ v1 12) by rng.
  apply ok_fst_eq. rng.
Qed.

Lemma b64_extract_3 (chunk : Z) :
  0 <= chunk < 16777216 ->
  extract chunk 24 []
  = [to_uint8 ((chunk / 65536) mod 256); to_uint8 ((chunk / 256) mod 256);
     to_uint8 (chunk mod 256)].
Proof.
  intros Hc. unfold extract. rewrite fold_left_snoc.
  change (Z.to_nat (24 / 8)) with 3%nat. cbn [seq map app Z.of_nat].
  change (16 - 0 * 8) with 16. change (16 - 1 * 8) with 8.
  change (16 - 2 * 8) with 0.
  rewrite !js_byte_field by lia. pow2. now rewrite Z.div_1_r.
Qed.

Lemma b64_extract_2 (chunk : Z) :
  0 <= chunk < 16777216 ->
  extract chunk 18 []
  = [to_uint8 ((chunk / 65536) mod 256); to_uint8 ((chunk / 256) mod 256)].
Proof.
  intros Hc. unfold extract. rewrite fold_left_snoc.
  change (Z.to_nat (18 / 8)) with 2%nat. cbn [seq map app Z.of_nat].
  change (16 - 0 * 8) with 16. change (16 - 1 * 8) with 8.
  rewrite !js_byte_field by lia. pow2. reflexivity.
Qed.

Lemma b64_extract_1 (chunk : Z) :
  0 <= chunk < 16777216 ->
  extract chunk 12 [] = [to_uint8 ((chunk / 65536) mod 256)].
Proof.
  intros Hc. unfold extract. rewrite fold_left_snoc.
  change (Z.to_nat (12 / 8)) with 1%nat. cbn [seq map app Z.of_nat].
  change (16 - 0 * 8) with 16.
  rewrite !js_byte_field by lia. pow2. reflexivity.
Qed.

Lemma b64_check_24 (chunk : Z) : check chunk 24 = Ok tt.
Proof. reflexivity. Qed.

Lemma b64_check_18 (chunk : Z) :
  0 <= chunk < 16777216 ->
  check chunk 18 = if chunk mod 256 =? 0 then Ok tt else Err InvalidPadding.
Proof.
  intros Hc. unfold check.
  change (18 <? 24) with true. change (18 =? 12) with false.
  change (18 =? 18) with true. cbn [bind].
  change 255 with (Z.ones 8). rewrite js_and_ones by lia. pow2.
  now destruct (chunk mod 256 =? 0).
Qed.

Lemma b64_check_12 (chunk : Z) :
  0 <= chunk < 16777216 ->
  check chunk 12
  = if chunk mod 65536 =? 0 then Ok tt else Err InvalidPadding.
Proof.
  intros Hc. unfold check.
  change (12 <? 24) with true. change (12 =? 12) with true. cbn [bind].
  change 65535 with (Z.ones 16). rewrite js_and_ones by lia. pow2.
  now destruct (chunk mod 65536 =? 0).
Qed.

Lemma b64_window_full (pe : EncodingPadding.t) (a b c : byte) :
  decode_window (encode_chunk [a; b; c] al pe 0 []) m p 0 []
  = Ok [a; b; c].
Proof.
  rewrite (b64_encode_chunk_full al m Hag). cbv zeta.
  pose proof (byte_val_range a). pose proof (byte_val_range b).
  pose proof (byte_val_range c).
  set (buf := byte_val a * 65536 + byte_val b * 256 + byte_val c).
  assert (Hb : 0 <= buf < 16777216) by (unfold buf; lia).
  unfold decode_window. rewrite b64_scan_full by apply field_range.
  cbn [bind fst snd].
  replace (field buf 18 * 262144 + field buf 12 * 4096
           + field buf 6 * 64 + field buf 0) with buf
    by (unfold field; rng).
  rewrite b64_check_24. cbn [bind]. rewrite b64_extract_3 by assumption.
  replace ((buf / 65536) mod 256) with (byte_val a) by (unfold buf; rng).
  replace ((buf / 256) mod 256) with (byte_val b) by (unfold buf; rng).
  replace (buf mod 256) with (byte_val c) by (unfold buf; rng).
  now rewrite !to_uint8_byte_val.
Qed.

Lemma closes_pads (pe : EncodingPadding.t) (n : nat) :
  pe = EncodingPadding.Include \/ p = DecodingPadding.Ignore ->
  closes p n (pads pe n).
Proof.
  intros [-> | Hp]; [now left | ].
  destruct pe; [now left | now right].
Qed.

Lemma b64_window_two (pe : EncodingPadding.t) (a b : byte) :
  pe = EncodingPadding.Include \/ p = DecodingPadding.Ignore ->
  decode_window (encode_chunk [a; b] al pe 0 []) m p 0 [] = Ok [a; b].
Proof.
  intros Hpe. rewrite (b64_encode_chunk_two al m Hag). cbv zeta.
  pose proof (byte_val_range a). pose proof (byte_val_range b).
  set (buf := byte_val a * 256 + byte_val b).
  assert (Hb : 0 <= buf < 65536) by (unfold buf; lia).
  unfold decode_window.
  rewrite b64_scan_three;
    [ | apply field_range | apply field_range | apply last_field_range
      | now apply closes_pads].
  cbn [bind fst snd].
  replace (field buf 10 * 262144 + field buf 4 * 4096
           + last_field buf 2 * 64) with (buf * 256)
    by (unfold field, last_field; rng).
  rewrite b64_check_18 by lia.
  replace (buf * 256 mod 256) with 0 by rng. cbn [Z.eqb bind].
  rewrite b64_extract_2 by lia.
  replace ((buf * 256 / 65536) mod 256) with (byte_val a)
    by (unfold buf; rng).
  replace ((buf * 256 / 256) mod 256) with (byte_val b)
    by (unfold buf; rng).
  now rewrite !to_uint8_byte_val.
Qed.

Lemma b64_window_one (pe : EncodingPadding.t) (a : byte) :
  pe = EncodingPadding.Include \/ p = DecodingPadding.Ignore ->
  decode_window (encode_chunk [a] al pe 0 []) m p 0 [] = Ok [a].
Proof.
  intros Hpe. rewrite (b64_encode_chunk_one al m Hag). cbv zeta.
  pose proof (byte_val_range a) as Hb.
  set (buf := byte_val a) in *.
  unfold decode_window.
  rewrite b64_scan_two;
    [ | apply field_range | apply last_field_range
      | now apply closes_pads].
  cbn [bind fst snd].
  replace (field buf 2 * 262144 + last_field buf 4 * 4096)
    with (buf * 65536) by (unfold field, last_field; rng).
  rewrite b64_check_12 by lia.
  replace (buf * 65536 mod 65536) with 0 by rng. cbn [Z.eqb bind].
  rewrite b64_extract_1 by lia.
  replace ((buf * 65536 / 65536) mod 256) with buf by rng.
  unfold buf. now rewrite to_uint8_byte_val.
Qed.

Lemma b64_scan_4 (c0 c1 c2 c3 : ascii) (rest : str) :
  scan (c0 :: c1 :: c2 :: c3 :: rest) m p 0 = scan [c0; c1; c2; c3] m p 0.
Proof.
  unfold scan. apply for_each_ext. intros st j Hj.
  apply in_seq in Hj.
  destruct j as [| [| [| [| j]]]]; [reflexivity .. | lia].
Qed.

Lemma b64_decode_window_4 (c0 c1 c2 c3 : ascii) (rest : str) (r : bytes) :
  decode_window (c0 :: c1 :: c2 :: c3 :: rest) m p 0 r
  = decode_window [c0; c1; c2; c3] m p 0 r.
Proof. unfold decode_window. now rewrite b64_scan_4. Qed.

Theorem b64_decode_encode (pe : EncodingPadding.t) (data : bytes) :
  pe = EncodingPadding.Include \/ p = DecodingPadding.Ignore ->
  decodeBase64_internal (encodeBase64_internal data al pe) m p = Ok data.
Proof.
  intros Hpe. induction data as [| a | a b | a b c rest IH] using list_ind3.
  - reflexivity.
  - pose proof (b64_window_one pe a Hpe) as W.
    rewrite b64_encode_short by (simpl; lia).
    rewrite b64_decode_short; [exact W | ].
    rewrite (b64_encode_chunk_one al m Hag). destruct pe; simpl; lia.
  - pose proof (b64_window_two pe a b Hpe) as W.
    rewrite b64_encode_short by (simpl; lia).
    rewrite b64_decode_short; [exact W | ].
    rewrite (b64_encode_chunk_two al m Hag). destruct pe; simpl; lia.
  - pose proof (b64_window_full pe a b c) as W.
    rewrite b64_encode_cons3. rewrite (b64_encode_chunk_full al m Hag) in *.
    cbv zeta in *. cbn [app].
    rewrite b64_decode_cons4, b64_decode_window_4, W. cbn [bind].
    rewrite IH. reflexivity.
Qed.
End Windows.

End Base64Facts.

(** ** Base32: the encoder and the decoder, chunk by chunk *)

(** Closed integer arithmetic, evaluated. *)
Ltac znorm :=
  repeat match goal with
         | |- context [Z.sub (Zpos ?a) (Zpos ?b)] =>
             let v := eval vm_compute in (Z.sub (Zpos a) (Zpos b)) in
             change (Z.sub (Zpos a) (Zpos b)) with v
         | |- context [Z.add (Zpos ?a) (Zpos ?b)] =>
             let v := eval vm_compute in (Z.add (Zpos a) (Zpos b)) in
             change (Z.add (Zpos a) (Zpos b)) with v
         | |- context [Z.add 0 (Zpos ?b)] =>
             change (Z.add 0 (Zpos b)) with (Zpos b)
         | |- context [Z.mul (Zpos ?a) (Zpos ?b)] =>
             let v := eval vm_compute in (Z.mul (Zpos a) (Zpos b)) in
             change (Z.mul (Zpos a) (Zpos b)) with v
         | |- context [Z.mul 0 (Zpos ?b)] =>
             change (Z.mul 0 (Zpos b)) with 0
         end.

Lemma z_pack (buf v : Z) :
  0 <= v < 256 -> Z.lor (Z.shiftl buf 8) v = buf * 256 + v.
Proof.
  intros Hv. rewrite Z.shiftl_mul_pow2 by lia.
  apply (lor_disjoint _ v 8); [lia | rng | ]. apply Z_mod_mult.
Qed.

Lemma z_field (buf s : Z) :
  0 <= s -> Z.land (Z.shiftr buf s) 31 = field5 buf s.
Proof.
  intros Hs. rewrite Z.shiftr_div_pow2 by lia.
  change 31 with (Z.ones 5). now rewrite Z.land_ones by lia.
Qed.

Lemma z_place (chunk v s : Z) :
  0 <= s -> 0 <= v < 32 -> chunk mod 2 ^ (s + 5) = 0 ->
  Z.lor chunk (Z.shiftl v s) = chunk + v * 2 ^ s.
Proof.
  intros Hs Hv Hm. rewrite Z.shiftl_mul_pow2 by lia.
  assert (0 < 2 ^ s) by (apply Z.pow_pos_nonneg; lia).
  apply (lor_disjoint _ _ (s + 5)); [lia | | assumption].
  rewrite Z.pow_add_r by lia. change (2 ^ 5) with 32. nia.
Qed.

Lemma z_byte_field (chunk s : Z) :
  0 <= s -> Z.land (Z.shiftr chunk s) 255 = (chunk / 2 ^ s) mod 256.
Proof.
  intros Hs. rewrite Z.shiftr_div_pow2 by lia.
  change 255 with (Z.ones 8). now rewrite Z.land_ones by lia.
Qed.

Lemma field5_range (buf s : Z) : 0 <= field5 buf s < 32.
Proof. unfold field5. apply Z.mod_pos_bound. lia. Qed.

Lemma list_ind5 {A} (P : list A -> Prop) :
  P [] -> (forall a, P [a]) -> (forall a b, P [a; b]) ->
  (forall a b c, P [a; b; c]) -> (forall a b c d, P [a; b; c; d]) ->
  (forall a b c d e l, P l -> P (a :: b :: c :: d :: e :: l)) ->
  forall l, P l.
Proof.
  intros H0 H1 H2 H3 H4 H5 l.
  enough (P l /\ (forall a, P (a :: l)) /\ (forall a b, P (a :: b :: l))
          /\ (forall a b c, P (a :: b :: c :: l))
          /\ (forall a b c d, P (a :: b :: c :: d :: l))) by tauto.
  induction l as [| x l (IH0 & IH1 & IH2 & IH3 & IH4)]; auto 6.
Qed.

Module Base32Facts.
Import Base32.
Import Base64Facts.

Lemma b32_read_loop_skipn (data : bytes) (d i : nat) (js : list nat)
  (st : Z * Z) :
  read_loop data (d + i) js st = read_loop (skipn d data) i js st.
Proof.
  revert st. induction js as [| j js IH]; intros st; simpl; [reflexivity | ].
  rewrite nth_error_skipn, Nat.add_assoc.
  destruct (nth_error data (d + i + j)); [apply IH | reflexivity].
Qed.

Lemma b32_encode_chunk_skipn (data : bytes) (al : str) (p : EncodingPadding.t)
  (d i : nat) (r : str) :
  encode_chunk data al p (d + i) r = encode_chunk (skipn d data) al p i r.
Proof. unfold encode_chunk. now rewrite b32_read_loop_skipn. Qed.

Lemma b32_encode_loop_S (data : bytes) (al : str) (p : EncodingPadding.t)
  (n i : nat) (r : str) :
  encode_loop data al p (S n) i r
  = encode_loop data al p n (i + 5) (encode_chunk data al p i r).
Proof. reflexivity. Qed.

Lemma b32_encode_loop_skipn (data : bytes) (al : str) (p : EncodingPadding.t)
  (d n i : nat) (r : str) :
  encode_loop data al p n (d + i) r = encode_loop (skipn d data) al p n i r.
Proof.
  revert i r. induction n as [| n IH]; intros i r; [reflexivity | ].
  rewrite !b32_encode_loop_S, <- Nat.add_assoc, IH.
  now rewrite b32_encode_chunk_skipn.
Qed.

Lemma b32_emit_acc (al : str) (p : EncodingPadding.t) (buf : Z) (r : str)
  (s : Z) (j : nat) :
  emit al p buf (r, s) j
  = (r ++ fst (emit al p buf ([], s) j), snd (emit al p buf ([], s) j)).
Proof.
  unfold emit. destruct (5 <=? s); [reflexivity | ].
  destruct (0 <? s); [reflexivity | ].
  destruct p; simpl; [reflexivity | now rewrite app_nil_r].
Qed.

Lemma b32_emit_loop_acc (al : str) (p : EncodingPadding.t) (buf : Z)
  (js : list nat) (r : str) (s : Z) :
  fst (fold_left (emit al p buf) js (r, s))
  = r ++ fst (fold_left (emit al p buf) js ([], s)).
Proof.
  revert r s. induction js as [| j js IH]; intros r s; cbn [fold_left].
  - simpl. now rewrite app_nil_r.
  - rewrite b32_emit_acc. rewrite IH.
    destruct (emit al p buf ([], s) j) as [piece s'] eqn:E. simpl.
    rewrite (IH piece). now rewrite app_assoc.
Qed.

Lemma b32_encode_chunk_acc (data : bytes) (al : str) (p : EncodingPadding.t)
  (i : nat) (r : str) :
  encode_chunk data al p i r = r ++ encode_chunk data al p i [].
Proof.
  unfold encode_chunk. destruct (align (read_loop data i (seq 0 5) (0, 0))).
  apply b32_emit_loop_acc.
Qed.

Lemma b32_encode_loop_acc (data : bytes) (al : str) (p : EncodingPadding.t)
  (n i : nat) (r : str) :
  encode_loop data al p n i r = r ++ encode_loop data al p n i [].
Proof.
  revert i r. induction n as [| n IH]; intros i r.
  - simpl. now rewrite app_nil_r.
  - rewrite !b32_encode_loop_S.
    rewrite IH, (IH _ (encode_chunk data al p i [])).
    rewrite (b32_encode_chunk_acc data al p i r). now rewrite app_assoc.
Qed.

Lemma b32_read_loop_5 (a b c d e : byte) (rest : bytes) :
  read_loop (a :: b :: c :: d :: e :: rest) 0 (seq 0 5) (0, 0)
  = ((((byte_val a * 256 + byte_val b) * 256 + byte_val c) * 256
      + byte_val d) * 256 + byte_val e, 40).
Proof.
  cbn [read_loop seq nth_error Nat.add fst snd].
  change (Z.shiftl 0 8) with 0. rewrite Z.lor_0_l.
  rewrite !z_pack by apply byte_val_range. reflexivity.
Qed.

Lemma b32_read_loop_4 (a b c d : byte) :
  read_loop [a; b; c; d] 0 (seq 0 5) (0, 0)
  = (((byte_val a * 256 + byte_val b) * 256 + byte_val c) * 256
     + byte_val d, 32).
Proof.
  cbn [read_loop seq nth_error Nat.add fst snd].
  change (Z.shiftl 0 8) with 0. rewrite Z.lor_0_l.
  rewrite !z_pack by apply byte_val_range. reflexivity.
Qed.

Lemma b32_read_loop_3 (a b c : byte) :
  read_loop [a; b; c] 0 (seq 0 5) (0, 0)
  = ((byte_val a * 256 + byte_val b) * 256 + byte_val c, 24).
Proof.
  cbn [read_loop seq nth_error Nat.add fst snd].
  change (Z.shiftl 0 8) with 0. rewrite Z.lor_0_l.
  rewrite !z_pack by apply byte_val_range. reflexivity.
Qed.

Lemma b32_read_loop_2 (a b : byte) :
  read_loop [a; b] 0 (seq 0 5) (0, 0) = (byte_val a * 256 + byte_val b, 16).
Proof.
  cbn [read_loop seq nth_error Nat.add fst snd].
  change (Z.shiftl 0 8) with 0. rewrite Z.lor_0_l.
  rewrite !z_pack by apply byte_val_range. reflexivity.
Qed.

Lemma b32_read_loop_1 (a : byte) :
  read_loop [a] 0 (seq 0 5) (0, 0) = (byte_val a, 8).
Proof.
  cbn [read_loop seq nth_error Nat.add fst snd].
  change (Z.shiftl 0 8) with 0. now rewrite Z.lor_0_l.
Qed.

Lemma b32_encode_chunk_5 (a b c d e : byte) (rest : bytes) (al : str)
  (p : EncodingPadding.t) (r : str) :
  encode_chunk (a :: b :: c :: d :: e :: rest) al p 0 r
  = encode_chunk [a; b; c; d; e] al p 0 r.
Proof.
  unfold encode_chunk.
  now rewrite (b32_read_loop_5 a b c d e rest), (b32_read_loop_5 a b c d e []).
Qed.

Lemma b32_encode_cons5 (a b c d e : byte) (rest : bytes) (al : str)
  (p : EncodingPadding.t) :
  encodeBase32_internal (a :: b :: c :: d :: e :: rest) al p
  = encode_chunk [a; b; c; d; e] al p 0 []
    ++ encodeBase32_internal rest al p.
Proof.
  unfold encodeBase32_internal.
  change (List.length (a :: b :: c :: d :: e :: rest))
    with (5 + List.length rest)%nat.
  rewrite trips_add by lia.
  rewrite b32_encode_loop_S, b32_encode_chunk_5.
  change (0 + 5)%nat with (5 + 0)%nat.
  rewrite b32_encode_loop_skipn.
  apply b32_encode_loop_acc.
Qed.

Lemma b32_encode_short (data : bytes) (al : str) (p : EncodingPadding.t) :
  (0 < List.length data <= 5)%nat ->
  encodeBase32_internal data al p = encode_chunk data al p 0 [].
Proof.
  intros H. unfold encodeBase32_internal. rewrite trips_short by assumption.
  reflexivity.
Qed.

Lemma b32_align_40 (buf : Z) : align (buf, 40) = (buf, 40).
Proof. reflexivity. Qed.
Lemma b32_align_32 (buf : Z) : align (buf, 32) = (buf * 8, 35).
Proof.
  unfold align. cbn [Z.rem Z.quotrem Z.eqb negb fst snd].
  now rewrite Z.shiftl_mul_pow2.
Qed.
Lemma b32_align_24 (buf : Z) : align (buf, 24) = (buf * 2, 25).
Proof.
  unfold align. cbn [Z.rem Z.quotrem Z.eqb negb fst snd].
  now rewrite Z.shiftl_mul_pow2.
Qed.
Lemma b32_align_16 (buf : Z) : align (buf, 16) = (buf * 16, 20).
Proof.
  unfold align. cbn [Z.rem Z.quotrem Z.eqb negb fst snd].
  now rewrite Z.shiftl_mul_pow2.
Qed.
Lemma b32_align_8 (buf : Z) : align (buf, 8) = (buf * 4, 10).
Proof.
  unfold align. cbn [Z.rem Z.quotrem Z.eqb negb fst snd].
  now rewrite Z.shiftl_mul_pow2.
Qed.

Section Emit.
Variables (al : str) (m : decode_map).
Hypothesis Hag : agrees 32 al m = true.

Lemma b32_emit_data (p : EncodingPadding.t) (buf s : Z) (r : str) (j : nat) :
  5 <= s ->
  emit al p buf (r, s) j = (r ++ [sym al (field5 buf (s - 5))], s - 5).
Proof.
  intros Hs. unfold emit.
  destruct (Z.leb_spec 5 s) as [_ | ?]; [ | lia].
  rewrite z_field by lia.
  destruct (agrees_spec 32 al m (field5 buf (s - 5)) Hag) as (-> & _).
  - apply field5_range.
  - reflexivity.
Qed.

Lemma b32_emit_pad (p : EncodingPadding.t) (buf : Z) (r : str) (j : nat) :
  emit al p buf (r, 0) j
  = (match p with
     | EncodingPadding.Include => r ++ [pad]
     | EncodingPadding.None => r
     end, 0).
Proof. unfold emit. cbn [Z.leb Z.ltb Z.compare]. now destruct p. Qed.

Ltac emit_all p :=
  cbn [seq fold_left];
  repeat (rewrite b32_emit_data by lia; znorm);
  rewrite ?b32_emit_pad; destruct p; reflexivity.

Lemma b32_encode_chunk_five (p : EncodingPadding.t) (a b c d e : byte) :
  let buf := (((byte_val a * 256 + byte_val b) * 256 + byte_val c) * 256
              + byte_val d) * 256 + byte_val e in
  encode_chunk [a; b; c; d; e] al p 0 []
  = map (sym al)
      [field5 buf 35; field5 buf 30; field5 buf 25; field5 buf 20;
       field5 buf 15; field5 buf 10; field5 buf 5; field5 buf 0].
Proof.
  intros buf. unfold encode_chunk. rewrite b32_read_loop_5, b32_align_40.
  fold buf. emit_all p.
Qed.

Lemma b32_encode_chunk_four (p : EncodingPadding.t) (a b c d : byte) :
  let buf := (((byte_val a * 256 + byte_val b) * 256 + byte_val c) * 256
              + byte_val d) * 8 in
  encode_chunk [a; b; c; d] al p 0 []
  = map (sym al)
      [field5 buf 30; field5 buf 25; field5 buf 20;
       field5 buf 15; field5 buf 10; field5 buf 5; field5 buf 0]
    ++ pads p 1.
Proof.
  intros buf. unfold encode_chunk. rewrite b32_read_loop_4, b32_align_32.
  fold buf. emit_all p.
Qed.

Lemma b32_encode_chunk_three (p : EncodingPadding.t) (a b c : byte) :
  let buf := ((byte_val a * 256 + byte_val b) * 256 + byte_val c) * 2 in
  encode_chunk [a; b; c] al p 0 []
  = map (sym al)
      [field5 buf 20; field5 buf 15; field5 buf 10; field5 buf 5;
       field5 buf 0]
    ++ pads p 3.
Proof.
  intros buf. unfold encode_chunk. rewrite b32_read_loop_3, b32_align_24.
  fold buf. emit_all p.
Qed.

Lemma b32_encode_chunk_two (p : EncodingPadding.t) (a b : byte) :
  let buf := (byte_val a * 256 + byte_val b) * 16 in
  encode_chunk [a; b] al p 0 []
  = map (sym al)
      [field5 buf 15; field5 buf 10; field5 buf 5; field5 buf 0]
    ++ pads p 4.
Proof.
  intros buf. unfold encode_chunk. rewrite b32_read_loop_2, b32_align_16.
  fold buf. emit_all p.
Qed.

Lemma b32_encode_chunk_one (p : EncodingPadding.t) (a : byte) :
  let buf := byte_val a * 4 in
  encode_chunk [a] al p 0 []
  = map (sym al) [field5 buf 5; field5 buf 0] ++ pads p 6.
Proof.
  intros buf. unfold encode_chunk. rewrite b32_read_loop_1, b32_align_8.
  fold buf. emit_all p.
Qed.
End Emit.

(** *** The decoder, window by window *)

Lemma b32_scan_step_skipn (e : str) (m : decode_map) (p : DecodingPadding.t)
  (d i : nat) (st : Z * Z) (j : nat) :
  scan_step e m p (d + i) st j = scan_step (skipn d e) m p i st j.
Proof.
  unfold scan_step.
  rewrite Base64Facts.leb_skipn, !nth_error_skipn, !Nat.add_assoc.
  destruct j as [| j]; [reflexivity | ].
  replace (d + i + S j - 1)%nat with (d + (i + S j - 1))%nat by lia.
  reflexivity.
Qed.

Lemma b32_scan_skipn (e : str) (m : decode_map) (p : DecodingPadding.t)
  (d i : nat) :
  scan e m p (d + i) = scan (skipn d e) m p i.
Proof.
  unfold scan. apply Base64Facts.for_each_ext. intros s j _.
  apply b32_scan_step_skipn.
Qed.

Lemma b32_decode_window_skipn (e : str) (m : decode_map) (p : DecodingPadding.t)
  (d i : nat) (r : bytes) :
  decode_window e m p (d + i) r = decode_window (skipn d e) m p i r.
Proof. unfold decode_window. now rewrite b32_scan_skipn. Qed.

Lemma b32_decode_loop_S (e : str) (m : decode_map) (p : DecodingPadding.t)
  (n i : nat) (r : bytes) :
  decode_loop e m p (S n) i r
  = (r' <- decode_window e m p i r ;; decode_loop e m p n (i + 8) r').
Proof. reflexivity. Qed.

Lemma b32_decode_loop_skipn (e : str) (m : decode_map) (p : DecodingPadding.t)
  (d n i : nat) (r : bytes) :
  decode_loop e m p n (d + i) r = decode_loop (skipn d e) m p n i r.
Proof.
  revert i r. induction n as [| n IH]; intros i r; [reflexivity | ].
  rewrite !b32_decode_loop_S, b32_decode_window_skipn.
  destruct (decode_window (skipn d e) m p i r); [ | reflexivity].
  cbn [bind]. rewrite <- Nat.add_assoc. apply IH.
Qed.

Lemma b32_extract_acc (chunk bits : Z) (r : bytes) :
  extract chunk bits r = r ++ extract chunk bits [].
Proof. unfold extract. now rewrite !Base64Facts.fold_left_snoc. Qed.

Lemma b32_decode_window_acc (e : str) (m : decode_map) (p : DecodingPadding.t)
  (i : nat) (r : bytes) :
  decode_window e m p i r
  = (out <- decode_window e m p i [] ;; Ok (r ++ out)).
Proof.
  unfold decode_window. destruct (scan e m p i) as [st | err]; [ | reflexivity].
  cbn [bind]. destruct (check (fst st) (snd st)); [ | reflexivity].
  cbn [bind]. now rewrite b32_extract_acc.
Qed.

Lemma b32_decode_loop_acc (e : str) (m : decode_map) (p : DecodingPadding.t)
  (n i : nat) (r : bytes) :
  decode_loop e m p n i r
  = (out <- decode_loop e m p n i [] ;; Ok (r ++ out)).
Proof.
  revert i r. induction n as [| n IH]; intros i r.
  - cbn [decode_loop bind]. now rewrite app_nil_r.
  - rewrite !b32_decode_loop_S. rewrite (b32_decode_window_acc e m p i r).
    destruct (decode_window e m p i []) as [w | err]; [ | reflexivity].
    cbn [bind]. rewrite (IH _ (r ++ w)), (IH _ ([] ++ w)).
    destruct (decode_loop e m p n (i + 8) []); [ | reflexivity].
    cbn [bind app]. now rewrite app_assoc.
Qed.

Lemma b32_decode_cons8 (c0 c1 c2 c3 c4 c5 c6 c7 : ascii) (rest : str)
  (m : decode_map) (p : DecodingPadding.t) :
  let e := c0 :: c1 :: c2 :: c3 :: c4 :: c5 :: c6 :: c7 :: rest in
  decodeBase32_internal e m p
  = (w <- decode_window e m p 0 [] ;;
     out <- decodeBase32_internal rest m p ;;
     Ok (w ++ out)).
Proof.
  intros e. unfold decodeBase32_internal.
  change (List.length e) with (8 + List.length rest)%nat.
  rewrite trips_add by lia. rewrite b32_decode_loop_S.
  destruct (decode_window _ m p 0 []) as [w | err]; [ | reflexivity].
  cbn [bind]. change (0 + 8)%nat with (8 + 0)%nat.
  rewrite b32_decode_loop_skipn. apply b32_decode_loop_acc.
Qed.

Lemma b32_decode_short (e : str) (m : decode_map) (p : DecodingPadding.t) :
  (0 < List.length e <= 8)%nat ->
  decodeBase32_internal e m p = decode_window e m p 0 [].
Proof.
  intros H. unfold decodeBase32_internal. rewrite trips_short by assumption.
  rewrite b32_decode_loop_S. now destruct (decode_window e m p 0 []).
Qed.

(** *** One step of the character loop *)

Lemma b32_scan_step_data (e : str) (m : decode_map) (p : DecodingPadding.t)
  (i : nat) (st : Z * Z) (j : nat) (c : ascii) (v : Z) :
  nth_error e (i + j) = Some c -> Ascii.eqb c pad = false ->
  (0 <? j)%nat && is_pad (nth_error e (i + j - 1)) = false ->
  lookup m c = Some v ->
  scan_step e m p i st j
  = Ok (Z.lor (fst st) (Z.shiftl v ((7 - Z.of_nat j) * 5)), snd st + 5).
Proof.
  intros Hc Hp Hprev Hv. unfold scan_step.
  assert (Hlen : (List.length e <=? i + j)%nat = false).
  { apply Nat.leb_gt. apply nth_error_Some. now rewrite Hc. }
  rewrite Hlen, Hc, Hprev, Hv. cbn [is_pad orb]. rewrite Hp.
  now destruct p.
Qed.

Lemma b32_scan_step_pad (e : str) (m : decode_map) (p : DecodingPadding.t)
  (i : nat) (st : Z * Z) (j : nat) :
  nth_error e (i + j) = Some pad -> scan_step e m p i st j = Ok st.
Proof.
  intros Hc. unfold scan_step. rewrite Hc. cbn [is_pad].
  replace (Ascii.eqb pad pad) with true by reflexivity.
  rewrite orb_true_r. now destruct p.
Qed.

Lemma b32_scan_step_end (e : str) (m : decode_map) (i : nat) (st : Z * Z)
  (j : nat) :
  nth_error e (i + j) = None ->
  scan_step e m DecodingPadding.Ignore i st j = Ok st.
Proof.
  intros Hc. unfold scan_step.
  apply nth_error_None in Hc. apply Nat.leb_le in Hc. now rewrite Hc.
Qed.

Lemma b32_scan_step_skip (p : DecodingPadding.t) (m : decode_map) (e d tl : str)
  (n : nat) (st : Z * Z) (j : nat) :
  closes p n tl -> e = d ++ tl ->
  (List.length d <= j < List.length d + n)%nat ->
  scan_step e m p 0 st j = Ok st.
Proof.
  intros [-> | [-> ->]] -> Hj.
  - apply b32_scan_step_pad. cbn [Nat.add].
    rewrite nth_error_app2 by lia.
    rewrite nth_error_repeat by lia. reflexivity.
  - apply b32_scan_step_end. cbn [Nat.add]. apply nth_error_None.
    rewrite app_nil_r. lia.
Qed.

Section Windows.
Variables (al : str) (m : decode_map).
Hypothesis Hag : agrees 32 al m = true.
Variable p : DecodingPadding.t.

Lemma sym_ok (v : Z) :
  0 <= v < 32 ->
  Ascii.eqb (sym al v) pad = false /\ lookup m (sym al v) = Some v.
Proof. intros H. now apply (agrees_spec 32 al m v Hag). Qed.

Ltac facts H :=
  let P := fresh "P" in let L := fresh "L" in
  destruct (sym_ok _ H) as [P L].

Ltac data_steps e :=
  repeat (erewrite (b32_scan_step_data e m p 0);
          [ | reflexivity | eassumption
            | first [reflexivity | eassumption] | eassumption ];
          cbn [bind]).

Ltac skip_steps e tl Htl :=
  repeat (erewrite (b32_scan_step_skip p m e _ tl _ _ _ Htl eq_refl)
            by (cbn [List.length map]; lia);
          cbn [bind]).

Ltac places :=
  cbn [fst snd Z.of_nat Pos.of_succ_nat Pos.succ]; znorm;
  repeat match goal with
         | |- context [Z.lor ?c (Z.shiftl ?v ?s)] =>
             rewrite (z_place c v s) by rng
         end;
  apply Base64Facts.ok_fst_eq; rng.

Lemma b32_scan_eight (v0 v1 v2 v3 v4 v5 v6 v7 : Z) :
  0 <= v0 < 32 -> 0 <= v1 < 32 -> 0 <= v2 < 32 -> 0 <= v3 < 32 ->
  0 <= v4 < 32 -> 0 <= v5 < 32 -> 0 <= v6 < 32 -> 0 <= v7 < 32 ->
  scan (map (sym al) [v0; v1; v2; v3; v4; v5; v6; v7]) m p 0
  = Ok (v0 * 2 ^ 35 + v1 * 2 ^ 30 + v2 * 2 ^ 25 + v3 * 2 ^ 20
        + v4 * 2 ^ 15 + v5 * 2 ^ 10 + v6 * 2 ^ 5 + v7, 40).
Proof.
  intros H0 H1 H2 H3 H4 H5 H6 H7.
  facts H0. facts H1. facts H2. facts H3.
  facts H4. facts H5. facts H6. facts H7.
  unfold scan. cbn [seq for_each].
  set (e := map (sym al) [v0; v1; v2; v3; v4; v5; v6; v7]).
  data_steps e. places.
Qed.

Lemma b32_scan_seven (v0 v1 v2 v3 v4 v5 v6 : Z) (tl : str) :
  0 <= v0 < 32 -> 0 <= v1 < 32 -> 0 <= v2 < 32 -> 0 <= v3 < 32 ->
  0 <= v4 < 32 -> 0 <= v5 < 32 -> 0 <= v6 < 32 -> closes p 1 tl ->
  scan (map (sym al) [v0; v1; v2; v3; v4; v5; v6] ++ tl) m p 0
  = Ok (v0 * 2 ^ 35 + v1 * 2 ^ 30 + v2 * 2 ^ 25 + v3 * 2 ^ 20
        + v4 * 2 ^ 15 + v5 * 2 ^ 10 + v6 * 2 ^ 5, 35).
Proof.
  intros H0 H1 H2 H3 H4 H5 H6 Htl.
  facts H0. facts H1. facts H2. facts H3.
  facts H4. facts H5. facts H6.
  unfold scan. cbn [seq for_each].
  set (e := map (sym al) [v0; v1; v2; v3; v4; v5; v6] ++ tl).
  data_steps e. skip_steps e tl Htl. places.
Qed.

Lemma b32_scan_five (v0 v1 v2 v3 v4 : Z) (tl : str) :
  0 <= v0 < 32 -> 0 <= v1 < 32 -> 0 <= v2 < 32 -> 0 <= v3 < 32 ->
  0 <= v4 < 32 -> closes p 3 tl ->
  scan (map (sym al) [v0; v1; v2; v3; v4] ++ tl) m p 0
  = Ok (v0 * 2 ^ 35 + v1 * 2 ^ 30 + v2 * 2 ^ 25 + v3 * 2 ^ 20
        + v4 * 2 ^ 15, 25).
Proof.
  intros H0 H1 H2 H3 H4 Htl.
  facts H0. facts H1. facts H2. facts H3. facts H4.
  unfold scan. cbn [seq for_each].
  set (e := map (sym al) [v0; v1; v2; v3; v4] ++ tl).
  data_steps e. skip_steps e tl Htl. places.
Qed.

Lemma b32_scan_four (v0 v1 v2 v3 : Z) (tl : str) :
  0 <= v0 < 32 -> 0 <= v1 < 32 -> 0 <= v2 < 32 -> 0 <= v3 < 32 ->
  closes p 4 tl ->
  scan (map (sym al) [v0; v1; v2; v3] ++ tl) m p 0
  = Ok (v0 * 2 ^ 35 + v1 * 2 ^ 30 + v2 * 2 ^ 25 + v3 * 2 ^ 20, 20).
Proof.
  intros H0 H1 H2 H3 Htl.
  facts H0. facts H1. facts H2. facts H3.
  unfold scan. cbn [seq for_each].
  set (e := map (sym al) [v0; v1; v2; v3] ++ tl).
  data_steps e. skip_steps e tl Htl. places.
Qed.

Lemma b32_scan_two (v0 v1 : Z) (tl : str) :
  0 <= v0 < 32 -> 0 <= v1 < 32 -> closes p 6 tl ->
  scan (map (sym al) [v0; v1] ++ tl) m p 0
  = Ok (v0 * 2 ^ 35 + v1 * 2 ^ 30, 10).
Proof.
  intros H0 H1 Htl.
  facts H0. facts H1.
  unfold scan. cbn [seq for_each].
  set (e := map (sym al) [v0; v1] ++ tl).
  data_steps e. skip_steps e tl Htl. places.
Qed.

Lemma b32_check_40 (chunk : Z) : check chunk 40 = Ok tt.
Proof. reflexivity. Qed.

Lemma b32_check_short (chunk bits w : Z) :
  (bits = 10 /\ w = 32) \/ (bits = 20 /\ w = 24)
  \/ (bits = 25 /\ w = 16) \/ (bits = 35 /\ w = 8) ->
  check chunk bits
  = if chunk mod 2 ^ w =? 0 then Ok tt else Err InvalidPadding.
Proof.
  intros [[-> ->] | [[-> ->] | [[-> ->] | [-> ->]]]];
    unfold check; cbn [Z.ltb Z.eqb Z.compare Pos.compare Pos.compare_cont
                         Pos.eqb bind];
    rewrite <- Z.land_ones by lia;
    match goal with
    | |- context [Z.land chunk ?k] =>
        match goal with
        | |- context [Z.ones ?n] => change (Z.ones n) with k
        end
    end;
    now destruct (Z.land chunk _ =? 0).
Qed.

Lemma b32_extract_bytes (chunk bits : Z) :
  0 <= bits <= 40 ->
  extract chunk bits []
  = map (fun k => to_uint8 ((chunk / 2 ^ (32 - Z.of_nat k * 8)) mod 256))
      (seq 0 (Z.to_nat (bits / 8))).
Proof.
  intros Hb. unfold extract. rewrite Base64Facts.fold_left_snoc. cbn [app].
  apply map_ext_in. intros k Hk. apply in_seq in Hk.
  assert (bits / 8 <= 5) by (apply Z.div_le_upper_bound; lia).
  rewrite z_byte_field by lia. reflexivity.
Qed.

Ltac window_tac scan_lemma Hpe :=
  cbv zeta; unfold decode_window;
  rewrite scan_lemma by first [apply field5_range | now apply closes_pads];
  cbn [bind fst snd].

Lemma b32_window_five (pe : EncodingPadding.t) (a b c d e : byte) :
  decode_window (encode_chunk [a; b; c; d; e] al pe 0 []) m p 0 []
  = Ok [a; b; c; d; e].
Proof.
  rewrite (b32_encode_chunk_five al m Hag).
  pose proof (byte_val_range a). pose proof (byte_val_range b).
  pose proof (byte_val_range c). pose proof (byte_val_range d).
  pose proof (byte_val_range e).
  cbv zeta. unfold decode_window.
  rewrite b32_scan_eight by apply field5_range. cbn [bind fst snd].
  rewrite b32_check_40. cbn [bind]. rewrite b32_extract_bytes by lia.
  change (Z.to_nat (40 / 8)) with 5%nat.
  cbn [seq map Z.of_nat Pos.of_succ_nat Pos.succ]. znorm.
  set (buf := (((byte_val a * 256 + byte_val b) * 256 + byte_val c) * 256
              + byte_val d) * 256 + byte_val e).
  assert (Hb : 0 <= buf < 2 ^ 40) by (unfold buf; rng).
  match goal with
  | |- context [to_uint8 ((?c / _) mod 256)] =>
      replace c with buf by (unfold field5; rng)
  end.
  repeat f_equal; rewrite <- to_uint8_byte_val; f_equal; unfold buf; rng.
Qed.

Lemma b32_window_four (pe : EncodingPadding.t) (a b c d : byte) :
  pe = EncodingPadding.Include \/ p = DecodingPadding.Ignore ->
  decode_window (encode_chunk [a; b; c; d] al pe 0 []) m p 0 []
  = Ok [a; b; c; d].
Proof.
  intros Hpe. rewrite (b32_encode_chunk_four al m Hag).
  pose proof (byte_val_range a). pose proof (byte_val_range b).
  pose proof (byte_val_range c). pose proof (byte_val_range d).
  cbv zeta. unfold decode_window.
  rewrite b32_scan_seven by first [apply field5_range | now apply closes_pads].
  cbn [bind fst snd].
  set (buf := ((byte_val a * 256 + byte_val b) * 256 + byte_val c) * 256
              + byte_val d).
  assert (Hb : 0 <= buf < 2 ^ 32) by (unfold buf; rng).
  match goal with
  | |- context [check ?c _] =>
      replace c with (buf * 2 ^ 8) by (unfold field5; rng)
  end.
  rewrite (b32_check_short _ 35 8) by tauto.
  replace ((buf * 2 ^ 8) mod 2 ^ 8) with 0 by rng.
  cbn [Z.eqb bind]. rewrite b32_extract_bytes by lia.
  change (Z.to_nat (35 / 8)) with 4%nat.
  cbn [seq map Z.of_nat Pos.of_succ_nat Pos.succ]. znorm.
  repeat f_equal; rewrite <- to_uint8_byte_val; f_equal; unfold buf; rng.
Qed.

Lemma b32_window_three (pe : EncodingPadding.t) (a b c : byte) :
  pe = EncodingPadding.Include \/ p = DecodingPadding.Ignore ->
  decode_window (encode_chunk [a; b; c] al pe 0 []) m p 0 [] = Ok [a; b; c].
Proof.
  intros Hpe. rewrite (b32_encode_chunk_three al m Hag).
  pose proof (byte_val_range a). pose proof (byte_val_range b).
  pose proof (byte_val_range c).
  cbv zeta. unfold decode_window.
  rewrite b32_scan_five by first [apply field5_range | now apply closes_pads].
  cbn [bind fst snd].
  set (buf := (byte_val a * 256 + byte_val b) * 256 + byte_val c).
  assert (Hb : 0 <= buf < 2 ^ 24) by (unfold buf; rng).
  match goal with
  | |- context [check ?c _] =>
      replace c with (buf * 2 ^ 16) by (unfold field5; rng)
  end.
  rewrite (b32_check_short _ 25 16) by tauto.
  replace ((buf * 2 ^ 16) mod 2 ^ 16) with 0 by rng.
  cbn [Z.eqb bind]. rewrite b32_extract_bytes by lia.
  change (Z.to_nat (25 / 8)) with 3%nat.
  cbn [seq map Z.of_nat Pos.of_succ_nat Pos.succ]. znorm.
  repeat f_equal; rewrite <- to_uint8_byte_val; f_equal; unfold buf; rng.
Qed.

Lemma b32_window_two (pe : EncodingPadding.t) (a b : byte) :
  pe = EncodingPadding.Include \/ p = DecodingPadding.Ignore ->
  decode_window (encode_chunk [a; b] al pe 0 []) m p 0 [] = Ok [a; b].
Proof.
  intros Hpe. rewrite (b32_encode_chunk_two al m Hag).
  pose proof (byte_val_range a). pose proof (byte_val_range b).
  cbv zeta. unfold decode_window.
  rewrite b32_scan_four by first [apply field5_range | now apply closes_pads].
  cbn [bind fst snd].
  set (buf := byte_val a * 256 + byte_val b).
  assert (Hb : 0 <= buf < 2 ^ 16) by (unfold buf; rng).
  match goal with
  | |- context [check ?c _] =>
      replace c with (buf * 2 ^ 24) by (unfold field5; rng)
  end.
  rewrite (b32_check_short _ 20 24) by tauto.
  replace ((buf * 2 ^ 24) mod 2 ^ 24) with 0 by rng.
  cbn [Z.eqb bind]. rewrite b32_extract_bytes by lia.
  change (Z.to_nat (20 / 8)) with 2%nat.
  cbn [seq map Z.of_nat Pos.of_succ_nat Pos.succ]. znorm.
  repeat f_equal; rewrite <- to_uint8_byte_val; f_equal; unfold buf; rng.
Qed.

Lemma b32_window_one (pe : EncodingPadding.t) (a : byte) :
  pe = EncodingPadding.Include \/ p = DecodingPadding.Ignore ->
  decode_window (encode_chunk [a] al pe 0 []) m p 0 [] = Ok [a].
Proof.
  intros Hpe. rewrite (b32_encode_chunk_one al m Hag).
  pose proof (byte_val_range a).
  cbv zeta. unfold decode_window.
  rewrite b32_scan_two by first [apply field5_range | now apply closes_pads].
  cbn [bind fst snd].
  set (buf := byte_val a).
  assert (Hb : 0 <= buf < 2 ^ 8) by (unfold buf; rng).
  match goal with
  | |- context [check ?c _] =>
      replace c with (buf * 2 ^ 32) by (unfold field5; rng)
  end.
  rewrite (b32_check_short _ 10 32) by tauto.
  replace ((buf * 2 ^ 32) mod 2 ^ 32) with 0 by rng.
  cbn [Z.eqb bind]. rewrite b32_extract_bytes by lia.
  change (Z.to_nat (10 / 8)) with 1%nat.
  cbn [seq map Z.of_nat Pos.of_succ_nat Pos.succ]. znorm.
  repeat f_equal; rewrite <- to_uint8_byte_val; f_equal; unfold buf; rng.
Qed.

Lemma b32_scan_8 (c0 c1 c2 c3 c4 c5 c6 c7 : ascii) (rest : str) :
  scan (c0 :: c1 :: c2 :: c3 :: c4 :: c5 :: c6 :: c7 :: rest) m p 0
  = scan [c0; c1; c2; c3; c4; c5; c6; c7] m p 0.
Proof.
  unfold scan. apply for_each_ext. intros st j Hj.
  apply in_seq in Hj.
  destruct j as [| [| [| [| [| [| [| [| j]]]]]]]]; [reflexivity .. | lia].
Qed.

Lemma b32_decode_window_8 (c0 c1 c2 c3 c4 c5 c6 c7 : ascii) (rest : str)
  (r : bytes) :
  decode_window (c0 :: c1 :: c2 :: c3 :: c4 :: c5 :: c6 :: c7 :: rest)
    m p 0 r
  = decode_window [c0; c1; c2; c3; c4; c5; c6; c7] m p 0 r.
Proof. unfold decode_window. now rewrite b32_scan_8. Qed.

Theorem b32_decode_encode (pe : EncodingPadding.t) (data : bytes) :
  pe = EncodingPadding.Include \/ p = DecodingPadding.Ignore ->
  decodeBase32_internal (encodeBase32_internal data al pe) m p = Ok data.
Proof.
  intros Hpe.
  induction data as [| a | a b | a b c | a b c d | a b c d e rest IH]
    using list_ind5.
  - reflexivity.
  - pose proof (b32_window_one pe a Hpe) as W.
    rewrite b32_encode_short by (simpl; lia).
    rewrite b32_decode_short; [exact W | ].
    rewrite (b32_encode_chunk_one al m Hag). destruct pe; simpl; lia.
  - pose proof (b32_window_two pe a b Hpe) as W.
    rewrite b32_encode_short by (simpl; lia).
    rewrite b32_decode_short; [exact W | ].
    rewrite (b32_encode_chunk_two al m Hag). destruct pe; simpl; lia.
  - pose proof (b32_window_three pe a b c Hpe) as W.
    rewrite b32_encode_short by (simpl; lia).
    rewrite b32_decode_short; [exact W | ].
    rewrite (b32_encode_chunk_three al m Hag). destruct pe; simpl; lia.
  - pose proof (b32_window_four pe a b c d Hpe) as W.
    rewrite b32_encode_short by (simpl; lia).
    rewrite b32_decode_short; [exact W | ].
    rewrite (b32_encode_chunk_four al m Hag). destruct pe; simpl; lia.
  - pose proof (b32_window_five pe a b c d e) as W.
    rewrite b32_encode_cons5. rewrite (b32_encode_chunk_five al m Hag) in *.
    cbv zeta in *. cbn [app map] in *.
    rewrite b32_decode_cons8. cbv zeta. rewrite b32_decode_window_8, W.
    cbn [bind].
    rewrite IH. reflexivity.
Qed.
End Windows.

End Base32Facts.

(** ** The alphabets of the source and the claims about encodings *)

Lemma base64_agrees :
  agrees 64 Base64.base64Alphabet Base64.base64DecodeMap = true.
Proof. vm_compute. reflexivity. Qed.

Lemma base64url_agrees :
  agrees 64 Base64.base64urlAlphabet Base64.base64urlDecodeMap = true.
Proof. vm_compute. reflexivity. Qed.

Lemma base32_upper_agrees :
  agrees 32 Base32.base32UpperCaseAlphabet Base32.base32DecodeMap = true.
Proof. vm_compute. reflexivity. Qed.

Lemma base32_lower_agrees :
  agrees 32 Base32.base32LowerCaseAlphabet Base32.base32DecodeMap = true.
Proof. vm_compute. reflexivity. Qed.

(** Claim C1 (round trip).  For every byte sequence [B], every scheme and
    every case/padding variant of the encoder, the matching decoder returns
    exactly [B]: hex in either case with [decodeHex], a padded Base32,
    Base64 or Base64url encoding with the Required-padding decoder, an
    unpadded one with the Ignore-padding decoder. *)
Theorem round_trip (B : bytes) :
  Hex.decodeHex (Hex.encodeHexUpperCase B) = Ok B
  /\ Hex.decodeHex (Hex.encodeHexLowerCase B) = Ok B
  /\ Base32.decodeBase32 (Base32.encodeBase32UpperCase B) = Ok B
  /\ Base32.decodeBase32 (Base32.encodeBase32LowerCase B) = Ok B
  /\ Base32.decodeBase32 (Base32.encodeBase32 B) = Ok B
  /\ Base32.decodeBase32IgnorePadding
       (Base32.encodeBase32UpperCaseNoPadding B) = Ok B
  /\ Base32.decodeBase32IgnorePadding
       (Base32.encodeBase32LowerCaseNoPadding B) = Ok B
  /\ Base32.decodeBase32IgnorePadding (Base32.encodeBase32NoPadding B) = Ok B
  /\ Base64.decodeBase64 (Base64.encodeBase64 B) = Ok B
  /\ Base64.decodeBase64IgnorePadding (Base64.encodeBase64NoPadding B) = Ok B
  /\ Base64.decodeBase64url (Base64.encodeBase64url B) = Ok B
  /\ Base64.decodeBase64urlIgnorePadding (Base64.encodeBase64urlNoPadding B)
     = Ok B.
Proof.
  repeat split.
  - apply HexFacts.decodeHex_encode, HexFacts.upper_inverts.
  - apply HexFacts.decodeHex_encode, HexFacts.lower_inverts.
  - apply (Base32Facts.b32_decode_encode _ _ base32_upper_agrees); now left.
  - apply (Base32Facts.b32_decode_encode _ _ base32_lower_agrees); now left.
  - apply (Base32Facts.b32_decode_encode _ _ base32_upper_agrees); now left.
  - apply (Base32Facts.b32_decode_encode _ _ base32_upper_agrees); now right.
  - apply (Base32Facts.b32_decode_encode _ _ base32_lower_agrees); now right.
  - apply (Base32Facts.b32_decode_encode _ _ base32_upper_agrees); now right.
  - apply (Base64Facts.b64_decode_encode _ _ base64_agrees); now left.
  - apply (Base64Facts.b64_decode_encode _ _ base64_agrees); now right.
  - apply (Base64Facts.b64_decode_encode _ _ base64url_agrees); now left.
  - apply (Base64Facts.b64_decode_encode _ _ base64url_agrees); now right.
Qed.

(** Claim C10.  The Ignore-padding decoders also accept padded input:
    decoding the padded encoding of any byte sequence [B] with the
    Ignore-padding decoder of the same scheme returns [B]. *)
Theorem ignore_accepts_padded (B : bytes) :
  Base64.decodeBase64IgnorePadding (Base64.encodeBase64 B) = Ok B
  /\ Base64.decodeBase64urlIgnorePadding (Base64.encodeBase64url B) = Ok B
  /\ Base32.decodeBase32IgnorePadding (Base32.encodeBase32UpperCase B) = Ok B.
Proof.
  repeat split.
  - apply (Base64Facts.b64_decode_encode _ _ base64_agrees); now left.
  - apply (Base64Facts.b64_decode_encode _ _ base64url_agrees); now left.
  - apply (Base32Facts.b32_decode_encode _ _ base32_upper_agrees); now left.
Qed.

(** Claim C4.  [decodeBase64("sgvsbg8=")] succeeds, and its result is not
    the bytes of "Hello", which "SGVsbG8=" decodes to: the decode map sends
    the upper-case letter of rank [i] to [i] and the lower-case one to
    [i + 26]. *)
Theorem lowercase_is_other_data :
  Base64.decodeBase64 (lit "sgvsbg8=")
  = Ok (map to_uint8 [178; 11; 236; 110; 15])
  /\ Base64.decodeBase64 (lit "sgvsbg8=") <> Ok hello
  /\ Base64.decodeBase64 (lit "SGVsbG8=") = Ok hello
  /\ forall i, (i < 26)%nat ->
       lookup Base64.base64DecodeMap
         (nth i (lit "ABCDEFGHIJKLMNOPQRSTUVWXYZ") pad) = Some (Z.of_nat i)
       /\ lookup Base64.base64DecodeMap
            (nth i (lit "abcdefghijklmnopqrstuvwxyz") pad)
          = Some (Z.of_nat i + 26).
Proof.
  split; [reflexivity | ]. split; [discriminate | ]. split; [reflexivity | ].
  intros i Hi.
  do 26 (destruct i as [| i]; [split; reflexivity | ]). lia.
Qed.

(** Claim C6.  [decodeHex] rejects every string of odd length with the
    odd-length error, whatever the characters of the string are: the length
    is tested before any character is looked up. *)
Theorem odd_length_rejected_first (data : str) :
  Nat.odd (List.length data) = true ->
  Hex.decodeHex data = Err InvalidHexString.
Proof.
  intros Hodd. unfold Hex.decodeHex.
  rewrite <- Nat.bit0_mod, Nat.bit0_odd, Hodd. reflexivity.
Qed.

(** Three characters outside the decode map give the odd-length error; two
    of them give the invalid-character error. *)
Lemma odd_length_rejected_first_witness :
  Hex.decodeHex (lit "zz!") = Err InvalidHexString
  /\ Hex.decodeHex (lit "zz") = Err InvalidCharacter.
Proof.
  split.
  - apply (odd_length_rejected_first (lit "zz!")). reflexivity.
  - reflexivity.
Defined.

Lemma ceil_div_add (a b : nat) (k : nat) :
  (0 < b)%nat -> ceil_div (a + k * b) b = (ceil_div a b + k)%nat.
Proof.
  intros Hb. unfold ceil_div.
  replace (a + k * b + b - 1)%nat with (a + b - 1 + k * b)%nat by lia.
  now rewrite Nat.div_add by lia.
Qed.

Lemma pads_length (p : EncodingPadding.t) (n : nat) :
  List.length (pads p n)
  = match p with
    | EncodingPadding.Include => n
    | EncodingPadding.None => 0%nat
    end.
Proof. destruct p; [apply repeat_length | reflexivity]. Qed.

Lemma base64_length (al : str) (m : decode_map) (p : EncodingPadding.t)
  (data : bytes) :
  agrees 64 al m = true ->
  List.length (Base64.encodeBase64_internal data al p)
  = encoded_length 6 4 p (List.length data).
Proof.
  intros Hag. unfold encoded_length. change (Nat.div (4 * 6) 8) with 3%nat.
  induction data as [| a | a b | a b c rest IH] using list_ind3.
  - now destruct p.
  - rewrite Base64Facts.b64_encode_short by (simpl; lia).
    rewrite (Base64Facts.b64_encode_chunk_one al m Hag).
    cbv zeta. rewrite length_app, pads_length. now destruct p.
  - rewrite Base64Facts.b64_encode_short by (simpl; lia).
    rewrite (Base64Facts.b64_encode_chunk_two al m Hag).
    cbv zeta. rewrite length_app, pads_length. now destruct p.
  - rewrite Base64Facts.b64_encode_cons3, length_app, IH.
    rewrite (Base64Facts.b64_encode_chunk_full al m Hag). cbv zeta.
    change (List.length (a :: b :: c :: rest))
      with (S (S (S (List.length rest)))).
    destruct p.
    + replace (S (S (S (List.length rest))))
        with (List.length rest + 1 * 3)%nat by lia.
      rewrite ceil_div_add by lia. simpl List.length. lia.
    + replace (8 * S (S (S (List.length rest))))%nat
        with (8 * List.length rest + 4 * 6)%nat by lia.
      rewrite ceil_div_add by lia. simpl List.length. lia.
Qed.

Lemma base32_length (al : str) (m : decode_map) (p : EncodingPadding.t)
  (data : bytes) :
  agrees 32 al m = true ->
  List.length (Base32.encodeBase32_internal data al p)
  = encoded_length 5 8 p (List.length data).
Proof.
  intros Hag. unfold encoded_length. change (Nat.div (8 * 5) 8) with 5%nat.
  induction data as [| a | a b | a b c | a b c d | a b c d e rest IH]
    using list_ind5.
  - now destruct p.
  - rewrite Base32Facts.b32_encode_short by (simpl; lia).
    rewrite (Base32Facts.b32_encode_chunk_one al m Hag).
    cbv zeta. rewrite length_app, pads_length. now destruct p.
  - rewrite Base32Facts.b32_encode_short by (simpl; lia).
    rewrite (Base32Facts.b32_encode_chunk_two al m Hag).
    cbv zeta. rewrite length_app, pads_length. now destruct p.
  - rewrite Base32Facts.b32_encode_short by (simpl; lia).
    rewrite (Base32Facts.b32_encode_chunk_three al m Hag).
    cbv zeta. rewrite length_app, pads_length. now destruct p.
  - rewrite Base32Facts.b32_encode_short by (simpl; lia).
    rewrite (Base32Facts.b32_encode_chunk_four al m Hag).
    cbv zeta. rewrite length_app, pads_length. now destruct p.
  - rewrite Base32Facts.b32_encode_cons5, length_app, IH.
    rewrite (Base32Facts.b32_encode_chunk_five al m Hag). cbv zeta.
    change (List.length (a :: b :: c :: d :: e :: rest))
      with (S (S (S (S (S (List.length rest)))))).
    destruct p.
    + replace (S (S (S (S (S (List.length rest))))))
        with (List.length rest + 1 * 5)%nat by lia.
      rewrite ceil_div_add by lia. simpl List.length. lia.
    + replace (8 * S (S (S (S (S (List.length rest))))))%nat
        with (8 * List.length rest + 8 * 5)%nat by lia.
      rewrite ceil_div_add by lia. simpl List.length. lia.
Qed.

(** Claim C5 (length growth).  For [n] input bytes the padded
    Base64/Base64url encoders write [4 * ceil(n / 3)] characters, the padded
    Base32 encoders, [encodeBase32] included, [8 * ceil(n / 5)], both hex
    encoders [2 n], and every unpadded encoder, [encodeBase32NoPadding]
    included, [ceil(8 n / k)], [k] the group width; every encoder maps the
    empty byte sequence to the empty string. *)
Theorem encoded_lengths (B : bytes) :
  let n := List.length B in
  List.length (Base64.encodeBase64 B) = (4 * ceil_div n 3)%nat
  /\ List.length (Base64.encodeBase64url B) = (4 * ceil_div n 3)%nat
  /\ List.length (Base32.encodeBase32UpperCase B) = (8 * ceil_div n 5)%nat
  /\ List.length (Base32.encodeBase32LowerCase B) = (8 * ceil_div n 5)%nat
  /\ List.length (Hex.encodeHexUpperCase B) = (2 * n)%nat
  /\ List.length (Hex.encodeHexLowerCase B) = (2 * n)%nat
  /\ List.length (Base64.encodeBase64NoPadding B) = ceil_div (8 * n) 6
  /\ List.length (Base64.encodeBase64urlNoPadding B) = ceil_div (8 * n) 6
  /\ List.length (Base32.encodeBase32UpperCaseNoPadding B) = ceil_div (8 * n) 5
  /\ List.length (Base32.encodeBase32LowerCaseNoPadding B) = ceil_div (8 * n) 5
  /\ List.length (Base32.encodeBase32 B) = (8 * ceil_div n 5)%nat
  /\ List.length (Base32.encodeBase32NoPadding B) = ceil_div (8 * n) 5
  /\ (2 * n)%nat = ceil_div (8 * n) 4
  /\ Base64.encodeBase64 [] = [] /\ Base64.encodeBase64NoPadding [] = []
  /\ Base64.encodeBase64url [] = [] /\ Base64.encodeBase64urlNoPadding [] = []
  /\ Base32.encodeBase32UpperCase [] = []
  /\ Base32.encodeBase32UpperCaseNoPadding [] = []
  /\ Base32.encodeBase32LowerCase [] = []
  /\ Base32.encodeBase32LowerCaseNoPadding [] = []
  /\ Base32.encodeBase32 [] = [] /\ Base32.encodeBase32NoPadding [] = []
  /\ Hex.encodeHexUpperCase [] = [] /\ Hex.encodeHexLowerCase [] = [].
Proof.
  intros n. subst n.
  split; [exact (base64_length _ _ EncodingPadding.Include B base64_agrees) | ].
  split;
    [exact (base64_length _ _ EncodingPadding.Include B base64url_agrees) | ].
  split;
    [exact (base32_length _ _ EncodingPadding.Include B base32_upper_agrees)
    | ].
  split;
    [exact (base32_length _ _ EncodingPadding.Include B base32_lower_agrees)
    | ].
  split; [apply HexFacts.encode_loop_length, HexFacts.upper_inverts | ].
  split; [apply HexFacts.encode_loop_length, HexFacts.lower_inverts | ].
  split; [exact (base64_length _ _ EncodingPadding.None B base64_agrees) | ].
  split; [exact (base64_length _ _ EncodingPadding.None B base64url_agrees) | ].
  split;
    [exact (base32_length _ _ EncodingPadding.None B base32_upper_agrees) | ].
  split;
    [exact (base32_length _ _ EncodingPadding.None B base32_lower_agrees) | ].
  split;
    [exact (base32_length _ _ EncodingPadding.Include B base32_upper_agrees)
    | ].
  split;
    [exact (base32_length _ _ EncodingPadding.None B base32_upper_agrees) | ].
  split.
  { unfold ceil_div.
    replace (8 * List.length B + 4 - 1)%nat
      with (3 + (2 * List.length B) * 4)%nat by lia.
    now rewrite Nat.div_add by lia. }
  repeat split.
Qed.

Lemma last_app_ne {A} (l l' : list A) (d : A) :
  l' <> [] -> last (l ++ l') d = last l' d.
Proof.
  intros Hne. induction l as [| x l IH]; [reflexivity | ].
  cbn [app]. destruct (l ++ l') eqn:E; [ | exact IH].
  apply app_eq_nil in E. now destruct E.
Qed.

Lemma partial_index_cons (k : Z) (w : nat) (chunk rest : bytes) :
  0 < k -> List.length chunk = w -> (8 * Z.of_nat w) mod k = 0 ->
  rest <> [] ->
  partial_index k (chunk ++ rest) = partial_index k rest.
Proof.
  intros Hk Hw Hm Hne. unfold partial_index.
  rewrite last_app_ne by assumption. rewrite length_app, Hw.
  replace (8 * Z.of_nat (w + List.length rest))
    with (8 * Z.of_nat (List.length rest) + 8 * Z.of_nat w) by lia.
  rewrite <- Zplus_mod_idemp_r, Hm, Z.add_0_r. reflexivity.
Qed.

Lemma partial_index_eval (k r s x : Z) (B : bytes) :
  (8 * Z.of_nat (List.length B)) mod k = r -> 0 <= r -> k - r = s -> 0 <= s ->
  byte_val (last B x00) = x ->
  partial_index k B = (x mod 2 ^ r) * 2 ^ s.
Proof.
  intros Hr Hr0 Hs Hs0 Hx. unfold partial_index. cbv zeta.
  rewrite Hr, Hs, Hx. rewrite Z.land_ones by lia.
  now rewrite Z.shiftl_mul_pow2 by lia.
Qed.

Lemma base64_partial (al : str) (m : decode_map) (p : EncodingPadding.t)
  (B : bytes) :
  agrees 64 al m = true ->
  Nat.modulo (List.length B) 3 <> 0%nat ->
  exists body,
    Base64.encodeBase64_internal B al p
    = body ++ [sym al (partial_index 6 B)]
      ++ pads p (3 - Nat.modulo (List.length B) 3).
Proof.
  intros Hag.
  induction B as [| a | a b | a b c rest IH] using list_ind3; intros Hn.
  - now elim Hn.
  - rewrite Base64Facts.b64_encode_short by (simpl; lia).
    rewrite (Base64Facts.b64_encode_chunk_one al m Hag). cbv zeta.
    exists [sym al (field (byte_val a) 2)]. cbn [app]. do 3 f_equal.
    pose proof (byte_val_range a).
    rewrite (partial_index_eval 6 2 4 (byte_val a)) by (reflexivity || lia).
    unfold last_field. rng.
  - rewrite Base64Facts.b64_encode_short by (simpl; lia).
    rewrite (Base64Facts.b64_encode_chunk_two al m Hag). cbv zeta.
    exists [sym al (field (byte_val a * 256 + byte_val b) 10);
            sym al (field (byte_val a * 256 + byte_val b) 4)].
    cbn [app]. do 4 f_equal.
    pose proof (byte_val_range a). pose proof (byte_val_range b).
    rewrite (partial_index_eval 6 4 2 (byte_val b)) by (reflexivity || lia).
    unfold last_field. rng.
  - change (List.length (a :: b :: c :: rest))
      with (3 + List.length rest)%nat in *.
    replace (Nat.modulo (3 + List.length rest) 3)
      with (Nat.modulo (List.length rest) 3) in *
      by (replace (3 + List.length rest)%nat
            with (List.length rest + 1 * 3)%nat by lia;
          now rewrite Nat.Div0.mod_add).
    destruct (IH Hn) as [body Hbody].
    rewrite Base64Facts.b64_encode_cons3, Hbody.
    exists (Base64.encode_chunk [a; b; c] al p 0 [] ++ body).
    rewrite <- app_assoc.
    replace (partial_index 6 (a :: b :: c :: rest))
      with (partial_index 6 rest); [reflexivity | ].
    symmetry. apply (partial_index_cons 6 3 [a; b; c] rest); try easy.
    intros ->. now apply Hn.
Qed.

Lemma base32_partial (al : str) (m : decode_map) (p : EncodingPadding.t)
  (B : bytes) :
  agrees 32 al m = true ->
  Nat.modulo (List.length B) 5 <> 0%nat ->
  exists body n,
    Base32.encodeBase32_internal B al p
    = body ++ [sym al (partial_index 5 B)] ++ pads p n /\ (0 < n)%nat.
Proof.
  intros Hag.
  induction B as [| a | a b | a b c | a b c d | a b c d e rest IH]
    using list_ind5; intros Hn.
  - now elim Hn.
  - rewrite Base32Facts.b32_encode_short by (simpl; lia).
    rewrite (Base32Facts.b32_encode_chunk_one al m Hag). cbv zeta.
    eexists [_], 6%nat. split; [ | lia]. cbn [app map]. do 3 f_equal.
    pose proof (byte_val_range a).
    rewrite (partial_index_eval 5 3 2 (byte_val a)) by (reflexivity || lia).
    unfold field5. rng.
  - rewrite Base32Facts.b32_encode_short by (simpl; lia).
    rewrite (Base32Facts.b32_encode_chunk_two al m Hag). cbv zeta.
    eexists [_; _; _], 4%nat. split; [ | lia]. cbn [app map]. do 5 f_equal.
    pose proof (byte_val_range a). pose proof (byte_val_range b).
    rewrite (partial_index_eval 5 1 4 (byte_val b)) by (reflexivity || lia).
    unfold field5. rng.
  - rewrite Base32Facts.b32_encode_short by (simpl; lia).
    rewrite (Base32Facts.b32_encode_chunk_three al m Hag). cbv zeta.
    eexists [_; _; _; _], 3%nat. split; [ | lia]. cbn [app map].
    do 6 f_equal.
    pose proof (byte_val_range a). pose proof (byte_val_range b).
    pose proof (byte_val_range c).
    rewrite (partial_index_eval 5 4 1 (byte_val c)) by (reflexivity || lia).
    unfold field5. rng.
  - rewrite Base32Facts.b32_encode_short by (simpl; lia).
    rewrite (Base32Facts.b32_encode_chunk_four al m Hag). cbv zeta.
    eexists [_; _; _; _; _; _], 1%nat. split; [ | lia]. cbn [app map].
    do 8 f_equal.
    pose proof (byte_val_range a). pose proof (byte_val_range b).
    pose proof (byte_val_range c). pose proof (byte_val_range d).
    rewrite (partial_index_eval 5 2 3 (byte_val d)) by (reflexivity || lia).
    unfold field5. rng.
  - change (List.length (a :: b :: c :: d :: e :: rest))
      with (5 + List.length rest)%nat in *.
    replace (Nat.modulo (5 + List.length rest) 5)
      with (Nat.modulo (List.length rest) 5) in *
      by (replace (5 + List.length rest)%nat
            with (List.length rest + 1 * 5)%nat by lia;
          now rewrite Nat.Div0.mod_add).
    destruct (IH Hn) as (body & n & Hbody & Hpos).
    rewrite Base32Facts.b32_encode_cons5, Hbody.
    exists (Base32.encode_chunk [a; b; c; d; e] al p 0 [] ++ body), n.
    split; [ | assumption].
    rewrite <- app_assoc.
    replace (partial_index 5 (a :: b :: c :: d :: e :: rest))
      with (partial_index 5 rest); [reflexivity | ].
    symmetry. apply (partial_index_cons 5 5 [a; b; c; d; e] rest); try easy.
    intros ->. now apply Hn.
Qed.

Lemma partial_index_bits (k : Z) (B : bytes) :
  0 < k ->
  let r := (8 * Z.of_nat (List.length B)) mod k in
  Z.land (partial_index k B) (Z.ones (k - r)) = 0
  /\ Z.shiftr (partial_index k B) (k - r)
     = Z.land (byte_val (last B x00)) (Z.ones r).
Proof.
  intros Hk r. pose proof (Z.mod_pos_bound (8 * Z.of_nat (List.length B)) k Hk).
  unfold partial_index. fold r. cbv zeta. split.
  - rewrite Z.land_ones, Z.shiftl_mul_pow2 by lia. apply Z_mod_mult.
  - rewrite Z.shiftr_shiftl_l by lia. now rewrite Z.sub_diag, Z.shiftl_0_r.
Qed.

Lemma bits_not_aligned (n q : nat) :
  (q = 3 \/ q = 5)%nat ->
  Nat.modulo (8 * n) (2 * q) <> 0%nat \/ Nat.modulo (8 * n) q <> 0%nat ->
  Nat.modulo n q <> 0%nat.
Proof.
  intros Hq Hn C. pose proof (Nat.div_mod_eq n q) as E. rewrite C in E.
  destruct Hn as [Hn | Hn]; apply Hn.
  - replace (8 * n)%nat with (4 * (n / q) * (2 * q))%nat by lia.
    apply Nat.Div0.mod_mul.
  - replace (8 * n)%nat with (8 * (n / q) * q)%nat by lia.
    apply Nat.Div0.mod_mul.
Qed.

Lemma find_skip {A} (f : A -> bool) (l1 l2 : list A) :
  (forall x, In x l1 -> f x = false) -> find f (l1 ++ l2) = find f l2.
Proof.
  intros H. induction l1 as [| x l1 IH]; [reflexivity | ].
  cbn [app find]. rewrite (H x) by (left; reflexivity).
  apply IH. intros y Hy. apply H. now right.
Qed.

Lemma last_data_pads (body : str) (c : ascii) (p : EncodingPadding.t)
  (n : nat) :
  Ascii.eqb c pad = false ->
  last_data (body ++ [c] ++ pads p n) = Some c.
Proof.
  intros Hc. unfold last_data. rewrite !rev_app_distr, <- app_assoc.
  rewrite find_skip.
  - cbn [rev app find]. now rewrite Hc.
  - intros x Hx. apply in_rev in Hx.
    destruct p; cbn [pads] in Hx; [ | easy].
    apply repeat_spec in Hx. now subst x.
Qed.

Lemma partial_index_range (k : Z) (B : bytes) :
  0 < k -> 0 <= partial_index k B < 2 ^ k.
Proof.
  intros Hk. unfold partial_index.
  pose proof (Z.mod_pos_bound (8 * Z.of_nat (List.length B)) k Hk) as Hr.
  set (r := (8 * Z.of_nat (List.length B)) mod k) in *.
  rewrite Z.land_ones, Z.shiftl_mul_pow2 by lia.
  pose proof (Z.mod_pos_bound (byte_val (last B x00)) (2 ^ r)
                ltac:(apply Z.pow_pos_nonneg; lia)) as Hm.
  assert (Hs : 0 < 2 ^ (k - r)) by (apply Z.pow_pos_nonneg; lia).
  replace (2 ^ k) with (2 ^ r * 2 ^ (k - r))
    by (rewrite <- Z.pow_add_r by lia; f_equal; lia).
  nia.
Qed.

(** Claim C8.  When the bit length of the input is not a multiple of the
    group width [k] (6 for Base64 and Base64url, 5 for Base32), the last
    data character of the encoding, padded or not, is the alphabet
    character whose index is made of the remaining low bits of the last
    byte moved left to fill a [k]-bit slot: the bits on the right of the
    slot are zero and the bits above them are the remaining bits.  For
    Base32, a single byte [b] gives as second character the alphabet entry
    of index [(b << 2) & 0x1f]. *)
Theorem partial_group_character (B : bytes) (p : EncodingPadding.t) :
  (Nat.modulo (8 * List.length B) 6 <> 0%nat ->
   forall al, al = Base64.base64Alphabet \/ al = Base64.base64urlAlphabet ->
     last_data (Base64.encodeBase64_internal B al p)
     = Some (sym al (partial_index 6 B)))
  /\ (Nat.modulo (8 * List.length B) 5 <> 0%nat ->
      forall al,
        al = Base32.base32UpperCaseAlphabet
        \/ al = Base32.base32LowerCaseAlphabet ->
        last_data (Base32.encodeBase32_internal B al p)
        = Some (sym al (partial_index 5 B)))
  /\ (forall k, k = 5 \/ k = 6 ->
        let r := (8 * Z.of_nat (List.length B)) mod k in
        Z.land (partial_index k B) (Z.ones (k - r)) = 0
        /\ Z.shiftr (partial_index k B) (k - r)
           = Z.land (byte_val (last B x00)) (Z.ones r))
  /\ (forall b al,
        al = Base32.base32UpperCaseAlphabet
        \/ al = Base32.base32LowerCaseAlphabet ->
        nth_error (Base32.encodeBase32_internal [b] al p) 1
        = Some (sym al (Z.land (Z.shiftl (byte_val b) 2) 31))).
Proof.
  repeat split.
  - intros Hn al Hal.
    assert (Hag : exists m, agrees 64 al m = true).
    { destruct Hal as [-> | ->]; eexists;
        [apply base64_agrees | apply base64url_agrees]. }
    destruct Hag as [m Hag].
    destruct (base64_partial al m p B Hag) as [body ->];
      [apply (bits_not_aligned _ 3); auto | ].
    apply last_data_pads.
    apply (agrees_spec 64 al m _ Hag).
    apply (partial_index_range 6 B). lia.
  - intros Hn al Hal.
    assert (Hag : agrees 32 al Base32.base32DecodeMap = true).
    { destruct Hal as [-> | ->];
        [apply base32_upper_agrees | apply base32_lower_agrees]. }
    destruct (base32_partial al _ p B Hag) as (body & n & -> & _);
      [apply (bits_not_aligned _ 5); auto | ].
    apply last_data_pads.
    apply (agrees_spec 32 al _ _ Hag).
    apply (partial_index_range 5 B). lia.
  - destruct H as [-> | ->]; now apply partial_index_bits.
  - destruct H as [-> | ->]; now apply partial_index_bits.
  - intros b al Hal.
    assert (Hag : agrees 32 al Base32.base32DecodeMap = true).
    { destruct Hal as [-> | ->];
        [apply base32_upper_agrees | apply base32_lower_agrees]. }
    rewrite Base32Facts.b32_encode_short by (simpl; lia).
    rewrite (Base32Facts.b32_encode_chunk_one al _ Hag). cbv zeta.
    cbn [map app nth_error]. do 2 f_equal.
    pose proof (byte_val_range b).
    change 31 with (Z.ones 5). rewrite Z.land_ones, Z.shiftl_mul_pow2 by lia.
    unfold field5. rng.
Qed.

(** Two bytes in Base64 (four bits remain) and one byte in Base32 (three
    bits remain). *)
Lemma partial_group_character_witness :
  last_data (Base64.encodeBase64 (map to_uint8 [72; 101]))
  = Some (sym Base64.base64Alphabet 20)
  /\ last_data (Base32.encodeBase32LowerCaseNoPadding (map to_uint8 [72]))
     = Some (sym Base32.base32LowerCaseAlphabet 0).
Proof.
  split.
  - destruct (partial_group_character (map to_uint8 [72; 101])
                EncodingPadding.Include) as (H64 & _).
    exact (H64 ltac:(discriminate) Base64.base64Alphabet (or_introl eq_refl)).
  - destruct (partial_group_character (map to_uint8 [72])
                EncodingPadding.None) as (_ & H32 & _).
    exact (H32 ltac:(discriminate) Base32.base32LowerCaseAlphabet
             (or_intror eq_refl)).
Defined.

(** ** Loops that stop at the first error *)

Lemma for_each_fails {St} (f : St -> nat -> res St) (js : list nat) (j : nat) :
  In j js -> (forall s, exists e, f s j = Err e) ->
  forall s, exists e, for_each f js s = Err e.
Proof.
  intros Hin Hj. induction js as [| j' js IH]; intros s; [easy | ].
  cbn [for_each]. destruct Hin as [-> | Hin].
  - destruct (Hj s) as [e ->]. now exists e.
  - destruct (f s j') as [s' | e]; cbn [bind]; [now apply IH | now exists e].
Qed.

(** Every step before [j] either fails with [E] or keeps the invariant,
    and the step [j] fails with [E]: the loop fails with [E]. *)
Lemma for_each_first_error {St} (f : St -> nat -> res St) (I : St -> Prop)
  (E : error) (a n j : nat) (s : St) :
  (a <= j < a + n)%nat -> I s ->
  (forall s k, (a <= k < j)%nat -> I s ->
     f s k = Err E \/ exists s', f s k = Ok s' /\ I s') ->
  (forall s, I s -> f s j = Err E) ->
  for_each f (seq a n) s = Err E.
Proof.
  revert a s. induction n as [| n IH]; intros a s Hj Hs Hbefore Hat; [lia | ].
  cbn [seq for_each].
  destruct (Nat.eq_dec a j) as [-> | Hne].
  - now rewrite Hat.
  - destruct (Hbefore s a) as [-> | (s' & -> & Hs')];
      [lia | assumption | easy | ].
    cbn [bind]. apply IH; [lia | assumption | | assumption].
    intros s0 k Hk. apply Hbefore. lia.
Qed.

(** Every step either fails with [E] or keeps the invariant. *)
Lemma for_each_invariant {St} (f : St -> nat -> res St)
  (I : nat -> St -> Prop) (E : error) (a n : nat) (s : St) :
  I a s ->
  (forall s k, (a <= k < a + n)%nat -> I k s ->
     f s k = Err E \/ exists s', f s k = Ok s' /\ I (S k) s') ->
  for_each f (seq a n) s = Err E
  \/ exists s', for_each f (seq a n) s = Ok s' /\ I (a + n)%nat s'.
Proof.
  revert a s. induction n as [| n IH]; intros a s Hs Hstep.
  - right. exists s. now rewrite Nat.add_0_r.
  - cbn [seq for_each].
    destruct (Hstep s a) as [-> | (s' & -> & Hs')];
      [lia | assumption | now left | ].
    cbn [bind]. replace (a + S n)%nat with (S a + n)%nat by lia.
    apply IH; [assumption | ]. intros s0 k Hk. apply Hstep. lia.
Qed.

Section Loop.
Variables (window : nat -> bytes -> res bytes) (W : nat).

(** The outer loop of a decoder: [n] windows from index [i] on. *)
Fixpoint loop (n i : nat) (r : bytes) : res bytes :=
  match n with
  | O => Ok r
  | S n' => r' <- window i r ;; loop n' (i + W) r'
  end.

Hypothesis window_acc :
  forall i r, window i r = (out <- window i [] ;; Ok (r ++ out)).

Lemma loop_ok_windows (n i : nat) (r out : bytes) :
  loop n i r = Ok out ->
  forall k, (k < n)%nat -> exists w, window (i + W * k) [] = Ok w.
Proof.
  revert i r. induction n as [| n IH]; intros i r Hok k Hk; [lia | ].
  cbn [loop] in Hok. rewrite window_acc in Hok.
  destruct (window i []) as [w | e] eqn:Hw; [ | discriminate].
  cbn [bind] in Hok. destruct k as [| k].
  - exists w. now rewrite Nat.mul_0_r, Nat.add_0_r.
  - destruct (IH _ _ Hok k) as [w' Hw']; [lia | ]. exists w'.
    rewrite <- Hw'. f_equal. nia.
Qed.

Lemma loop_fails (n i k : nat) (r : bytes) :
  (k < n)%nat -> (exists e, window (i + W * k) [] = Err e) ->
  exists e, loop n i r = Err e.
Proof.
  intros Hk [e He]. destruct (loop n i r) as [out | e'] eqn:Hl; [ | eauto].
  destruct (loop_ok_windows _ _ _ _ Hl k Hk) as [w Hw]. congruence.
Qed.

Lemma loop_first_error (E : error) (n i k : nat) (r : bytes) :
  (k < n)%nat ->
  (forall k', (k' < k)%nat ->
     window (i + W * k') [] = Err E
     \/ exists w, window (i + W * k') [] = Ok w) ->
  window (i + W * k) [] = Err E ->
  loop n i r = Err E.
Proof.
  revert i r k. induction n as [| n IH]; intros i r k Hk Hbefore Hat; [lia | ].
  cbn [loop]. rewrite window_acc. destruct k as [| k].
  - rewrite Nat.mul_0_r, Nat.add_0_r in Hat. now rewrite Hat.
  - destruct (Hbefore 0%nat) as [H0 | [w H0]]; [lia | | ];
      rewrite Nat.mul_0_r, Nat.add_0_r in H0; rewrite H0; [reflexivity | ].
    cbn [bind]. apply (IH _ _ k); [lia | | ].
    + intros k' Hk'.
      replace (i + W + W * k')%nat with (i + W * S k')%nat by nia.
      apply Hbefore. lia.
    + rewrite <- Hat. f_equal. nia.
Qed.
End Loop.

Lemma window_index (len W q j : nat) :
  (0 < W)%nat -> (W * q + j < len)%nat -> (q < trips len W)%nat.
Proof.
  intros HW H. unfold trips.
  apply Nat.div_le_lower_bound; [lia | ].
  rewrite Nat.mul_succ_r. lia.
Qed.

Lemma pad_boundary (e : str) (a j j' : nat) (c : ascii) :
  (j < j')%nat -> nth_error e (a + j) = Some pad ->
  nth_error e (a + j') = Some c -> Ascii.eqb c pad = false ->
  exists k ck, (j < k <= j')%nat
    /\ nth_error e (a + k - 1) = Some pad
    /\ nth_error e (a + k) = Some ck /\ Ascii.eqb ck pad = false.
Proof.
  intros Hlt Hj Hj' Hc.
  remember (j' - j)%nat as d eqn:Hd. revert j Hlt Hj Hd.
  induction d as [| d IH]; intros j Hlt Hj Hd; [lia | ].
  destruct (nth_error e (a + S j)) as [c1 | ] eqn:H1.
  - destruct (Ascii.eqb c1 pad) eqn:Hc1.
    + apply Ascii.eqb_eq in Hc1. subst c1.
      destruct (Nat.eq_dec (S j) j') as [E | NE].
      * subst j'. rewrite H1 in Hj'. injection Hj' as <-. discriminate.
      * destruct (IH (S j)) as (k & ck & Hk & Hp & Hck & Hne);
          [lia | assumption | lia | ].
        exists k, ck. repeat split; try assumption; lia.
    + exists (S j), c1. repeat split; try assumption; try lia.
      replace (a + S j - 1)%nat with (a + j)%nat by lia. assumption.
  - apply nth_error_None in H1.
    assert (nth_error e (a + j') <> None) by congruence.
    apply nth_error_Some in H. lia.
Qed.

(** ** What every window decoder rejects

    The two decoders have the same shape: a character loop over the [W]
    positions of a window, a check of the bits read, an outer loop over the
    windows.  The facts below are proved once from the properties of one
    step. *)

Section Scheme.
Variables (W : nat) (kbits : Z).
Variable step :
  str -> decode_map -> DecodingPadding.t -> nat -> Z * Z -> nat -> res (Z * Z).
Variable window :
  str -> decode_map -> DecodingPadding.t -> nat -> bytes -> res bytes.
Variable decode : str -> decode_map -> DecodingPadding.t -> res bytes.

Let scan e m p i := for_each (step e m p i) (seq 0 W) (0, 0).

Hypothesis W_pos : (0 < W)%nat.

Hypothesis step_after_pad : forall e m p i st j c,
  (0 < j)%nat -> nth_error e (i + j - 1) = Some pad ->
  nth_error e (i + j) = Some c -> Ascii.eqb c pad = false ->
  step e m p i st j = Err InvalidPadding.

Hypothesis step_bad_char : forall e m p i st j c,
  nth_error e (i + j) = Some c -> Ascii.eqb c pad = false ->
  lookup m c = None ->
  (step e m p i st j = Err InvalidCharacter
   \/ step e m p i st j = Err InvalidPadding)
  /\ (after_pad e i j = false -> step e m p i st j = Err InvalidCharacter).

Hypothesis step_known : forall e m p i st j c,
  nth_error e (i + j) = Some c ->
  Ascii.eqb c pad = true \/ lookup m c <> None ->
  error_or_ok InvalidPadding (step e m p i st j).

Hypothesis step_data : forall e m p i st j c,
  nth_error e (i + j) = Some c -> Ascii.eqb c pad = false ->
  after_pad e i j = false ->
  step e m p i st j = Err InvalidCharacter
  \/ exists chunk, step e m p i st j = Ok (chunk, snd st + kbits).

Hypothesis step_good : forall e m p i st j c,
  nth_error e (i + j) = Some c -> Ascii.eqb c pad = false ->
  after_pad e i j = false -> lookup m c <> None ->
  exists chunk, step e m p i st j = Ok (chunk, snd st + kbits).

Hypothesis step_past_end : forall e m i st j,
  (List.length e <= i + j)%nat ->
  exists E, step e m DecodingPadding.Required i st j = Err E.

Hypothesis window_scan_error : forall e m p i r E,
  scan e m p i = Err E -> window e m p i r = Err E.

Hypothesis window_checked : forall e m p i st,
  scan e m p i = Ok st -> error_or_ok InvalidPadding (window e m p i []).

Hypothesis window_full : forall e m p i st,
  scan e m p i = Ok st -> snd st = kbits * Z.of_nat W ->
  exists w, window e m p i [] = Ok w.

Hypothesis decode_fails : forall e m p q j,
  (W * q + j < List.length e)%nat ->
  (exists E, window e m p (W * q) [] = Err E) ->
  exists E, decode e m p = Err E.

Hypothesis decode_first_error : forall e m p E q j,
  (W * q + j < List.length e)%nat ->
  (forall q', (q' < q)%nat -> error_or_ok E (window e m p (W * q') [])) ->
  window e m p (W * q) [] = Err E ->
  decode e m p = Err E.

Lemma in_window (e : str) (q q' j k : nat) :
  (W * q + j < List.length e)%nat -> (q' < q)%nat -> (k < W)%nat ->
  (W * q' + k < W * q)%nat /\ exists c, nth_error e (W * q' + k) = Some c.
Proof.
  intros Hlen Hq Hk.
  assert (Hlt : (W * q' + k < W * q)%nat) by nia.
  split; [assumption | ].
  destruct (nth_error e (W * q' + k)) as [c | ] eqn:Hc; [eauto | ].
  apply nth_error_None in Hc. lia.
Qed.

(** A window whose step [j] always fails makes the decoder fail. *)
Lemma failing_step (e : str) (m : decode_map) (p : DecodingPadding.t)
  (q j j0 : nat) :
  (W * q + j0 < List.length e)%nat -> (j < W)%nat ->
  (forall st, exists E, step e m p (W * q) st j = Err E) ->
  exists E, decode e m p = Err E.
Proof.
  intros Hlen Hj Hstep. apply (decode_fails e m p q j0 Hlen).
  destruct (for_each_fails (step e m p (W * q)) (seq 0 W) j) with (s := (0, 0))
    as [E HE]; [apply in_seq; lia | assumption | ].
  exists E. now apply window_scan_error.
Qed.

(** A window all of whose characters are pads or in the decode map fails
    with invalid padding, if it fails. *)
Lemma known_window (e : str) (m : decode_map) (p : DecodingPadding.t)
  (i : nat) :
  (forall k c, (k < W)%nat -> nth_error e (i + k) = Some c ->
     Ascii.eqb c pad = true \/ lookup m c <> None) ->
  (i + W <= List.length e)%nat ->
  error_or_ok InvalidPadding (window e m p i []).
Proof.
  intros Hknown Hlen.
  destruct (for_each_invariant (step e m p i) (fun _ _ => True)
              InvalidPadding 0 W (0, 0) I) as [Herr | (st & Hst & _)].
  - intros st k Hk _.
    destruct (nth_error e (i + k)) as [c | ] eqn:Hc.
    + destruct (step_known e m p i st k c Hc) as [-> | [s' ->]];
        [apply (Hknown k); [lia | assumption] | now left | ].
      right. now exists s'.
    + apply nth_error_None in Hc. lia.
  - left. now apply window_scan_error.
  - now apply (window_checked e m p i st).
Qed.

(** The ordering rule: a character that is not a pad after a pad of the same
    window. *)
Lemma order_violation (e : str) (m : decode_map) (p : DecodingPadding.t)
  (q j j' : nat) (c : ascii) :
  (j < j' < W)%nat ->
  nth_error e (W * q + j) = Some pad ->
  nth_error e (W * q + j') = Some c -> Ascii.eqb c pad = false ->
  (exists E, decode e m p = Err E)
  /\ ((forall q', (q' < q)%nat ->
         error_or_ok InvalidPadding (window e m p (W * q') [])) ->
      (forall k c', (k < j')%nat -> nth_error e (W * q + k) = Some c' ->
         Ascii.eqb c' pad = true \/ lookup m c' <> None) ->
      decode e m p = Err InvalidPadding)
  /\ ((forall k c', (k < W * q + j')%nat -> nth_error e k = Some c' ->
         Ascii.eqb c' pad = true \/ lookup m c' <> None) ->
      decode e m p = Err InvalidPadding).
Proof.
  intros Hj Hpad Hc Hne.
  assert (Hlen : (W * q + j' < List.length e)%nat).
  { apply nth_error_Some. now rewrite Hc. }
  destruct (pad_boundary e (W * q) j j' c) as (k & ck & Hk & Hp & Hck & Hnk);
    [lia | assumption .. | ].
  assert (Hstep : forall st, step e m p (W * q) st k = Err InvalidPadding).
  { intros st. apply (step_after_pad e m p (W * q) st k ck);
      [lia | assumption ..]. }
  assert (Hgen : (forall q', (q' < q)%nat ->
                    error_or_ok InvalidPadding (window e m p (W * q') [])) ->
                 (forall k c', (k < j')%nat ->
                    nth_error e (W * q + k) = Some c' ->
                    Ascii.eqb c' pad = true \/ lookup m c' <> None) ->
                 decode e m p = Err InvalidPadding).
  { intros Hbefore Hknown.
    apply (decode_first_error e m p InvalidPadding q j' Hlen Hbefore).
    apply window_scan_error.
    apply (for_each_first_error (step e m p (W * q)) (fun _ => True)
             InvalidPadding 0 W k); [lia | exact I | | auto].
    intros st k0 Hk0 _.
    destruct (nth_error e (W * q + k0)) as [c0 | ] eqn:Hc0.
    - destruct (step_known e m p (W * q) st k0 c0 Hc0) as [-> | [s' ->]];
        [apply (Hknown k0); [lia | assumption] | now left | ].
      right. now exists s'.
    - apply nth_error_None in Hc0. lia. }
  split; [ | split; [exact Hgen | ]].
  - apply (failing_step e m p q k j'); [assumption | lia | ].
    intros st. rewrite Hstep. eauto.
  - intros Hknown. apply Hgen.
    + intros q' Hq'. apply known_window; [ | nia].
      intros k0 c0 Hk0. apply Hknown. nia.
    + intros k0 c0 Hk0. apply Hknown. lia.
Qed.

Lemma after_pad_false (e : str) (i j : nat) :
  (forall k, (k < i + j)%nat -> nth_error e k <> Some pad) ->
  after_pad e i j = false.
Proof.
  intros Hno. unfold after_pad. destruct j as [| j]; [reflexivity | ].
  cbn [Nat.ltb Nat.leb andb].
  destruct (nth_error e (i + S j - 1)) as [c | ] eqn:Hc; [ | reflexivity].
  cbn [is_pad]. destruct (Ascii.eqb c pad) eqn:Hp; [ | reflexivity].
  apply Ascii.eqb_eq in Hp. subst c. exfalso.
  apply (Hno (i + S j - 1)%nat); [lia | assumption].
Qed.

Lemma not_pad (e : str) (k : nat) (c : ascii) :
  nth_error e k = Some c -> nth_error e k <> Some pad ->
  Ascii.eqb c pad = false.
Proof.
  intros Hc Hne. apply Ascii.eqb_neq. intros ->. now apply Hne.
Qed.

(** A window all of whose characters are data characters after data
    characters: the character loop fails with an invalid character or reads
    [W] characters. *)
Lemma data_window (e : str) (m : decode_map) (p : DecodingPadding.t)
  (i : nat) :
  (forall k, (k < i + W)%nat -> nth_error e k <> Some pad) ->
  (i + W <= List.length e)%nat ->
  error_or_ok InvalidCharacter (window e m p i []).
Proof.
  intros Hno Hlen.
  destruct (for_each_invariant (step e m p i)
              (fun k st => snd st = kbits * Z.of_nat k)
              InvalidCharacter 0 W (0, 0)) as [Herr | (st & Hst & Hbits)].
  - cbn [snd]. lia.
  - intros st k Hk Hbits.
    destruct (nth_error e (i + k)) as [c | ] eqn:Hc.
    + destruct (step_data e m p i st k c Hc) as [-> | [chunk ->]];
        [apply (not_pad e (i + k)); [assumption | apply Hno; lia]
        | apply after_pad_false; intros k' Hk'; apply Hno; lia
        | now left | ].
      right. eexists. split; [reflexivity | ]. cbn [snd]. lia.
    + apply nth_error_None in Hc. lia.
  - left. now apply window_scan_error.
  - right. apply (window_full e m p i st Hst). cbn [Nat.add] in Hbits. lia.
Qed.

(** A character outside the decode map that is not a pad, at position
    [W * q + j]. *)
Lemma bad_character (e : str) (m : decode_map) (p : DecodingPadding.t)
  (q j : nat) (c : ascii) :
  (j < W)%nat ->
  nth_error e (W * q + j) = Some c -> Ascii.eqb c pad = false ->
  lookup m c = None ->
  (exists E, decode e m p = Err E)
  /\ ((forall q', (q' < q)%nat ->
         error_or_ok InvalidCharacter (window e m p (W * q') [])) ->
      (forall k, (k < j)%nat -> nth_error e (W * q + k) <> Some pad) ->
      decode e m p = Err InvalidCharacter)
  /\ ((forall k, (k < W * q + j)%nat -> nth_error e k <> Some pad) ->
      decode e m p = Err InvalidCharacter).
Proof.
  intros Hj Hc Hne Hm.
  assert (Hlen : (W * q + j < List.length e)%nat).
  { apply nth_error_Some. now rewrite Hc. }
  assert (Hgen : (forall q', (q' < q)%nat ->
                    error_or_ok InvalidCharacter (window e m p (W * q') [])) ->
                 (forall k, (k < j)%nat ->
                    nth_error e (W * q + k) <> Some pad) ->
                 decode e m p = Err InvalidCharacter).
  { intros Hbefore Hno.
    assert (Hprev : forall k, (k <= j)%nat -> after_pad e (W * q) k = false).
    { intros k Hk. unfold after_pad. destruct k as [| k]; [reflexivity | ].
      cbn [Nat.ltb Nat.leb andb].
      replace (W * q + S k - 1)%nat with (W * q + k)%nat by lia.
      destruct (nth_error e (W * q + k)) as [c0 | ] eqn:Hc0; [ | reflexivity].
      cbn [is_pad]. apply (not_pad e (W * q + k)); [assumption | ].
      apply Hno. lia. }
    apply (decode_first_error e m p InvalidCharacter q j Hlen Hbefore).
    apply window_scan_error.
    apply (for_each_first_error (step e m p (W * q)) (fun _ => True)
             InvalidCharacter 0 W j); [lia | exact I | | ].
    - intros st k Hk _.
      destruct (nth_error e (W * q + k)) as [c0 | ] eqn:Hc0.
      + destruct (step_data e m p (W * q) st k c0 Hc0) as [-> | [chunk ->]];
          [apply (not_pad e (W * q + k)); [assumption | apply Hno; lia]
          | apply Hprev; lia | now left | ].
        right. eauto.
      + apply nth_error_None in Hc0. lia.
    - intros st _.
      apply (step_bad_char e m p (W * q) st j c Hc Hne Hm).
      apply Hprev. lia. }
  split; [ | split; [exact Hgen | ]].
  - apply (failing_step e m p q j j Hlen Hj). intros st.
    destruct (step_bad_char e m p (W * q) st j c Hc Hne Hm) as [[-> | ->] _];
      eauto.
  - intros Hno. apply Hgen.
    + intros q' Hq'. apply data_window.
      * intros k Hk. apply Hno. nia.
      * nia.
    + intros k Hk. apply Hno. lia.
Qed.

(** C9: in Required mode a last window that the input does not fill. *)
Lemma unaligned (e : str) (m : decode_map) :
  Nat.modulo (List.length e) W <> 0%nat ->
  exists E, decode e m DecodingPadding.Required = Err E.
Proof.
  intros Hmod.
  pose proof (Nat.div_mod_eq (List.length e) W) as HL.
  pose proof (Nat.mod_upper_bound (List.length e) W ltac:(lia)) as Hj.
  set (q := (List.length e / W)%nat) in *.
  set (j := (List.length e mod W)%nat) in *.
  apply (failing_step e m DecodingPadding.Required q j 0); [lia | lia | ].
  intros st. apply step_past_end. lia.
Qed.

(** The error that the first position past the end raises when a data
    character precedes it. *)
Variable end_error : error.
Hypothesis step_past_data : forall e m i st j,
  (List.length e <= i + j)%nat -> after_pad e i j = false ->
  step e m DecodingPadding.Required i st j = Err end_error.

Lemma unaligned_data (e : str) (m : decode_map) :
  Nat.modulo (List.length e) W <> 0%nat ->
  (forall k c, nth_error e k = Some c ->
     Ascii.eqb c pad = false /\ lookup m c <> None) ->
  decode e m DecodingPadding.Required = Err end_error.
Proof.
  intros Hmod Hall.
  pose proof (Nat.div_mod_eq (List.length e) W) as HL.
  pose proof (Nat.mod_upper_bound (List.length e) W ltac:(lia)) as Hj.
  set (q := (List.length e / W)%nat) in *.
  set (j := (List.length e mod W)%nat) in *.
  assert (Hno : forall k, nth_error e k <> Some pad).
  { intros k Hk. destruct (Hall k pad Hk) as [Hp _]. discriminate. }
  assert (Hgood : forall i st k,
             (i + k < List.length e)%nat ->
             exists chunk,
               step e m DecodingPadding.Required i st k
               = Ok (chunk, snd st + kbits)).
  { intros i st k Hk.
    destruct (nth_error e (i + k)) as [c | ] eqn:Hc.
    - destruct (Hall _ _ Hc) as [Hp Hm].
      apply (step_good e m _ i st k c Hc Hp); [ | assumption].
      apply after_pad_false. intros k' _. apply Hno.
    - apply nth_error_None in Hc. lia. }
  apply (decode_first_error e m DecodingPadding.Required end_error q 0);
    [lia | | ].
  - intros q' Hq'.
    destruct (for_each_invariant (step e m DecodingPadding.Required (W * q'))
                (fun k st => snd st = kbits * Z.of_nat k)
                end_error 0 W (0, 0)) as [Herr | (st & Hst & Hbits)].
    + cbn [snd]. lia.
    + intros st k Hk Hbits.
      destruct (Hgood (W * q')%nat st k) as [chunk ->]; [nia | ].
      right. eexists. split; [reflexivity | ]. cbn [snd]. lia.
    + left. now apply window_scan_error.
    + right. apply (window_full e m _ (W * q')%nat st Hst).
      cbn [Nat.add] in Hbits. lia.
  - apply window_scan_error.
    apply (for_each_first_error (step e m DecodingPadding.Required (W * q))
             (fun _ => True) end_error 0 W j); [lia | exact I | | ].
    + intros st k Hk _.
      destruct (Hgood (W * q)%nat st k) as [chunk ->]; [lia | ].
      right. eauto.
    + intros st _. apply step_past_data; [lia | ].
      apply after_pad_false. intros k' _. apply Hno.
Qed.
End Scheme.

Module Base64Errors.
Import Base64.

Lemma b64_loop_eq (e : str) (m : decode_map) (p : DecodingPadding.t)
  (n i : nat) (r : bytes) :
  decode_loop e m p n i r = loop (decode_window e m p) 4 n i r.
Proof.
  revert i r. induction n as [| n IH]; intros i r; [reflexivity | ].
  rewrite Base64Facts.b64_decode_loop_S. cbn [loop].
  destruct (decode_window e m p i r); [apply IH | reflexivity].
Qed.

(** The body of the character loop, by cases on the character read. *)
Lemma b64_scan_step_eq (e : str) (m : decode_map) (p : DecodingPadding.t)
  (i : nat) (st : Z * Z) (j : nat) :
  scan_step e m p i st j
  = match nth_error e (i + j) with
    | Some c =>
        if Ascii.eqb c pad then Ok st
        else if (0 <? j)%nat && is_pad (nth_error e (i + j - 1))
             then Err InvalidPadding
             else match lookup m c with
                  | None => Err InvalidCharacter
                  | Some v =>
                      Ok (JS.or (fst st) (JS.shl v ((3 - Z.of_nat j) * 6)),
                          snd st + 6)
                  end
    | None =>
        match p with
        | DecodingPadding.Ignore => Ok st
        | DecodingPadding.Required =>
            if (0 <? j)%nat && is_pad (nth_error e (i + j - 1))
            then Err InvalidPadding else Err InvalidCharacter
        end
    end.
Proof.
  unfold scan_step. destruct (nth_error e (i + j)) as [c | ] eqn:Hc.
  - assert (Hlen : (List.length e <=? i + j)%nat = false).
    { apply Nat.leb_gt. apply nth_error_Some. now rewrite Hc. }
    rewrite Hlen. cbn [is_pad orb].
    destruct p; destruct (Ascii.eqb c pad); reflexivity.
  - assert (Hlen : (List.length e <=? i + j)%nat = true).
    { apply Nat.leb_le. now apply nth_error_None. }
    rewrite Hlen. cbn [is_pad orb]. destruct p; reflexivity.
Qed.

Lemma b64_step_after_pad (e : str) (m : decode_map) (p : DecodingPadding.t)
  (i : nat) (st : Z * Z) (j : nat) (c : ascii) :
  (0 < j)%nat -> nth_error e (i + j - 1) = Some pad ->
  nth_error e (i + j) = Some c -> Ascii.eqb c pad = false ->
  scan_step e m p i st j = Err InvalidPadding.
Proof.
  intros Hj Hprev Hc Hne. rewrite b64_scan_step_eq, Hc, Hne, Hprev.
  apply Nat.ltb_lt in Hj. now rewrite Hj.
Qed.

Lemma b64_step_bad_char (e : str) (m : decode_map) (p : DecodingPadding.t)
  (i : nat) (st : Z * Z) (j : nat) (c : ascii) :
  nth_error e (i + j) = Some c -> Ascii.eqb c pad = false ->
  lookup m c = None ->
  (scan_step e m p i st j = Err InvalidCharacter
   \/ scan_step e m p i st j = Err InvalidPadding)
  /\ ((0 <? j)%nat && is_pad (nth_error e (i + j - 1)) = false ->
      scan_step e m p i st j = Err InvalidCharacter).
Proof.
  intros Hc Hne Hm. rewrite b64_scan_step_eq, Hc, Hne, Hm.
  destruct ((0 <? j)%nat && is_pad (nth_error e (i + j - 1))); auto.
  split; [auto | discriminate].
Qed.

Lemma b64_step_known (e : str) (m : decode_map) (p : DecodingPadding.t)
  (i : nat) (st : Z * Z) (j : nat) (c : ascii) :
  nth_error e (i + j) = Some c ->
  Ascii.eqb c pad = true \/ lookup m c <> None ->
  error_or_ok InvalidPadding (scan_step e m p i st j).
Proof.
  intros Hc Hk. rewrite b64_scan_step_eq, Hc. unfold error_or_ok.
  destruct (Ascii.eqb c pad); [eauto | ].
  destruct ((0 <? j)%nat && is_pad (nth_error e (i + j - 1))); [auto | ].
  destruct Hk as [Hk | Hk]; [discriminate | ].
  destruct (lookup m c); [eauto | easy].
Qed.

Lemma b64_step_data (e : str) (m : decode_map) (p : DecodingPadding.t)
  (i : nat) (st : Z * Z) (j : nat) (c : ascii) :
  nth_error e (i + j) = Some c -> Ascii.eqb c pad = false ->
  (0 <? j)%nat && is_pad (nth_error e (i + j - 1)) = false ->
  scan_step e m p i st j = Err InvalidCharacter
  \/ exists chunk, scan_step e m p i st j = Ok (chunk, snd st + 6).
Proof.
  intros Hc Hne Hprev. rewrite b64_scan_step_eq, Hc, Hne, Hprev.
  destruct (lookup m c); eauto.
Qed.

Lemma b64_step_past_end (e : str) (m : decode_map) (i : nat) (st : Z * Z)
  (j : nat) :
  (List.length e <= i + j)%nat ->
  scan_step e m DecodingPadding.Required i st j
  = Err (if (0 <? j)%nat && is_pad (nth_error e (i + j - 1))
         then InvalidPadding else InvalidCharacter).
Proof.
  intros Hlen. apply nth_error_None in Hlen.
  rewrite b64_scan_step_eq, Hlen.
  now destruct ((0 <? j)%nat && is_pad (nth_error e (i + j - 1))).
Qed.

Lemma b64_check_cases (chunk bits : Z) :
  error_or_ok InvalidPadding (check chunk bits).
Proof.
  unfold check, error_or_ok. destruct (bits <? 24); [ | eauto].
  destruct (bits =? 12); cbn [bind].
  - destruct (negb (JS.and chunk 65535 =? 0)); eauto.
  - destruct (bits =? 18); cbn [bind]; [ | auto].
    destruct (negb (JS.and chunk 255 =? 0)); eauto.
Qed.

Lemma b64_window_scan_error (e : str) (m : decode_map)
  (p : DecodingPadding.t) (i : nat) (r : bytes) (E : error) :
  scan e m p i = Err E -> decode_window e m p i r = Err E.
Proof. intros H. unfold decode_window. now rewrite H. Qed.

(** Decoding fails as soon as one window does. *)
Lemma b64_decode_fails (e : str) (m : decode_map) (p : DecodingPadding.t)
  (q j : nat) :
  (4 * q + j < List.length e)%nat ->
  (exists E, decode_window e m p (4 * q) [] = Err E) ->
  exists E, decodeBase64_internal e m p = Err E.
Proof.
  intros Hq HE. unfold decodeBase64_internal. rewrite b64_loop_eq.
  apply (loop_fails _ 4 (Base64Facts.b64_decode_window_acc e m p) _ 0 q).
  - apply (window_index _ 4 q j); [lia | assumption].
  - exact HE.
Qed.

Lemma b64_decode_first_error (e : str) (m : decode_map)
  (p : DecodingPadding.t) (E : error) (q j : nat) :
  (4 * q + j < List.length e)%nat ->
  (forall q', (q' < q)%nat ->
     error_or_ok E (decode_window e m p (4 * q') [])) ->
  decode_window e m p (4 * q) [] = Err E ->
  decodeBase64_internal e m p = Err E.
Proof.
  intros Hq Hbefore Hat. unfold decodeBase64_internal. rewrite b64_loop_eq.
  apply (loop_first_error _ 4 (Base64Facts.b64_decode_window_acc e m p)
           E _ 0 q).
  - apply (window_index _ 4 q j); [lia | assumption].
  - exact Hbefore.
  - exact Hat.
Qed.

Lemma b64_step_good (e : str) (m : decode_map) (p : DecodingPadding.t)
  (i : nat) (st : Z * Z) (j : nat) (c : ascii) :
  nth_error e (i + j) = Some c -> Ascii.eqb c pad = false ->
  after_pad e i j = false -> lookup m c <> None ->
  exists chunk, scan_step e m p i st j = Ok (chunk, snd st + 6).
Proof.
  intros Hc Hne Hprev Hm. unfold after_pad in Hprev.
  rewrite b64_scan_step_eq, Hc, Hne, Hprev.
  destruct (lookup m c); [eauto | easy].
Qed.

Lemma b64_step_past_end_fails (e : str) (m : decode_map) (i : nat)
  (st : Z * Z) (j : nat) :
  (List.length e <= i + j)%nat ->
  exists E, scan_step e m DecodingPadding.Required i st j = Err E.
Proof. intros H. rewrite b64_step_past_end by assumption. eauto. Qed.

Lemma b64_step_past_data (e : str) (m : decode_map) (i : nat)
  (st : Z * Z) (j : nat) :
  (List.length e <= i + j)%nat -> after_pad e i j = false ->
  scan_step e m DecodingPadding.Required i st j = Err InvalidCharacter.
Proof.
  intros H Hprev. unfold after_pad in Hprev.
  rewrite b64_step_past_end by assumption. now rewrite Hprev.
Qed.

Lemma b64_window_checked (e : str) (m : decode_map) (p : DecodingPadding.t)
  (i : nat) (st : Z * Z) :
  scan e m p i = Ok st -> error_or_ok InvalidPadding (decode_window e m p i []).
Proof.
  intros H. unfold decode_window. rewrite H. cbn [bind].
  destruct (b64_check_cases (fst st) (snd st)) as [-> | [u ->]];
    [now left | right; cbn [bind]; eauto].
Qed.

Lemma b64_window_complete (e : str) (m : decode_map) (p : DecodingPadding.t)
  (i : nat) (st : Z * Z) :
  scan e m p i = Ok st -> snd st = 6 * Z.of_nat 4 ->
  exists w, decode_window e m p i [] = Ok w.
Proof.
  intros H Hbits. unfold decode_window. rewrite H. cbn [bind].
  rewrite Hbits. change (check (fst st) (6 * Z.of_nat 4)) with (Ok tt).
  cbn [bind]. eauto.
Qed.

Ltac b64_scheme :=
  first [ exact b64_step_after_pad | exact b64_step_bad_char
        | exact b64_step_known | exact b64_step_data | exact b64_step_good
        | exact b64_step_past_end_fails | exact b64_step_past_data
        | exact b64_window_scan_error | exact b64_window_checked
        | exact b64_window_complete | exact b64_decode_fails
        | exact b64_decode_first_error | lia | eassumption ].

Lemma b64_order_violation (e : str) (m : decode_map) (p : DecodingPadding.t)
  (q j j' : nat) (c : ascii) :
  (j < j' < 4)%nat ->
  nth_error e (4 * q + j) = Some pad ->
  nth_error e (4 * q + j') = Some c -> Ascii.eqb c pad = false ->
  (exists E, decodeBase64_internal e m p = Err E)
  /\ ((forall q', (q' < q)%nat ->
         error_or_ok InvalidPadding (decode_window e m p (4 * q') [])) ->
      (forall k c', (k < j')%nat -> nth_error e (4 * q + k) = Some c' ->
         Ascii.eqb c' pad = true \/ lookup m c' <> None) ->
      decodeBase64_internal e m p = Err InvalidPadding)
  /\ ((forall k c', (k < 4 * q + j')%nat -> nth_error e k = Some c' ->
         Ascii.eqb c' pad = true \/ lookup m c' <> None) ->
      decodeBase64_internal e m p = Err InvalidPadding).
Proof.
  intros Hj Hpad Hc Hne.
  apply (order_violation 4 scan_step decode_window decodeBase64_internal)
    with (j := j) (c := c); b64_scheme.
Qed.

Lemma b64_bad_character (e : str) (m : decode_map) (p : DecodingPadding.t)
  (q j : nat) (c : ascii) :
  (j < 4)%nat ->
  nth_error e (4 * q + j) = Some c -> Ascii.eqb c pad = false ->
  lookup m c = None ->
  (exists E, decodeBase64_internal e m p = Err E)
  /\ ((forall q', (q' < q)%nat ->
         error_or_ok InvalidCharacter (decode_window e m p (4 * q') [])) ->
      (forall k, (k < j)%nat -> nth_error e (4 * q + k) <> Some pad) ->
      decodeBase64_internal e m p = Err InvalidCharacter)
  /\ ((forall k, (k < 4 * q + j)%nat -> nth_error e k <> Some pad) ->
      decodeBase64_internal e m p = Err InvalidCharacter).
Proof.
  intros Hj Hc Hne Hm.
  apply (bad_character 4 6 scan_step decode_window decodeBase64_internal)
    with (c := c); b64_scheme.
Qed.

Lemma b64_unaligned (e : str) (m : decode_map) :
  Nat.modulo (List.length e) 4 <> 0%nat ->
  exists E, decodeBase64_internal e m DecodingPadding.Required = Err E.
Proof.
  intros Hmod.
  apply (unaligned 4 scan_step decode_window decodeBase64_internal);
    b64_scheme.
Qed.

Lemma b64_unaligned_data (e : str) (m : decode_map) :
  Nat.modulo (List.length e) 4 <> 0%nat ->
  (forall k c, nth_error e k = Some c ->
     Ascii.eqb c pad = false /\ lookup m c <> None) ->
  decodeBase64_internal e m DecodingPadding.Required = Err InvalidCharacter.
Proof.
  intros Hmod Hall.
  apply (unaligned_data 4 6 scan_step decode_window decodeBase64_internal);
    b64_scheme.
Qed.

End Base64Errors.

Module Base32Errors.
Import Base32.

Lemma b32_loop_eq (e : str) (m : decode_map) (p : DecodingPadding.t)
  (n i : nat) (r : bytes) :
  decode_loop e m p n i r = loop (decode_window e m p) 8 n i r.
Proof.
  revert i r. induction n as [| n IH]; intros i r; [reflexivity | ].
  rewrite Base32Facts.b32_decode_loop_S. cbn [loop].
  destruct (decode_window e m p i r); [apply IH | reflexivity].
Qed.

(** The body of the character loop, by cases on the character read. *)
Lemma b32_scan_step_eq (e : str) (m : decode_map) (p : DecodingPadding.t)
  (i : nat) (st : Z * Z) (j : nat) :
  scan_step e m p i st j
  = match nth_error e (i + j) with
    | Some c =>
        if Ascii.eqb c pad then Ok st
        else if (0 <? j)%nat && is_pad (nth_error e (i + j - 1))
             then Err InvalidPadding
             else match lookup m c with
                  | None => Err InvalidCharacter
                  | Some v =>
                      Ok (Z.lor (fst st) (Z.shiftl v ((7 - Z.of_nat j) * 5)),
                          snd st + 5)
                  end
    | None =>
        match p with
        | DecodingPadding.Ignore => Ok st
        | DecodingPadding.Required => Err InvalidPadding
        end
    end.
Proof.
  unfold scan_step. destruct (nth_error e (i + j)) as [c | ] eqn:Hc.
  - assert (Hlen : (List.length e <=? i + j)%nat = false).
    { apply Nat.leb_gt. apply nth_error_Some. now rewrite Hc. }
    rewrite Hlen. cbn [is_pad orb].
    destruct p; destruct (Ascii.eqb c pad); reflexivity.
  - assert (Hlen : (List.length e <=? i + j)%nat = true).
    { apply Nat.leb_le. now apply nth_error_None. }
    rewrite Hlen. cbn [is_pad orb]. destruct p; reflexivity.
Qed.

Lemma b32_step_after_pad (e : str) (m : decode_map) (p : DecodingPadding.t)
  (i : nat) (st : Z * Z) (j : nat) (c : ascii) :
  (0 < j)%nat -> nth_error e (i + j - 1) = Some pad ->
  nth_error e (i + j) = Some c -> Ascii.eqb c pad = false ->
  scan_step e m p i st j = Err InvalidPadding.
Proof.
  intros Hj Hprev Hc Hne. rewrite b32_scan_step_eq, Hc, Hne, Hprev.
  apply Nat.ltb_lt in Hj. now rewrite Hj.
Qed.

Lemma b32_step_bad_char (e : str) (m : decode_map) (p : DecodingPadding.t)
  (i : nat) (st : Z * Z) (j : nat) (c : ascii) :
  nth_error e (i + j) = Some c -> Ascii.eqb c pad = false ->
  lookup m c = None ->
  (scan_step e m p i st j = Err InvalidCharacter
   \/ scan_step e m p i st j = Err InvalidPadding)
  /\ ((0 <? j)%nat && is_pad (nth_error e (i + j - 1)) = false ->
      scan_step e m p i st j = Err InvalidCharacter).
Proof.
  intros Hc Hne Hm. rewrite b32_scan_step_eq, Hc, Hne, Hm.
  destruct ((0 <? j)%nat && is_pad (nth_error e (i + j - 1))); auto.
  split; [auto | discriminate].
Qed.

Lemma b32_step_known (e : str) (m : decode_map) (p : DecodingPadding.t)
  (i : nat) (st : Z * Z) (j : nat) (c : ascii) :
  nth_error e (i + j) = Some c ->
  Ascii.eqb c pad = true \/ lookup m c <> None ->
  error_or_ok InvalidPadding (scan_step e m p i st j).
Proof.
  intros Hc Hk. rewrite b32_scan_step_eq, Hc. unfold error_or_ok.
  destruct (Ascii.eqb c pad); [eauto | ].
  destruct ((0 <? j)%nat && is_pad (nth_error e (i + j - 1))); [auto | ].
  destruct Hk as [Hk | Hk]; [discriminate | ].
  destruct (lookup m c); [eauto | easy].
Qed.

Lemma b32_step_data (e : str) (m : decode_map) (p : DecodingPadding.t)
  (i : nat) (st : Z * Z) (j : nat) (c : ascii) :
  nth_error e (i + j) = Some c -> Ascii.eqb c pad = false ->
  (0 <? j)%nat && is_pad (nth_error e (i + j - 1)) = false ->
  scan_step e m p i st j = Err InvalidCharacter
  \/ exists chunk, scan_step e m p i st j = Ok (chunk, snd st + 5).
Proof.
  intros Hc Hne Hprev. rewrite b32_scan_step_eq, Hc, Hne, Hprev.
  destruct (lookup m c); eauto.
Qed.

Lemma b32_step_past_end (e : str) (m : decode_map) (i : nat) (st : Z * Z)
  (j : nat) :
  (List.length e <= i + j)%nat ->
  scan_step e m DecodingPadding.Required i st j = Err InvalidPadding.
Proof.
  intros Hlen. apply nth_error_None in Hlen.
  now rewrite b32_scan_step_eq, Hlen.
Qed.

Lemma b32_check_cases (chunk bits : Z) :
  error_or_ok InvalidPadding (check chunk bits).
Proof.
  unfold check, error_or_ok. destruct (bits <? 40); [ | eauto].
  destruct (bits =? 10); cbn [bind];
    [destruct (negb (Z.land chunk 4294967295 =? 0)); eauto | ].
  destruct (bits =? 20); cbn [bind];
    [destruct (negb (Z.land chunk 16777215 =? 0)); eauto | ].
  destruct (bits =? 25); cbn [bind];
    [destruct (negb (Z.land chunk 65535 =? 0)); eauto | ].
  destruct (bits =? 35); cbn [bind];
    [destruct (negb (Z.land chunk 255 =? 0)); eauto | auto].
Qed.

Lemma b32_window_scan_error (e : str) (m : decode_map)
  (p : DecodingPadding.t) (i : nat) (r : bytes) (E : error) :
  scan e m p i = Err E -> decode_window e m p i r = Err E.
Proof. intros H. unfold decode_window. now rewrite H. Qed.

(** Decoding fails as soon as one window does. *)
Lemma b32_decode_fails (e : str) (m : decode_map) (p : DecodingPadding.t)
  (q j : nat) :
  (8 * q + j < List.length e)%nat ->
  (exists E, decode_window e m p (8 * q) [] = Err E) ->
  exists E, decodeBase32_internal e m p = Err E.
Proof.
  intros Hq HE. unfold decodeBase32_internal. rewrite b32_loop_eq.
  apply (loop_fails _ 8 (Base32Facts.b32_decode_window_acc e m p) _ 0 q).
  - apply (window_index _ 8 q j); [lia | assumption].
  - exact HE.
Qed.

Lemma b32_decode_first_error (e : str) (m : decode_map)
  (p : DecodingPadding.t) (E : error) (q j : nat) :
  (8 * q + j < List.length e)%nat ->
  (forall q', (q' < q)%nat ->
     error_or_ok E (decode_window e m p (8 * q') [])) ->
  decode_window e m p (8 * q) [] = Err E ->
  decodeBase32_internal e m p = Err E.
Proof.
  intros Hq Hbefore Hat. unfold decodeBase32_internal. rewrite b32_loop_eq.
  apply (loop_first_error _ 8 (Base32Facts.b32_decode_window_acc e m p)
           E _ 0 q).
  - apply (window_index _ 8 q j); [lia | assumption].
  - exact Hbefore.
  - exact Hat.
Qed.

Lemma b32_step_good (e : str) (m : decode_map) (p : DecodingPadding.t)
  (i : nat) (st : Z * Z) (j : nat) (c : ascii) :
  nth_error e (i + j) = Some c -> Ascii.eqb c pad = false ->
  after_pad e i j = false -> lookup m c <> None ->
  exists chunk, scan_step e m p i st j = Ok (chunk, snd st + 5).
Proof.
  intros Hc Hne Hprev Hm. unfold after_pad in Hprev.
  rewrite b32_scan_step_eq, Hc, Hne, Hprev.
  destruct (lookup m c); [eauto | easy].
Qed.

Lemma b32_step_past_end_fails (e : str) (m : decode_map) (i : nat)
  (st : Z * Z) (j : nat) :
  (List.length e <= i + j)%nat ->
  exists E, scan_step e m DecodingPadding.Required i st j = Err E.
Proof. intros H. rewrite b32_step_past_end by assumption. eauto. Qed.

Lemma b32_step_past_data (e : str) (m : decode_map) (i : nat)
  (st : Z * Z) (j : nat) :
  (List.length e <= i + j)%nat -> after_pad e i j = false ->
  scan_step e m DecodingPadding.Required i st j = Err InvalidPadding.
Proof. intros H _. now apply b32_step_past_end. Qed.

Lemma b32_window_checked (e : str) (m : decode_map) (p : DecodingPadding.t)
  (i : nat) (st : Z * Z) :
  scan e m p i = Ok st -> error_or_ok InvalidPadding (decode_window e m p i []).
Proof.
  intros H. unfold decode_window. rewrite H. cbn [bind].
  destruct (b32_check_cases (fst st) (snd st)) as [-> | [u ->]];
    [now left | right; cbn [bind]; eauto].
Qed.

Lemma b32_window_complete (e : str) (m : decode_map) (p : DecodingPadding.t)
  (i : nat) (st : Z * Z) :
  scan e m p i = Ok st -> snd st = 5 * Z.of_nat 8 ->
  exists w, decode_window e m p i [] = Ok w.
Proof.
  intros H Hbits. unfold decode_window. rewrite H. cbn [bind].
  rewrite Hbits. change (check (fst st) (5 * Z.of_nat 8)) with (Ok tt).
  cbn [bind]. eauto.
Qed.

Ltac b32_scheme :=
  first [ exact b32_step_after_pad | exact b32_step_bad_char
        | exact b32_step_known | exact b32_step_data | exact b32_step_good
        | exact b32_step_past_end_fails | exact b32_step_past_data
        | exact b32_window_scan_error | exact b32_window_checked
        | exact b32_window_complete | exact b32_decode_fails
        | exact b32_decode_first_error | lia | eassumption ].

Lemma b32_order_violation (e : str) (m : decode_map) (p : DecodingPadding.t)
  (q j j' : nat) (c : ascii) :
  (j < j' < 8)%nat ->
  nth_error e (8 * q + j) = Some pad ->
  nth_error e (8 * q + j') = Some c -> Ascii.eqb c pad = false ->
  (exists E, decodeBase32_internal e m p = Err E)
  /\ ((forall q', (q' < q)%nat ->
         error_or_ok InvalidPadding (decode_window e m p (8 * q') [])) ->
      (forall k c', (k < j')%nat -> nth_error e (8 * q + k) = Some c' ->
         Ascii.eqb c' pad = true \/ lookup m c' <> None) ->
      decodeBase32_internal e m p = Err InvalidPadding)
  /\ ((forall k c', (k < 8 * q + j')%nat -> nth_error e k = Some c' ->
         Ascii.eqb c' pad = true \/ lookup m c' <> None) ->
      decodeBase32_internal e m p = Err InvalidPadding).
Proof.
  intros Hj Hpad Hc Hne.
  apply (order_violation 8 scan_step decode_window decodeBase32_internal)
    with (j := j) (c := c); b32_scheme.
Qed.

Lemma b32_bad_character (e : str) (m : decode_map) (p : DecodingPadding.t)
  (q j : nat) (c : ascii) :
  (j < 8)%nat ->
  nth_error e (8 * q + j) = Some c -> Ascii.eqb c pad = false ->
  lookup m c = None ->
  (exists E, decodeBase32_internal e m p = Err E)
  /\ ((forall q', (q' < q)%nat ->
         error_or_ok InvalidCharacter (decode_window e m p (8 * q') [])) ->
      (forall k, (k < j)%nat -> nth_error e (8 * q + k) <> Some pad) ->
      decodeBase32_internal e m p = Err InvalidCharacter)
  /\ ((forall k, (k < 8 * q + j)%nat -> nth_error e k <> Some pad) ->
      decodeBase32_internal e m p = Err InvalidCharacter).
Proof.
  intros Hj Hc Hne Hm.
  apply (bad_character 8 5 scan_step decode_window decodeBase32_internal)
    with (c := c); b32_scheme.
Qed.

Lemma b32_unaligned (e : str) (m : decode_map) :
  Nat.modulo (List.length e) 8 <> 0%nat ->
  exists E, decodeBase32_internal e m DecodingPadding.Required = Err E.
Proof.
  intros Hmod.
  apply (unaligned 8 scan_step decode_window decodeBase32_internal);
    b32_scheme.
Qed.

Lemma b32_unaligned_data (e : str) (m : decode_map) :
  Nat.modulo (List.length e) 8 <> 0%nat ->
  (forall k c, nth_error e k = Some c ->
     Ascii.eqb c pad = false /\ lookup m c <> None) ->
  decodeBase32_internal e m DecodingPadding.Required = Err InvalidPadding.
Proof.
  intros Hmod Hall.
  apply (unaligned_data 8 5 scan_step decode_window decodeBase32_internal);
    b32_scheme.
Qed.

End Base32Errors.

(** ** The check of a short window *)

Lemma for_each_ok_invariant {St} (f : St -> nat -> res St) (I : St -> Prop)
  (js : list nat) (s s' : St) :
  (forall s j s', f s j = Ok s' -> I s -> I s') ->
  I s -> for_each f js s = Ok s' -> I s'.
Proof.
  intros Hstep. revert s. induction js as [| j js IH]; intros s Hs Hok.
  - cbn [for_each] in Hok. now injection Hok as <-.
  - cbn [for_each] in Hok.
    destruct (f s j) as [s1 | ] eqn:H1; [ | discriminate].
    cbn [bind] in Hok. apply (IH s1); [ | assumption]. now apply (Hstep s j).
Qed.

Lemma int32_range (z : Z) : -2147483648 <= JS.int32 z < 2147483648.
Proof.
  unfold JS.int32. pose proof (Z.mod_pos_bound (z + 2147483648) 4294967296).
  lia.
Qed.

Lemma js_and_mask (a n : Z) :
  -2147483648 <= a < 2147483648 -> 0 <= n < 32 ->
  JS.and a (Z.ones n) = Z.land a (Z.ones n).
Proof.
  intros Ha Hn. unfold JS.and.
  assert (Hp : 0 < 2 ^ n <= 2 ^ 31).
  { split; [apply Z.pow_pos_nonneg; lia | apply Z.pow_le_mono_r; lia]. }
  change (2 ^ 31) with 2147483648 in Hp.
  rewrite (int32_small a) by lia.
  rewrite (int32_small (Z.ones n)) by (rewrite Z.ones_equiv; lia).
  apply int32_small. rewrite Z.land_ones by lia.
  pose proof (Z.mod_pos_bound a (2 ^ n)). lia.
Qed.

Lemma b64_scan_range (e : str) (m : decode_map) (p : DecodingPadding.t)
  (i : nat) (chunk bits : Z) :
  Base64.scan e m p i = Ok (chunk, bits) ->
  -2147483648 <= chunk < 2147483648.
Proof.
  intros H.
  apply (for_each_ok_invariant (Base64.scan_step e m p i)
           (fun st => -2147483648 <= fst st < 2147483648)
           (seq 0 4) (0, 0) (chunk, bits)); [ | cbn [fst]; lia | exact H].
  intros st j st' Hst Hr. rewrite Base64Errors.b64_scan_step_eq in Hst.
  destruct (nth_error e (i + j)) as [c | ].
  - destruct (Ascii.eqb c pad); [now injection Hst as <- | ].
    destruct (after_pad e i j) eqn:Hp; unfold after_pad in Hp;
      rewrite Hp in Hst;
      [discriminate | ].
    destruct (lookup m c); [ | discriminate].
    injection Hst as <-. cbn [fst]. apply int32_range.
  - destruct p; [ | now injection Hst as <-].
    destruct ((0 <? j)%nat && is_pad (nth_error e (i + j - 1))); discriminate.
Qed.

Lemma b64_check_short (chunk bits : Z) :
  -2147483648 <= chunk < 2147483648 -> bits < 24 ->
  (valid_short 6 bits /\ unused_bits 24 chunk bits = 0 ->
   Base64.check chunk bits = Ok tt)
  /\ (~ (valid_short 6 bits /\ unused_bits 24 chunk bits = 0) ->
      Base64.check chunk bits = Err InvalidPadding).
Proof.
  intros Hc Hb. unfold Base64.check, valid_short, unused_bits.
  cbn [Z.eqb Pos.eqb].
  destruct (Z.ltb_spec bits 24) as [_ | ?]; [ | lia].
  destruct (Z.eqb_spec bits 12) as [-> | H12].
  { cbn [bind]. change 65535 with (Z.ones 16). rewrite js_and_mask by lia.
    change (Z.ones (24 - 8 * (12 / 8))) with (Z.ones 16).
    destruct (Z.eqb_spec (Z.land chunk (Z.ones 16)) 0) as [E | NE]; cbn [negb].
    - split; [reflexivity | ]. intros H. exfalso. apply H. auto.
    - split; [ | reflexivity]. intros [_ H]. contradiction. }
  destruct (Z.eqb_spec bits 18) as [-> | H18].
  { cbn [bind]. change 255 with (Z.ones 8). rewrite js_and_mask by lia.
    change (Z.ones (24 - 8 * (18 / 8))) with (Z.ones 8).
    destruct (Z.eqb_spec (Z.land chunk (Z.ones 8)) 0) as [E | NE]; cbn [negb].
    - split; [reflexivity | ]. intros H. exfalso. apply H. auto.
    - split; [ | reflexivity]. intros [_ H]. contradiction. }
  cbn [bind]. split; [ | reflexivity]. intros [[? | ?] _]; contradiction.
Qed.

Lemma b32_check_short_spec (chunk bits : Z) :
  bits < 40 ->
  (valid_short 5 bits /\ unused_bits 40 chunk bits = 0 ->
   Base32.check chunk bits = Ok tt)
  /\ (~ (valid_short 5 bits /\ unused_bits 40 chunk bits = 0) ->
      Base32.check chunk bits = Err InvalidPadding).
Proof.
  intros Hb. unfold Base32.check, valid_short, unused_bits.
  cbn [Z.eqb Pos.eqb].
  destruct (Z.ltb_spec bits 40) as [_ | ?]; [ | lia].
  destruct (Z.eqb_spec bits 10) as [-> | H10].
  { cbn [bind]. change (Z.ones (40 - 8 * (10 / 8))) with 4294967295.
    destruct (Z.eqb_spec (Z.land chunk 4294967295) 0) as [E | NE]; cbn [negb].
    - split; [reflexivity | ]. intros H. exfalso. apply H. auto.
    - split; [ | reflexivity]. intros [_ H]. contradiction. }
  destruct (Z.eqb_spec bits 20) as [-> | H20].
  { cbn [bind]. change (Z.ones (40 - 8 * (20 / 8))) with 16777215.
    destruct (Z.eqb_spec (Z.land chunk 16777215) 0) as [E | NE]; cbn [negb].
    - split; [reflexivity | ]. intros H. exfalso. apply H. auto 6.
    - split; [ | reflexivity]. intros [_ H]. contradiction. }
  destruct (Z.eqb_spec bits 25) as [-> | H25].
  { cbn [bind]. change (Z.ones (40 - 8 * (25 / 8))) with 65535.
    destruct (Z.eqb_spec (Z.land chunk 65535) 0) as [E | NE]; cbn [negb].
    - split; [reflexivity | ]. intros H. exfalso. apply H. auto 6.
    - split; [ | reflexivity]. intros [_ H]. contradiction. }
  destruct (Z.eqb_spec bits 35) as [-> | H35].
  { cbn [bind]. change (Z.ones (40 - 8 * (35 / 8))) with 255.
    destruct (Z.eqb_spec (Z.land chunk 255) 0) as [E | NE]; cbn [negb].
    - split; [reflexivity | ]. intros H. exfalso. apply H. auto 6.
    - split; [ | reflexivity]. intros [_ H]. contradiction. }
  cbn [bind]. split; [ | reflexivity].
  intros [[? | [? | [? | ?]]] _]; contradiction.
Qed.

Lemma short_ok_dec (k width chunk bits : Z) :
  (valid_short k bits /\ unused_bits width chunk bits = 0)
  \/ ~ (valid_short k bits /\ unused_bits width chunk bits = 0).
Proof.
  destruct (Z.eq_dec (unused_bits width chunk bits) 0) as [E | NE];
    [ | right; tauto].
  assert (D : valid_short k bits \/ ~ valid_short k bits).
  { unfold valid_short. destruct (k =? 6); lia. }
  destruct D; [left | right]; tauto.
Qed.

Lemma b64_short_window (e : str) (m : decode_map) (p : DecodingPadding.t)
  (q : nat) (chunk bits : Z) :
  (4 * q < List.length e)%nat ->
  Base64.scan e m p (4 * q) = Ok (chunk, bits) -> bits < 24 ->
  (valid_short 6 bits /\ unused_bits 24 chunk bits = 0 ->
   Base64.decode_window e m p (4 * q) [] = Ok (Base64.extract chunk bits []))
  /\ (~ (valid_short 6 bits /\ unused_bits 24 chunk bits = 0) ->
      Base64.decode_window e m p (4 * q) [] = Err InvalidPadding
      /\ (exists E, Base64.decodeBase64_internal e m p = Err E)
      /\ ((forall q', (q' < q)%nat ->
             exists w, Base64.decode_window e m p (4 * q') [] = Ok w) ->
          Base64.decodeBase64_internal e m p = Err InvalidPadding))
  /\ (forall out, Base64.decodeBase64_internal e m p = Ok out ->
        valid_short 6 bits /\ unused_bits 24 chunk bits = 0).
Proof.
  intros Hq Hscan Hbits.
  pose proof (b64_scan_range e m p (4 * q) chunk bits Hscan) as Hr.
  destruct (b64_check_short chunk bits Hr Hbits) as [Hok Hbad].
  assert (Hfail : ~ (valid_short 6 bits /\ unused_bits 24 chunk bits = 0) ->
                  Base64.decode_window e m p (4 * q) [] = Err InvalidPadding).
  { intros Hn. unfold Base64.decode_window. rewrite Hscan. cbn [bind fst snd].
    now rewrite (Hbad Hn). }
  split; [ | split].
  - intros Hv. unfold Base64.decode_window. rewrite Hscan. cbn [bind fst snd].
    now rewrite (Hok Hv).
  - intros Hn. split; [now apply Hfail | split].
    + apply (Base64Errors.b64_decode_fails e m p q 0); [lia | ].
      exists InvalidPadding. now apply Hfail.
    + intros Hbefore.
      apply (Base64Errors.b64_decode_first_error e m p InvalidPadding q 0);
        [lia | | now apply Hfail].
      intros q' Hq'. right. now apply Hbefore.
  - intros out Hout.
    destruct (short_ok_dec 6 24 chunk bits) as [Hv | Hn]; [assumption | ].
    destruct (Base64Errors.b64_decode_fails e m p q 0) as [E HE]; [lia | | ].
    + exists InvalidPadding. now apply Hfail.
    + congruence.
Qed.

Lemma b32_short_window (e : str) (m : decode_map) (p : DecodingPadding.t)
  (q : nat) (chunk bits : Z) :
  (8 * q < List.length e)%nat ->
  Base32.scan e m p (8 * q) = Ok (chunk, bits) -> bits < 40 ->
  (valid_short 5 bits /\ unused_bits 40 chunk bits = 0 ->
   Base32.decode_window e m p (8 * q) [] = Ok (Base32.extract chunk bits []))
  /\ (~ (valid_short 5 bits /\ unused_bits 40 chunk bits = 0) ->
      Base32.decode_window e m p (8 * q) [] = Err InvalidPadding
      /\ (exists E, Base32.decodeBase32_internal e m p = Err E)
      /\ ((forall q', (q' < q)%nat ->
             exists w, Base32.decode_window e m p (8 * q') [] = Ok w) ->
          Base32.decodeBase32_internal e m p = Err InvalidPadding))
  /\ (forall out, Base32.decodeBase32_internal e m p = Ok out ->
        valid_short 5 bits /\ unused_bits 40 chunk bits = 0).
Proof.
  intros Hq Hscan Hbits.
  destruct (b32_check_short_spec chunk bits Hbits) as [Hok Hbad].
  assert (Hfail : ~ (valid_short 5 bits /\ unused_bits 40 chunk bits = 0) ->
                  Base32.decode_window e m p (8 * q) [] = Err InvalidPadding).
  { intros Hn. unfold Base32.decode_window. rewrite Hscan. cbn [bind fst snd].
    now rewrite (Hbad Hn). }
  split; [ | split].
  - intros Hv. unfold Base32.decode_window. rewrite Hscan. cbn [bind fst snd].
    now rewrite (Hok Hv).
  - intros Hn. split; [now apply Hfail | split].
    + apply (Base32Errors.b32_decode_fails e m p q 0); [lia | ].
      exists InvalidPadding. now apply Hfail.
    + intros Hbefore.
      apply (Base32Errors.b32_decode_first_error e m p InvalidPadding q 0);
        [lia | | now apply Hfail].
      intros q' Hq'. right. now apply Hbefore.
  - intros out Hout.
    destruct (short_ok_dec 5 40 chunk bits) as [Hv | Hn]; [assumption | ].
    destruct (Base32Errors.b32_decode_fails e m p q 0) as [E HE]; [lia | | ].
    + exists InvalidPadding. now apply Hfail.
    + congruence.
Qed.

(** ** The first failure *)

Lemma least_index (P : nat -> Prop) (n : nat) :
  (forall k, P k \/ ~ P k) -> P n ->
  exists n0, (n0 <= n)%nat /\ P n0 /\ forall k, (k < n0)%nat -> ~ P k.
Proof.
  intros Hdec Hn.
  assert (H : forall b, (forall k, (k < b)%nat -> ~ P k)
                        \/ exists n0, (n0 < b)%nat /\ P n0
                             /\ forall k, (k < n0)%nat -> ~ P k).
  { induction b as [| b [IH | (n0 & Hlt & Hp & Hmin)]].
    - left. intros k Hk. lia.
    - destruct (Hdec b) as [Hb | Hb].
      + right. exists b. repeat split; [lia | assumption | assumption].
      + left. intros k Hk. destruct (Nat.eq_dec k b) as [-> | Hne];
          [assumption | apply IH; lia].
    - right. exists n0. repeat split; [lia | assumption | assumption]. }
  destruct (H n) as [Hnone | (n0 & Hlt & Hp & Hmin)].
  - exists n. repeat split; [lia | assumption | assumption].
  - exists n0. repeat split; [lia | assumption | assumption].
Qed.

Lemma loop_first_failure (window : nat -> bytes -> res bytes) (W : nat)
  (n i q : nat) (r : bytes) :
  (forall i r, window i r = (out <- window i [] ;; Ok (r ++ out))) ->
  (q < n)%nat -> (exists E, window (i + W * q)%nat [] = Err E) ->
  fails_by (fun q' => window (i + W * q')%nat []) (loop window W n i r) q.
Proof.
  intros Hacc Hq Hfail.
  destruct (least_index (fun q' => exists E, window (i + W * q')%nat [] = Err E)
              q) as (q0 & Hle & [E0 H0] & Hmin); [ | assumption | ].
  { intros k. destruct (window (i + W * k)%nat []) as [w | E]; [ | eauto].
    right. intros [E HE]. discriminate HE. }
  assert (Hok : forall q', (q' < q0)%nat ->
                  exists w, window (i + W * q')%nat [] = Ok w).
  { intros q' Hq'. specialize (Hmin q' Hq').
    destruct (window (i + W * q')%nat []) as [w | E]; [eauto | ].
    exfalso. apply Hmin. eauto. }
  exists q0, E0. split; [assumption | ]. split; [split; assumption | ].
  apply (loop_first_error window W Hacc E0 n i q0); [lia | | assumption].
  intros k' Hk'. right. now apply Hok.
Qed.

Lemma fails_by_error (window : nat -> res bytes) (r : res bytes) (q : nat)
  (E : error) :
  fails_by window r q ->
  (forall q', (q' <= q)%nat -> error_or_ok E (window q')) ->
  r = Err E.
Proof.
  intros (q0 & E0 & Hle & [_ H0] & ->) Hall.
  destruct (Hall q0 Hle) as [H | [w H]]; congruence.
Qed.

(** ** The pads of a window *)

(** A pad followed later by a character that is not a pad: the first pad
    [j0] of the window, the pads after it and the first character [k] that
    is not a pad after them. *)
Lemma first_pad_run (e : str) (i j j' : nat) (c : ascii) :
  (j < j')%nat -> nth_error e (i + j) = Some pad ->
  nth_error e (i + j') = Some c -> Ascii.eqb c pad = false ->
  exists j0 k ck, (j0 < k <= j')%nat
    /\ (forall k', (k' < j0)%nat -> nth_error e (i + k') <> Some pad)
    /\ (forall k', (j0 <= k' < k)%nat -> nth_error e (i + k') = Some pad)
    /\ nth_error e (i + k) = Some ck /\ Ascii.eqb ck pad = false.
Proof.
  intros Hlt Hj Hj' Hc.
  destruct (least_index (fun k => nth_error e (i + k) = Some pad) j)
    as (j0 & Hle & Hpad0 & Hmin0); [ | assumption | ].
  { intros k. destruct (nth_error e (i + k)) as [ck | ]; [ | now right].
    destruct (Ascii.eqb_spec ck pad) as [-> | Hne]; [now left | right].
    intros [= H]. contradiction. }
  destruct (least_index
              (fun k => (j0 < k)%nat
                        /\ exists ck, nth_error e (i + k) = Some ck
                                      /\ Ascii.eqb ck pad = false) j')
    as (k & Hk & (Hjk & ck & Hck & Hne) & Hmin); [ | split; [lia | eauto] | ].
  { intros k. destruct (Nat.lt_ge_cases j0 k) as [Hk | Hk]; [ | right; lia].
    destruct (nth_error e (i + k)) as [ck | ];
      [ | right; intros [_ (ck & H & _)]; discriminate H].
    destruct (Ascii.eqb ck pad) eqn:E; [right | left; eauto].
    intros [_ (ck' & [= <-] & H)]. congruence. }
  exists j0, k, ck. split; [lia | ]. split; [exact Hmin0 | ].
  split; [ | split; assumption].
  intros k' [Hlo Hhi].
  destruct (Nat.eq_dec k' j0) as [-> | Hne']; [assumption | ].
  assert (Hlen : (i + k' < List.length e)%nat).
  { assert (H : (i + j' < List.length e)%nat)
      by (apply nth_error_Some; congruence).
    lia. }
  destruct (nth_error e (i + k')) as [ck' | ] eqn:Hk';
    [ | apply nth_error_None in Hk'; lia].
  destruct (Ascii.eqb_spec ck' pad) as [-> | Hnp]; [reflexivity | ].
  exfalso. apply (Hmin k' Hhi). split; [lia | ].
  exists ck'. split; [assumption | ]. now apply Ascii.eqb_neq.
Qed.

Lemma data_position_after_pad (e : str) (i k : nat) :
  data_position e i k -> after_pad e i k = false.
Proof.
  intros Hd. unfold after_pad. destruct k as [| k]; [reflexivity | ].
  cbn [Nat.ltb Nat.leb andb].
  replace (i + S k - 1)%nat with (i + k)%nat by lia.
  destruct (nth_error e (i + k)) as [c | ] eqn:Hc; [ | reflexivity].
  cbn [is_pad]. apply Ascii.eqb_neq. intros ->.
  apply (Hd k); [lia | assumption].
Qed.

Lemma data_position_char (e : str) (i k : nat) (c : ascii) :
  data_position e i k -> nth_error e (i + k) = Some c ->
  Ascii.eqb c pad = false.
Proof.
  intros Hd Hc. apply Ascii.eqb_neq. intros ->. now apply (Hd k).
Qed.

(** ** The error of one window

    As in the section above, the facts are proved once from the properties
    of one step of the character loop. *)

Section WindowErrors.
Variables (W : nat) (kbits : Z).
Variable step :
  str -> decode_map -> DecodingPadding.t -> nat -> Z * Z -> nat -> res (Z * Z).
Variable window :
  str -> decode_map -> DecodingPadding.t -> nat -> bytes -> res bytes.

Let scan e m p i := for_each (step e m p i) (seq 0 W) (0, 0).

Hypothesis step_after_pad : forall e m p i st j c,
  (0 < j)%nat -> nth_error e (i + j - 1) = Some pad ->
  nth_error e (i + j) = Some c -> Ascii.eqb c pad = false ->
  step e m p i st j = Err InvalidPadding.

Hypothesis step_bad_char : forall e m p i st j c,
  nth_error e (i + j) = Some c -> Ascii.eqb c pad = false ->
  lookup m c = None ->
  (step e m p i st j = Err InvalidCharacter
   \/ step e m p i st j = Err InvalidPadding)
  /\ (after_pad e i j = false -> step e m p i st j = Err InvalidCharacter).

Hypothesis step_known : forall e m p i st j c,
  nth_error e (i + j) = Some c ->
  Ascii.eqb c pad = true \/ lookup m c <> None ->
  error_or_ok InvalidPadding (step e m p i st j).

Hypothesis step_data : forall e m p i st j c,
  nth_error e (i + j) = Some c -> Ascii.eqb c pad = false ->
  after_pad e i j = false ->
  step e m p i st j = Err InvalidCharacter
  \/ exists chunk, step e m p i st j = Ok (chunk, snd st + kbits).

Hypothesis window_scan_error : forall e m p i r E,
  scan e m p i = Err E -> window e m p i r = Err E.

(** A window in which a character that is not a pad follows a pad fails. *)
Lemma pad_then_data_fails (e : str) (m : decode_map) (p : DecodingPadding.t)
  (i j j' : nat) (c : ascii) :
  (j < j' < W)%nat -> nth_error e (i + j) = Some pad ->
  nth_error e (i + j') = Some c -> Ascii.eqb c pad = false ->
  exists E, window e m p i [] = Err E.
Proof.
  intros Hj Hpad Hc Hne.
  destruct (first_pad_run e i j j' c)
    as (j0 & k & ck & Hk & _ & Hrun & Hck & Hnk);
    [lia | assumption .. | ].
  destruct (for_each_fails (step e m p i) (seq 0 W) k) with (s := (0, 0))
    as [E HE]; [apply in_seq; lia | | ].
  - intros st. exists InvalidPadding.
    apply (step_after_pad e m p i st k ck); [lia | | assumption ..].
    replace (i + k - 1)%nat with (i + (k - 1))%nat by lia. apply Hrun. lia.
  - exists E. now apply window_scan_error.
Qed.

(** It fails with invalid padding when the characters before its first pad
    are in the decode map. *)
Lemma pad_then_data_padding (e : str) (m : decode_map)
  (p : DecodingPadding.t) (i j j' : nat) (c : ascii) :
  (j < j' < W)%nat -> nth_error e (i + j) = Some pad ->
  nth_error e (i + j') = Some c -> Ascii.eqb c pad = false ->
  leading_known e m i ->
  window e m p i [] = Err InvalidPadding.
Proof.
  intros Hj Hpad Hc Hne Hlead.
  destruct (first_pad_run e i j j' c)
    as (j0 & k & ck & Hk & Hbefore & Hrun & Hck & Hnk);
    [lia | assumption .. | ].
  apply window_scan_error.
  apply (for_each_first_error (step e m p i) (fun _ => True)
           InvalidPadding 0 W k); [lia | exact I | | ].
  - intros st k0 Hk0 _.
    assert (Hin : exists c0, nth_error e (i + k0) = Some c0).
    { destruct (nth_error e (i + k0)) as [c0 | ] eqn:H0; [eauto | ].
      apply nth_error_None in H0.
      assert (H : (i + k < List.length e)%nat)
        by (apply nth_error_Some; congruence).
      lia. }
    destruct Hin as [c0 Hc0].
    destruct (step_known e m p i st k0 c0 Hc0) as [-> | [s' ->]];
      [ | now left | right; now exists s'].
    destruct (Nat.lt_ge_cases k0 j0) as [Hlo | Hhi].
    + right. apply (Hlead k0 c0 Hc0). intros k' Hk'. apply Hbefore. lia.
    + left. rewrite Hrun in Hc0 by lia. injection Hc0 as <-.
      apply Ascii.eqb_refl.
  - intros st _.
    apply (step_after_pad e m p i st k ck); [lia | | assumption ..].
    replace (i + k - 1)%nat with (i + (k - 1))%nat by lia. apply Hrun. lia.
Qed.

(** A window with a character outside the decode map at a data position
    fails with invalid character. *)
Lemma stray_window (e : str) (m : decode_map) (p : DecodingPadding.t)
  (i k : nat) (c : ascii) :
  (k < W)%nat -> nth_error e (i + k) = Some c -> data_position e i k ->
  lookup m c = None ->
  window e m p i [] = Err InvalidCharacter.
Proof.
  intros Hk Hc Hd Hm.
  apply window_scan_error.
  apply (for_each_first_error (step e m p i) (fun _ => True)
           InvalidCharacter 0 W k); [lia | exact I | | ].
  - intros st k0 Hk0 _.
    assert (Hd0 : data_position e i k0).
    { intros k' Hk'. apply Hd. lia. }
    destruct (nth_error e (i + k0)) as [c0 | ] eqn:Hc0.
    + destruct (step_data e m p i st k0 c0 Hc0) as [-> | [chunk ->]];
        [now apply (data_position_char e i k0)
        | now apply data_position_after_pad | now left | right; eauto].
    + apply nth_error_None in Hc0.
      assert (H : (i + k < List.length e)%nat)
        by (apply nth_error_Some; congruence).
      lia.
  - intros st _.
    apply (step_bad_char e m p i st k c Hc);
      [now apply (data_position_char e i k) | assumption
      | now apply data_position_after_pad].
Qed.

(** A window with a character outside the decode map that is not a pad
    fails. *)
Lemma bad_char_window_fails (e : str) (m : decode_map)
  (p : DecodingPadding.t) (i j : nat) (c : ascii) :
  (j < W)%nat -> nth_error e (i + j) = Some c -> Ascii.eqb c pad = false ->
  lookup m c = None ->
  exists E, window e m p i [] = Err E.
Proof.
  intros Hj Hc Hne Hm.
  destruct (for_each_fails (step e m p i) (seq 0 W) j) with (s := (0, 0))
    as [E HE]; [apply in_seq; lia | | ].
  - intros st.
    destruct (step_bad_char e m p i st j c Hc Hne Hm) as [[-> | ->] _]; eauto.
  - exists E. now apply window_scan_error.
Qed.

End WindowErrors.

Module Base64Windows.
Import Base64 Base64Errors.

Lemma b64_first_failure (e : str) (m : decode_map) (p : DecodingPadding.t)
  (q : nat) :
  (4 * q < List.length e)%nat ->
  (exists E, base64_window e m p q = Err E) ->
  fails_by (base64_window e m p) (decodeBase64_internal e m p) q.
Proof.
  intros Hq Hfail. unfold decodeBase64_internal. rewrite b64_loop_eq.
  apply (loop_first_failure (decode_window e m p) 4 _ 0 q []);
    [apply Base64Facts.b64_decode_window_acc | | exact Hfail].
  apply (window_index (List.length e) 4 q 0); lia.
Qed.

Lemma b64_pad_then_data_fails (e : str) (m : decode_map)
  (p : DecodingPadding.t) (q j j' : nat) (c : ascii) :
  (j < j' < 4)%nat -> nth_error e (4 * q + j) = Some pad ->
  nth_error e (4 * q + j') = Some c -> Ascii.eqb c pad = false ->
  exists E, base64_window e m p q = Err E.
Proof.
  intros Hj Hpad Hc Hne.
  apply (pad_then_data_fails 4 scan_step decode_window)
    with (j := j) (j' := j') (c := c); b64_scheme.
Qed.

Lemma b64_pad_then_data_padding (e : str) (m : decode_map)
  (p : DecodingPadding.t) (q j j' : nat) (c : ascii) :
  (j < j' < 4)%nat -> nth_error e (4 * q + j) = Some pad ->
  nth_error e (4 * q + j') = Some c -> Ascii.eqb c pad = false ->
  leading_known e m (4 * q) ->
  base64_window e m p q = Err InvalidPadding.
Proof.
  intros Hj Hpad Hc Hne Hlead.
  apply (pad_then_data_padding 4 scan_step decode_window)
    with (j := j) (j' := j') (c := c); b64_scheme.
Qed.

Lemma b64_stray_window (e : str) (m : decode_map) (p : DecodingPadding.t)
  (q k : nat) (c : ascii) :
  (k < 4)%nat -> nth_error e (4 * q + k) = Some c ->
  data_position e (4 * q) k -> lookup m c = None ->
  base64_window e m p q = Err InvalidCharacter.
Proof.
  intros Hk Hc Hd Hm.
  apply (stray_window 4 6 scan_step decode_window) with (k := k) (c := c);
    b64_scheme.
Qed.

Lemma b64_bad_char_window_fails (e : str) (m : decode_map)
  (p : DecodingPadding.t) (q j : nat) (c : ascii) :
  (j < 4)%nat -> nth_error e (4 * q + j) = Some c ->
  Ascii.eqb c pad = false -> lookup m c = None ->
  exists E, base64_window e m p q = Err E.
Proof.
  intros Hj Hc Hne Hm.
  apply (bad_char_window_fails 4 scan_step decode_window)
    with (j := j) (c := c); b64_scheme.
Qed.

End Base64Windows.

Module Base32Windows.
Import Base32 Base32Errors.

Lemma b32_first_failure (e : str) (m : decode_map) (p : DecodingPadding.t)
  (q : nat) :
  (8 * q < List.length e)%nat ->
  (exists E, base32_window e m p q = Err E) ->
  fails_by (base32_window e m p) (decodeBase32_internal e m p) q.
Proof.
  intros Hq Hfail. unfold decodeBase32_internal. rewrite b32_loop_eq.
  apply (loop_first_failure (decode_window e m p) 8 _ 0 q []);
    [apply Base32Facts.b32_decode_window_acc | | exact Hfail].
  apply (window_index (List.length e) 8 q 0); lia.
Qed.

Lemma b32_pad_then_data_fails (e : str) (m : decode_map)
  (p : DecodingPadding.t) (q j j' : nat) (c : ascii) :
  (j < j' < 8)%nat -> nth_error e (8 * q + j) = Some pad ->
  nth_error e (8 * q + j') = Some c -> Ascii.eqb c pad = false ->
  exists E, base32_window e m p q = Err E.
Proof.
  intros Hj Hpad Hc Hne.
  apply (pad_then_data_fails 8 scan_step decode_window)
    with (j := j) (j' := j') (c := c); b32_scheme.
Qed.

Lemma b32_pad_then_data_padding (e : str) (m : decode_map)
  (p : DecodingPadding.t) (q j j' : nat) (c : ascii) :
  (j < j' < 8)%nat -> nth_error e (8 * q + j) = Some pad ->
  nth_error e (8 * q + j') = Some c -> Ascii.eqb c pad = false ->
  leading_known e m (8 * q) ->
  base32_window e m p q = Err InvalidPadding.
Proof.
  intros Hj Hpad Hc Hne Hlead.
  apply (pad_then_data_padding 8 scan_step decode_window)
    with (j := j) (j' := j') (c := c); b32_scheme.
Qed.

Lemma b32_stray_window (e : str) (m : decode_map) (p : DecodingPadding.t)
  (q k : nat) (c : ascii) :
  (k < 8)%nat -> nth_error e (8 * q + k) = Some c ->
  data_position e (8 * q) k -> lookup m c = None ->
  base32_window e m p q = Err InvalidCharacter.
Proof.
  intros Hk Hc Hd Hm.
  apply (stray_window 8 5 scan_step decode_window) with (k := k) (c := c);
    b32_scheme.
Qed.

Lemma b32_bad_char_window_fails (e : str) (m : decode_map)
  (p : DecodingPadding.t) (q j : nat) (c : ascii) :
  (j < 8)%nat -> nth_error e (8 * q + j) = Some c ->
  Ascii.eqb c pad = false -> lookup m c = None ->
  exists E, base32_window e m p q = Err E.
Proof.
  intros Hj Hc Hne Hm.
  apply (bad_char_window_fails 8 scan_step decode_window)
    with (j := j) (c := c); b32_scheme.
Qed.

End Base32Windows.

(** ** The characters before the first pad *)

Lemma leading_stray_bound (e : str) (m : decode_map) (i j : nat) :
  nth_error e (i + j) = Some pad -> leading_stray e m i ->
  exists k c, (k < j)%nat /\ nth_error e (i + k) = Some c
    /\ data_position e i k /\ lookup m c = None.
Proof.
  intros Hpad (k & c & Hc & Hd & Hm). exists k, c.
  repeat split; try assumption.
  destruct (Nat.lt_ge_cases k j) as [Hlt | Hge]; [assumption | ].
  exfalso. now apply (Hd j).
Qed.

(** Exhaustive cases for the characters before the first pad. *)
Lemma leading_cases (e : str) (m : decode_map) (i j : nat) :
  nth_error e (i + j) = Some pad ->
  leading_known e m i \/ leading_stray e m i.
Proof.
  intros Hpad.
  destruct (least_index (fun k => nth_error e (i + k) = Some pad) j)
    as (j0 & _ & Hpad0 & Hmin); [ | assumption | ].
  { intros k. destruct (nth_error e (i + k)) as [ck | ]; [ | now right].
    destruct (Ascii.eqb_spec ck pad) as [-> | Hne]; [now left | right].
    intros [= H]. contradiction. }
  assert (H : forall b, (b <= j0)%nat ->
            (forall k c, (k < b)%nat -> nth_error e (i + k) = Some c ->
               lookup m c <> None)
            \/ exists k c, (k < b)%nat /\ nth_error e (i + k) = Some c
                 /\ lookup m c = None).
  { induction b as [| b IH]; intros Hb.
    - left. intros k c Hk. lia.
    - destruct IH as [IH | (k & c & Hk & Hc & Hm)]; [lia | | ].
      + destruct (nth_error e (i + b)) as [cb | ] eqn:Hcb.
        * destruct (lookup m cb) as [v | ] eqn:Hv.
          -- left. intros k c Hk Hc.
             destruct (Nat.eq_dec k b) as [-> | Hne];
               [congruence | apply (IH k); [lia | assumption]].
          -- right. exists b, cb. repeat split; [lia | assumption ..].
        * left. intros k c Hk Hc.
          destruct (Nat.eq_dec k b) as [-> | Hne];
            [congruence | apply (IH k); [lia | assumption]].
      + right. exists k, c. repeat split; [lia | assumption ..]. }
  destruct (H j0 (Nat.le_refl _)) as [Hall | (k & c & Hk & Hc & Hm)].
  - left. intros k c Hc Hd. apply (Hall k); [ | assumption].
    destruct (Nat.lt_ge_cases k j0) as [Hlt | Hge]; [assumption | ].
    exfalso. now apply (Hd j0).
  - right. exists k, c. split; [assumption | split; [ | assumption]].
    intros k' Hk'. apply Hmin. lia.
Qed.

(** ** The claims about rejected inputs *)

(** The short-window claim does not hold as stated.  In "$AAAA===" the
    second window "A===" holds 6 bits, and in "$AAAAAAAA=======" the second
    window "A=======" holds 5 bits, yet the decoders stop in the first
    window, at '$', with invalid character. *)
Lemma short_window_counterexample :
  ~ short_window_claim 4 6 24 Base64.scan Base64.decodeBase64_internal
      (lit "$AAAA===") Base64.base64DecodeMap DecodingPadding.Required
  /\ Base64.scan (lit "$AAAA===") Base64.base64DecodeMap
       DecodingPadding.Required 4 = Ok (0, 6)
  /\ Base64.decodeBase64 (lit "$AAAA===") = Err InvalidCharacter
  /\ ~ short_window_claim 8 5 40 Base32.scan Base32.decodeBase32_internal
         (lit "$AAAAAAAA=======") Base32.base32DecodeMap
         DecodingPadding.Required
  /\ Base32.scan (lit "$AAAAAAAA=======") Base32.base32DecodeMap
       DecodingPadding.Required 8 = Ok (0, 5)
  /\ Base32.decodeBase32 (lit "$AAAAAAAA=======") = Err InvalidCharacter.
Proof.
  split; [ | split; [reflexivity | split; [reflexivity | ]]].
  - intros H.
    destruct (H 1%nat 0 6 ltac:(cbn; lia) eq_refl ltac:(lia)) as [_ Hbad].
    assert (Hd : Base64.decodeBase64_internal (lit "$AAAA===")
                   Base64.base64DecodeMap DecodingPadding.Required
                 = Err InvalidCharacter) by reflexivity.
    rewrite Hd in Hbad. discriminate Hbad.
    unfold valid_short. cbn. lia.
  - split; [ | split; reflexivity]. intros H.
    destruct (H 1%nat 0 5 ltac:(cbn; lia) eq_refl ltac:(lia)) as [_ Hbad].
    assert (Hd : Base32.decodeBase32_internal (lit "$AAAAAAAA=======")
                   Base32.base32DecodeMap DecodingPadding.Required
                 = Err InvalidCharacter) by reflexivity.
    rewrite Hd in Hbad. discriminate Hbad.
    unfold valid_short. cbn. lia.
Qed.

(** Claim C2 (short windows), as amended.  When the character loop of a
    window ends with fewer bits than the full width (24 for Base64 and
    Base64url, 40 for Base32), in either padding mode, the window decodes
    only if the bit count is a valid short size (12 or 18 bits for six-bit
    groups; 10, 20, 25 or 35 bits for five-bit groups) and the accumulator
    bits below the last complete byte are all zero; a successful decode
    implies the two conditions.  Otherwise the window fails with invalid
    padding and the decoder fails, with the error of the first window that
    fails: invalid padding when every earlier window decodes or fails with
    invalid padding. *)
Theorem short_window_rule (e : str) (m : decode_map) (p : DecodingPadding.t)
  (q : nat) (chunk bits : Z) :
  ((4 * q < List.length e)%nat ->
   Base64.scan e m p (4 * q) = Ok (chunk, bits) -> bits < 24 ->
   (valid_short 6 bits /\ unused_bits 24 chunk bits = 0 ->
    base64_window e m p q = Ok (Base64.extract chunk bits []))
   /\ (~ (valid_short 6 bits /\ unused_bits 24 chunk bits = 0) ->
       base64_window e m p q = Err InvalidPadding
       /\ fails_by (base64_window e m p)
            (Base64.decodeBase64_internal e m p) q
       /\ ((forall q', (q' < q)%nat ->
              error_or_ok InvalidPadding (base64_window e m p q')) ->
           Base64.decodeBase64_internal e m p = Err InvalidPadding))
   /\ (forall out, Base64.decodeBase64_internal e m p = Ok out ->
         valid_short 6 bits /\ unused_bits 24 chunk bits = 0))
  /\ ((8 * q < List.length e)%nat ->
      Base32.scan e m p (8 * q) = Ok (chunk, bits) -> bits < 40 ->
      (valid_short 5 bits /\ unused_bits 40 chunk bits = 0 ->
       base32_window e m p q = Ok (Base32.extract chunk bits []))
      /\ (~ (valid_short 5 bits /\ unused_bits 40 chunk bits = 0) ->
          base32_window e m p q = Err InvalidPadding
          /\ fails_by (base32_window e m p)
               (Base32.decodeBase32_internal e m p) q
          /\ ((forall q', (q' < q)%nat ->
                 error_or_ok InvalidPadding (base32_window e m p q')) ->
              Base32.decodeBase32_internal e m p = Err InvalidPadding))
      /\ (forall out, Base32.decodeBase32_internal e m p = Ok out ->
            valid_short 5 bits /\ unused_bits 40 chunk bits = 0)).
Proof.
  split; intros Hq Hscan Hbits.
  - destruct (b64_short_window e m p q chunk bits Hq Hscan Hbits)
      as (Hok & Hbad & Hsucc).
    split; [exact Hok | split; [ | exact Hsucc]].
    intros Hn. destruct (Hbad Hn) as (Hw & _ & _).
    assert (Hby : fails_by (base64_window e m p)
                    (Base64.decodeBase64_internal e m p) q).
    { apply Base64Windows.b64_first_failure; [assumption | ].
      exists InvalidPadding. exact Hw. }
    split; [exact Hw | split; [exact Hby | ]].
    intros Hbefore. apply (fails_by_error _ _ q InvalidPadding Hby).
    intros q' Hq'. destruct (Nat.eq_dec q' q) as [-> | Hne].
    + left. exact Hw.
    + apply Hbefore. lia.
  - destruct (b32_short_window e m p q chunk bits Hq Hscan Hbits)
      as (Hok & Hbad & Hsucc).
    split; [exact Hok | split; [ | exact Hsucc]].
    intros Hn. destruct (Hbad Hn) as (Hw & _ & _).
    assert (Hby : fails_by (base32_window e m p)
                    (Base32.decodeBase32_internal e m p) q).
    { apply Base32Windows.b32_first_failure; [assumption | ].
      exists InvalidPadding. exact Hw. }
    split; [exact Hw | split; [exact Hby | ]].
    intros Hbefore. apply (fails_by_error _ _ q InvalidPadding Hby).
    intros q' Hq'. destruct (Nat.eq_dec q' q) as [-> | Hne].
    + left. exact Hw.
    + apply Hbefore. lia.
Qed.

(** A third Base64 window of one character (6 bits) and a second Base32
    window of one character (5 bits), after windows that decode. *)
Lemma short_window_rule_witness :
  Base64.decodeBase64 (lit "SGVsbA==A===") = Err InvalidPadding
  /\ Base32.decodeBase32IgnorePadding (lit "JBSWY3DPJ") = Err InvalidPadding.
Proof.
  split.
  - destruct (short_window_rule (lit "SGVsbA==A===") Base64.base64DecodeMap
                DecodingPadding.Required 2 0 6) as [H64 _].
    destruct H64 as (_ & Hbad & _); [simpl; lia | reflexivity | lia | ].
    apply Hbad.
    + unfold valid_short. cbn. lia.
    + intros q' Hq'. right.
      destruct q' as [| [| q']]; [eexists; reflexivity .. | lia].
  - destruct (short_window_rule (lit "JBSWY3DPJ") Base32.base32DecodeMap
                DecodingPadding.Ignore 1 309237645312 5) as [_ H32].
    destruct H32 as (_ & Hbad & _); [simpl; lia | reflexivity | lia | ].
    apply Hbad.
    + unfold valid_short. cbn. lia.
    + intros q' Hq'. right.
      destruct q' as [| q']; [eexists; reflexivity | lia].
Defined.

(** The ordering claim does not hold as stated.  In "$A=A" (and in
    "$A=AAAAA" for Base32) a pad at position 2 is followed by the alphabet
    character 'A' at position 3, yet the decoder stops at '$' with invalid
    character. *)
Lemma ordering_rule_counterexample :
  ~ ordering_claim 4 Base64.decodeBase64_internal (lit "$A=A")
      Base64.base64DecodeMap DecodingPadding.Required
  /\ Base64.decodeBase64 (lit "$A=A") = Err InvalidCharacter
  /\ ~ ordering_claim 8 Base32.decodeBase32_internal (lit "$A=AAAAA")
         Base32.base32DecodeMap DecodingPadding.Required
  /\ Base32.decodeBase32 (lit "$A=AAAAA") = Err InvalidCharacter.
Proof.
  split; [ | split; [reflexivity | split; [ | reflexivity]]].
  - intros H.
    specialize (H 0%nat 2%nat 3%nat "A"%char ltac:(lia) (or_introl eq_refl)
                  eq_refl eq_refl ltac:(discriminate)).
    discriminate H.
  - intros H.
    specialize (H 0%nat 2%nat 3%nat "A"%char ltac:(lia) (or_introl eq_refl)
                  eq_refl eq_refl ltac:(discriminate)).
    discriminate H.
Qed.

(** Claim C3 (ordering rule), as amended.  If a window holds a pad at
    position [j] and a character of the alphabet at a later position [j'],
    the window fails and the decoder fails, with the error of the first
    window that fails (Base64, Base64url and Base32, both modes; after the
    end of the input no character follows, so that case is empty).  The
    window fails with invalid padding when every character before its first
    pad is in the decode map, and with invalid character when one of them
    is not.  The decoder then fails with that error when every earlier
    window decodes or fails with the same error; in particular with invalid
    padding when every character before position [j'] is a pad or in the
    decode map. *)
Theorem ordering_rule (e : str) (m : decode_map) (p : DecodingPadding.t)
  (q j j' : nat) (c : ascii) :
  Ascii.eqb c pad = false -> lookup m c <> None ->
  ((j < j' < 4)%nat ->
   nth_error e (4 * q + j) = Some pad
   \/ (p = DecodingPadding.Ignore /\ nth_error e (4 * q + j) = None) ->
   nth_error e (4 * q + j') = Some c ->
   fails_by (base64_window e m p) (Base64.decodeBase64_internal e m p) q
   /\ (leading_known e m (4 * q) \/ leading_stray e m (4 * q))
   /\ (leading_known e m (4 * q) ->
       base64_window e m p q = Err InvalidPadding
       /\ ((forall q', (q' < q)%nat ->
              error_or_ok InvalidPadding (base64_window e m p q')) ->
           Base64.decodeBase64_internal e m p = Err InvalidPadding))
   /\ (leading_stray e m (4 * q) ->
       base64_window e m p q = Err InvalidCharacter
       /\ ((forall q', (q' < q)%nat ->
              error_or_ok InvalidCharacter (base64_window e m p q')) ->
           Base64.decodeBase64_internal e m p = Err InvalidCharacter))
   /\ (known_before e m (4 * q + j') ->
       Base64.decodeBase64_internal e m p = Err InvalidPadding))
  /\ ((j < j' < 8)%nat ->
      nth_error e (8 * q + j) = Some pad
      \/ (p = DecodingPadding.Ignore /\ nth_error e (8 * q + j) = None) ->
      nth_error e (8 * q + j') = Some c ->
      fails_by (base32_window e m p) (Base32.decodeBase32_internal e m p) q
      /\ (leading_known e m (8 * q) \/ leading_stray e m (8 * q))
      /\ (leading_known e m (8 * q) ->
          base32_window e m p q = Err InvalidPadding
          /\ ((forall q', (q' < q)%nat ->
                 error_or_ok InvalidPadding (base32_window e m p q')) ->
              Base32.decodeBase32_internal e m p = Err InvalidPadding))
      /\ (leading_stray e m (8 * q) ->
          base32_window e m p q = Err InvalidCharacter
          /\ ((forall q', (q' < q)%nat ->
                 error_or_ok InvalidCharacter (base32_window e m p q')) ->
              Base32.decodeBase32_internal e m p = Err InvalidCharacter))
      /\ (known_before e m (8 * q + j') ->
          Base32.decodeBase32_internal e m p = Err InvalidPadding)).
Proof.
  intros Hne _. split.
  - intros Hj [Hpad | [_ Hend]] Hc.
    2:{ exfalso. apply nth_error_None in Hend.
        assert (H : nth_error e (4 * q + j') <> None) by congruence.
        apply nth_error_Some in H. lia. }
    assert (Hlen : (4 * q < List.length e)%nat).
    { assert (H : nth_error e (4 * q + j') <> None) by congruence.
      apply nth_error_Some in H. lia. }
    assert (Hby : fails_by (base64_window e m p)
                    (Base64.decodeBase64_internal e m p) q).
    { apply Base64Windows.b64_first_failure; [assumption | ].
      now apply (Base64Windows.b64_pad_then_data_fails e m p q j j' c). }
    assert (Hlast : forall E, base64_window e m p q = Err E ->
              (forall q', (q' < q)%nat ->
                 error_or_ok E (base64_window e m p q')) ->
              Base64.decodeBase64_internal e m p = Err E).
    { intros E Hw Hbefore. apply (fails_by_error _ _ q E Hby).
      intros q' Hq'. destruct (Nat.eq_dec q' q) as [-> | Hneq];
        [now left | apply Hbefore; lia]. }
    split; [exact Hby | split; [ | split; [ | split]]].
    + now apply (leading_cases e m (4 * q) j).
    + intros Hlead.
      assert (Hw : base64_window e m p q = Err InvalidPadding)
        by now apply (Base64Windows.b64_pad_then_data_padding e m p q j j' c).
      split; [exact Hw | now apply Hlast].
    + intros Hstray.
      destruct (leading_stray_bound e m (4 * q) j Hpad Hstray)
        as (k & ck & Hk & Hck & Hd & Hm).
      assert (Hw : base64_window e m p q = Err InvalidCharacter)
        by (apply (Base64Windows.b64_stray_window e m p q k ck);
            [lia | assumption ..]).
      split; [exact Hw | now apply Hlast].
    + intros Hknown.
      destruct (Base64Errors.b64_order_violation e m p q j j' c)
        as (_ & _ & Hpadding); auto.
  - intros Hj [Hpad | [_ Hend]] Hc.
    2:{ exfalso. apply nth_error_None in Hend.
        assert (H : nth_error e (8 * q + j') <> None) by congruence.
        apply nth_error_Some in H. lia. }
    assert (Hlen : (8 * q < List.length e)%nat).
    { assert (H : nth_error e (8 * q + j') <> None) by congruence.
      apply nth_error_Some in H. lia. }
    assert (Hby : fails_by (base32_window e m p)
                    (Base32.decodeBase32_internal e m p) q).
    { apply Base32Windows.b32_first_failure; [assumption | ].
      now apply (Base32Windows.b32_pad_then_data_fails e m p q j j' c). }
    assert (Hlast : forall E, base32_window e m p q = Err E ->
              (forall q', (q' < q)%nat ->
                 error_or_ok E (base32_window e m p q')) ->
              Base32.decodeBase32_internal e m p = Err E).
    { intros E Hw Hbefore. apply (fails_by_error _ _ q E Hby).
      intros q' Hq'. destruct (Nat.eq_dec q' q) as [-> | Hneq];
        [now left | apply Hbefore; lia]. }
    split; [exact Hby | split; [ | split; [ | split]]].
    + now apply (leading_cases e m (8 * q) j).
    + intros Hlead.
      assert (Hw : base32_window e m p q = Err InvalidPadding)
        by now apply (Base32Windows.b32_pad_then_data_padding e m p q j j' c).
      split; [exact Hw | now apply Hlast].
    + intros Hstray.
      destruct (leading_stray_bound e m (8 * q) j Hpad Hstray)
        as (k & ck & Hk & Hck & Hd & Hm).
      assert (Hw : base32_window e m p q = Err InvalidCharacter)
        by (apply (Base32Windows.b32_stray_window e m p q k ck);
            [lia | assumption ..]).
      split; [exact Hw | now apply Hlast].
    + intros Hknown.
      destruct (Base32Errors.b32_order_violation e m p q j j' c)
        as (_ & _ & Hpadding); auto.
Qed.

(** The rule on the vector of the specification, on "=$=A", where the
    character outside the map follows a pad, on "$A=A", and on a Base32
    input in Ignore mode. *)
Lemma ordering_rule_witness :
  Base64.decodeBase64 (lit "SG=sbG8=") = Err InvalidPadding
  /\ Base64.decodeBase64 (lit "=$=A") = Err InvalidPadding
  /\ Base64.decodeBase64 (lit "$A=A") = Err InvalidCharacter
  /\ Base32.decodeBase32IgnorePadding (lit "JB=WY3DP") = Err InvalidPadding.
Proof.
  split; [ | split; [ | split]].
  - destruct (ordering_rule (lit "SG=sbG8=") Base64.base64DecodeMap
                DecodingPadding.Required 0 2 3 "s"%char eq_refl
                ltac:(discriminate)) as [H64 _].
    destruct H64 as (_ & _ & Hpadding & _);
      [lia | left; reflexivity | reflexivity | ].
    apply Hpadding; [ | intros q' Hq'; lia].
    intros k c' Hc' Hd.
    destruct k as [| [| k]];
      [injection Hc' as <-; discriminate ..
      | exfalso; apply (Hd 2%nat); [lia | reflexivity]].
  - destruct (ordering_rule (lit "=$=A") Base64.base64DecodeMap
                DecodingPadding.Required 0 2 3 "A"%char eq_refl
                ltac:(discriminate)) as [H64 _].
    destruct H64 as (_ & _ & Hpadding & _);
      [lia | left; reflexivity | reflexivity | ].
    apply Hpadding; [ | intros q' Hq'; lia].
    intros k c' Hc' Hd. exfalso. apply (Hd 0%nat); [lia | reflexivity].
  - destruct (ordering_rule (lit "$A=A") Base64.base64DecodeMap
                DecodingPadding.Required 0 2 3 "A"%char eq_refl
                ltac:(discriminate)) as [H64 _].
    destruct H64 as (_ & _ & _ & Hchar & _);
      [lia | left; reflexivity | reflexivity | ].
    apply Hchar; [ | intros q' Hq'; lia].
    exists 0%nat, "$"%char. split; [reflexivity | split; [ | reflexivity]].
    intros k' Hk'. replace k' with 0%nat by lia. discriminate.
  - destruct (ordering_rule (lit "JB=WY3DP") Base32.base32DecodeMap
                DecodingPadding.Ignore 0 2 3 "W"%char eq_refl
                ltac:(discriminate)) as [_ H32].
    destruct H32 as (_ & _ & Hpadding & _);
      [lia | left; reflexivity | reflexivity | ].
    apply Hpadding; [ | intros q' Hq'; lia].
    intros k c' Hc' Hd.
    destruct k as [| [| k]];
      [injection Hc' as <-; discriminate ..
      | exfalso; apply (Hd 2%nat); [lia | reflexivity]].
Defined.

(** The crossover claim does not hold as stated.  In "A===-AAA" and in
    "A===+AAA" the crossover character opens the second window, a data
    position, yet the first window "A===" holds 6 bits and fails its
    short-window check first, with invalid padding, in both modes. *)
Lemma crossover_counterexample :
  ~ crossover_claim (lit "A===-AAA") Base64.base64DecodeMap
      DecodingPadding.Required "-"%char
  /\ Base64.decodeBase64 (lit "A===-AAA") = Err InvalidPadding
  /\ ~ crossover_claim (lit "A===-AAA") Base64.base64DecodeMap
         DecodingPadding.Ignore "-"%char
  /\ Base64.decodeBase64IgnorePadding (lit "A===-AAA") = Err InvalidPadding
  /\ ~ crossover_claim (lit "A===+AAA") Base64.base64urlDecodeMap
         DecodingPadding.Required "+"%char
  /\ Base64.decodeBase64url (lit "A===+AAA") = Err InvalidPadding.
Proof.
  assert (Hd : forall e, nth_error e 4 <> Some pad ->
                         data_position e (4 * 1) 0).
  { intros e He k' Hk'. replace k' with 0%nat by lia. exact He. }
  repeat split; try reflexivity; intros H.
  - specialize (H 1%nat 0%nat ltac:(lia) eq_refl
                  (Hd (lit "A===-AAA") ltac:(discriminate))).
    discriminate H.
  - specialize (H 1%nat 0%nat ltac:(lia) eq_refl
                  (Hd (lit "A===-AAA") ltac:(discriminate))).
    discriminate H.
  - specialize (H 1%nat 0%nat ltac:(lia) eq_refl
                  (Hd (lit "A===+AAA") ltac:(discriminate))).
    discriminate H.
Qed.

(** Claim C7 (crossover characters), as amended.  An input that holds
    '-' or '_' makes [decodeBase64] and [decodeBase64IgnorePadding] fail,
    and one that holds '+' or '/' makes [decodeBase64url] and
    [decodeBase64urlIgnorePadding] fail, with the error of the first window
    that fails.  When the character is at a data position, its window fails
    with invalid character, and so does the decoder when every earlier
    window decodes or fails with invalid character; in particular when no
    pad precedes the character in the input.  When a pad precedes it in its
    window, the window fails with invalid padding if the characters before
    its first pad are in the decode map. *)
Theorem crossover_rejected (e : str) (p : DecodingPadding.t) (q j : nat)
  (c : ascii) :
  (j < 4)%nat -> nth_error e (4 * q + j) = Some c ->
  ((c = "-"%char \/ c = "_"%char) ->
   fails_by (base64_window e Base64.base64DecodeMap p)
     (Base64.decodeBase64_internal e Base64.base64DecodeMap p) q
   /\ (data_position e (4 * q) j ->
       base64_window e Base64.base64DecodeMap p q = Err InvalidCharacter
       /\ ((forall q', (q' < q)%nat ->
              error_or_ok InvalidCharacter
                (base64_window e Base64.base64DecodeMap p q')) ->
           Base64.decodeBase64_internal e Base64.base64DecodeMap p
           = Err InvalidCharacter))
   /\ (no_pad_before e (4 * q + j) ->
       Base64.decodeBase64_internal e Base64.base64DecodeMap p
       = Err InvalidCharacter)
   /\ (forall j0, (j0 < j)%nat -> nth_error e (4 * q + j0) = Some pad ->
       leading_known e Base64.base64DecodeMap (4 * q) ->
       base64_window e Base64.base64DecodeMap p q = Err InvalidPadding))
  /\ ((c = "+"%char \/ c = "/"%char) ->
      fails_by (base64_window e Base64.base64urlDecodeMap p)
        (Base64.decodeBase64_internal e Base64.base64urlDecodeMap p) q
      /\ (data_position e (4 * q) j ->
          base64_window e Base64.base64urlDecodeMap p q = Err InvalidCharacter
          /\ ((forall q', (q' < q)%nat ->
                 error_or_ok InvalidCharacter
                   (base64_window e Base64.base64urlDecodeMap p q')) ->
              Base64.decodeBase64_internal e Base64.base64urlDecodeMap p
              = Err InvalidCharacter))
      /\ (no_pad_before e (4 * q + j) ->
          Base64.decodeBase64_internal e Base64.base64urlDecodeMap p
          = Err InvalidCharacter)
      /\ (forall j0, (j0 < j)%nat -> nth_error e (4 * q + j0) = Some pad ->
          leading_known e Base64.base64urlDecodeMap (4 * q) ->
          base64_window e Base64.base64urlDecodeMap p q = Err InvalidPadding)).
Proof.
  intros Hj Hc.
  assert (Hlen : (4 * q < List.length e)%nat).
  { assert (H : nth_error e (4 * q + j) <> None) by congruence.
    apply nth_error_Some in H. lia. }
  assert (Hgen : forall m, Ascii.eqb c pad = false -> lookup m c = None ->
            fails_by (base64_window e m p)
              (Base64.decodeBase64_internal e m p) q
            /\ (data_position e (4 * q) j ->
                base64_window e m p q = Err InvalidCharacter
                /\ ((forall q', (q' < q)%nat ->
                       error_or_ok InvalidCharacter
                         (base64_window e m p q')) ->
                    Base64.decodeBase64_internal e m p
                    = Err InvalidCharacter))
            /\ (no_pad_before e (4 * q + j) ->
                Base64.decodeBase64_internal e m p = Err InvalidCharacter)
            /\ (forall j0, (j0 < j)%nat ->
                  nth_error e (4 * q + j0) = Some pad ->
                  leading_known e m (4 * q) ->
                  base64_window e m p q = Err InvalidPadding)).
  { intros m Hne Hm.
    assert (Hby : fails_by (base64_window e m p)
                    (Base64.decodeBase64_internal e m p) q).
    { apply Base64Windows.b64_first_failure; [assumption | ].
      now apply (Base64Windows.b64_bad_char_window_fails e m p q j c). }
    split; [exact Hby | split; [ | split]].
    - intros Hd.
      assert (Hw : base64_window e m p q = Err InvalidCharacter)
        by now apply (Base64Windows.b64_stray_window e m p q j c).
      split; [exact Hw | ].
      intros Hbefore. apply (fails_by_error _ _ q InvalidCharacter Hby).
      intros q' Hq'. destruct (Nat.eq_dec q' q) as [-> | Hneq];
        [now left | apply Hbefore; lia].
    - destruct (Base64Errors.b64_bad_character e m p q j c Hj Hc Hne Hm)
        as (_ & _ & Hchar).
      exact Hchar.
    - intros j0 Hj0 Hpad Hlead.
      apply (Base64Windows.b64_pad_then_data_padding e m p q j0 j c);
        [lia | assumption ..]. }
  split; intros Hcross; apply Hgen;
    destruct Hcross as [-> | ->]; reflexivity.
Qed.

(** A crossover character after windows that decode, pads included; one
    after data characters only; one after a pad of its window. *)
Lemma crossover_rejected_witness :
  Base64.decodeBase64 (lit "AAA=-AAA") = Err InvalidCharacter
  /\ Base64.decodeBase64 (lit "SGVsbA==-AAA") = Err InvalidCharacter
  /\ Base64.decodeBase64urlIgnorePadding (lit "SGVs+/8") = Err InvalidCharacter
  /\ base64_window (lit "=-AA") Base64.base64DecodeMap
       DecodingPadding.Required 0 = Err InvalidPadding.
Proof.
  split; [ | split; [ | split]].
  - destruct (crossover_rejected (lit "AAA=-AAA") DecodingPadding.Required
                1 0 "-"%char ltac:(lia) eq_refl) as [H _].
    destruct (H (or_introl eq_refl)) as (_ & Hdata & _).
    apply Hdata.
    + intros k' Hk'. replace k' with 0%nat by lia. discriminate.
    + intros q' Hq'. right. replace q' with 0%nat by lia.
      eexists. reflexivity.
  - destruct (crossover_rejected (lit "SGVsbA==-AAA")
                DecodingPadding.Required 2 0 "-"%char ltac:(lia) eq_refl)
      as [H _].
    destruct (H (or_introl eq_refl)) as (_ & Hdata & _).
    apply Hdata.
    + intros k' Hk'. replace k' with 0%nat by lia. discriminate.
    + intros q' Hq'. right.
      destruct q' as [| [| q']]; [eexists; reflexivity .. | lia].
  - destruct (crossover_rejected (lit "SGVs+/8") DecodingPadding.Ignore
                1 1 "/"%char ltac:(lia) eq_refl) as [_ H].
    destruct (H (or_intror eq_refl)) as (_ & _ & Hchar & _). apply Hchar.
    intros k Hk.
    destruct k as [| [| [| [| [| k]]]]]; [discriminate .. | simpl in Hk; lia].
  - destruct (crossover_rejected (lit "=-AA") DecodingPadding.Required
                0 1 "-"%char ltac:(lia) eq_refl) as [H _].
    destruct (H (or_introl eq_refl)) as (_ & _ & _ & Hpad).
    apply (Hpad 0%nat); [lia | reflexivity | ].
    intros k c' Hc' Hd. exfalso. apply (Hd 0%nat); [lia | reflexivity].
Defined.

(** The claim on the positions past the end does not hold as stated for
    Base64: on "AA=" the position 3 is past the end, the character before
    it is a pad, and the decoder raises invalid padding. *)
Lemma unaligned_counterexample :
  ~ past_end_claim (lit "AA=") Base64.base64DecodeMap
  /\ Base64.scan_step (lit "AA=") Base64.base64DecodeMap
       DecodingPadding.Required 0 (0, 12) 3 = Err InvalidPadding
  /\ Base64.decodeBase64 (lit "AA=") = Err InvalidPadding
  /\ Base64.decodeBase64url (lit "AA=") = Err InvalidPadding.
Proof.
  repeat split; try reflexivity. intros H.
  specialize (H ltac:(discriminate) 0%nat 3%nat (0, 12)
                ltac:(simpl; lia) ltac:(lia)).
  discriminate H.
Qed.

(** Claim C9 (unaligned input in Required mode), as amended.  A string
    whose length is not a multiple of 4 makes [decodeBase64] and
    [decodeBase64url] fail, and one whose length is not a multiple of 8
    makes [decodeBase32] fail.  At a position past the end of the input the
    Base32 decoder raises invalid padding; the Base64 decoder raises invalid
    character, except after a pad, where its ordering test raises invalid
    padding.  On inputs made of data characters only the errors are invalid
    character (Base64) and invalid padding (Base32). *)
Theorem unaligned_rejected (e : str) :
  (Nat.modulo (List.length e) 4 <> 0%nat ->
   (exists E, Base64.decodeBase64 e = Err E)
   /\ (exists E, Base64.decodeBase64url e = Err E)
   /\ (all_data e Base64.base64DecodeMap ->
       Base64.decodeBase64 e = Err InvalidCharacter)
   /\ (all_data e Base64.base64urlDecodeMap ->
       Base64.decodeBase64url e = Err InvalidCharacter))
  /\ (Nat.modulo (List.length e) 8 <> 0%nat ->
      (exists E, Base32.decodeBase32 e = Err E)
      /\ (all_data e Base32.base32DecodeMap ->
          Base32.decodeBase32 e = Err InvalidPadding))
  /\ (forall m i st j,
        (List.length e <= i + j)%nat ->
        Base32.scan_step e m DecodingPadding.Required i st j
        = Err InvalidPadding
        /\ Base64.scan_step e m DecodingPadding.Required i st j
           = Err (if after_pad e i j then InvalidPadding
                  else InvalidCharacter)).
Proof.
  split; [ | split].
  - intros Hmod. repeat split.
    + now apply Base64Errors.b64_unaligned.
    + now apply Base64Errors.b64_unaligned.
    + now apply Base64Errors.b64_unaligned_data.
    + now apply Base64Errors.b64_unaligned_data.
  - intros Hmod. split.
    + now apply Base32Errors.b32_unaligned.
    + now apply Base32Errors.b32_unaligned_data.
  - intros m i st j Hlen. split.
    + now apply Base32Errors.b32_step_past_end.
    + now apply Base64Errors.b64_step_past_end.
Qed.

(** Five Base64 characters and ten Base32 characters, all in the
    alphabet. *)
Lemma unaligned_rejected_witness :
  Base64.decodeBase64 (lit "SGVsb") = Err InvalidCharacter
  /\ Base32.decodeBase32 (lit "JBSWY3DPJB") = Err InvalidPadding.
Proof.
  split.
  - destruct (unaligned_rejected (lit "SGVsb")) as [H64 _].
    destruct (H64 ltac:(discriminate)) as (_ & _ & Hdata & _).
    apply Hdata. intros k c Hc.
    destruct k as [| [| [| [| [| k]]]]];
      [injection Hc as <-; split; [reflexivity | discriminate] .. | ].
    destruct k; discriminate Hc.
  - destruct (unaligned_rejected (lit "JBSWY3DPJB")) as (_ & H32 & _).
    destruct (H32 ltac:(discriminate)) as (_ & Hdata).
    apply Hdata. intros k c Hc.
    do 10 (destruct k as [| k];
           [injection Hc as <-; split; [reflexivity | discriminate] | ]).
    destruct k; discriminate Hc.
Defined.

(** ** Further properties: helper lemmas *)

(** *** Hex digits *)

Module HexMore.
Import Hex HexFacts.

Ltac each_ascii c :=
  destruct c as [[] [] [] [] [] [] [] []].

Lemma hex_digit_spec (c : ascii) (v : Z) :
  lookup decodeMap c = Some v ->
  0 <= v < 16
  /\ char_at alphabetUpperCase v = [ascii_upper c]
  /\ char_at alphabetLowerCase v = [ascii_lower c].
Proof.
  each_ascii c; cbn; intros H; try discriminate H;
    injection H as <-; (split; [lia | split; reflexivity]).
Qed.

Lemma hex_case_lookup (c : ascii) :
  lookup decodeMap (ascii_upper c) = lookup decodeMap c
  /\ lookup decodeMap (ascii_lower c) = lookup decodeMap c.
Proof. each_ascii c; split; reflexivity. Qed.

Lemma small_cases (v : Z) :
  0 <= v < 16 ->
  v = 0 \/ v = 1 \/ v = 2 \/ v = 3 \/ v = 4 \/ v = 5 \/ v = 6 \/ v = 7
  \/ v = 8 \/ v = 9 \/ v = 10 \/ v = 11 \/ v = 12 \/ v = 13 \/ v = 14
  \/ v = 15.
Proof. lia. Qed.

(** The byte that [decode_pair] stores for the digit values [v1], [v2]. *)
Lemma hex_cell (v1 v2 : Z) :
  0 <= v1 < 16 -> 0 <= v2 < 16 ->
  let b := to_uint8 (JS.or (byte_val (to_uint8 (JS.or 0 (JS.shl v1 4)))) v2) in
  b = to_uint8 (16 * v1 + v2)
  /\ JS.sar (byte_val b) 4 = v1 /\ JS.and (byte_val b) 15 = v2.
Proof.
  intros H1 H2.
  apply small_cases in H1. apply small_cases in H2.
  repeat (destruct H1 as [-> | H1]); try subst v1;
    repeat (destruct H2 as [-> | H2]); try subst v2;
    vm_compute; repeat split; reflexivity.
Qed.

Lemma decode_pair_cons2 (c1 c2 : ascii) (rest : str) :
  decode_pair (c1 :: c2 :: rest) 0
  = if in_map decodeMap c1 && in_map decodeMap c2
    then Ok (to_uint8 (16 * hex_value c1 + hex_value c2))
    else Err InvalidCharacter.
Proof.
  unfold decode_pair, in_map, hex_value. cbn [nth_error Nat.add].
  destruct (lookup decodeMap c1) as [v1 |] eqn:E1; [ | reflexivity].
  destruct (lookup decodeMap c2) as [v2 |] eqn:E2; [ | reflexivity].
  cbn [andb]. f_equal.
  apply hex_cell; [apply (hex_digit_spec c1) | apply (hex_digit_spec c2)];
    assumption.
Qed.

Lemma decode_loop_acc (data : str) (n i : nat) (r : bytes) :
  decode_loop data n i r = out <- decode_loop data n i [] ;; Ok (r ++ out).
Proof.
  revert i r. induction n as [| n IH]; intros i r; simpl.
  - now rewrite app_nil_r.
  - destruct (decode_pair data i) as [b | e]; simpl; [ | reflexivity].
    rewrite IH. rewrite (IH _ [b]).
    destruct (decode_loop data n (i + 2) []); simpl; [ | reflexivity].
    now rewrite <- app_assoc.
Qed.

(** The loop of [decodeHex] on a string that starts with two characters. *)
Lemma decode_loop_cons2 (c1 c2 : ascii) (rest : str) :
  decode_loop (c1 :: c2 :: rest)
    (trips (List.length (c1 :: c2 :: rest)) 2) 0 []
  = b <- decode_pair (c1 :: c2 :: rest) 0 ;;
    out <- decode_loop rest (trips (List.length rest) 2) 0 [] ;;
    Ok (b :: out).
Proof.
  change (List.length (c1 :: c2 :: rest)) with (2 + List.length rest)%nat.
  rewrite trips_add by lia. cbn [decode_loop].
  destruct (decode_pair (c1 :: c2 :: rest) 0) as [b | e]; cbn [bind];
    [ | reflexivity].
  rewrite (decode_loop_shift c1 c2 rest _ 0). cbn [app].
  rewrite decode_loop_acc. reflexivity.
Qed.

Lemma mod2_cons2 {A} (a b : A) (l : list A) :
  Nat.modulo (List.length (a :: b :: l)) 2 = Nat.modulo (List.length l) 2.
Proof.
  change (List.length (a :: b :: l)) with (2 + List.length l)%nat.
  replace (2 + List.length l)%nat with (List.length l + 1 * 2)%nat by lia.
  now rewrite Nat.Div0.mod_add.
Qed.

Lemma list_ind2 {A} (P : list A -> Prop) :
  P [] -> (forall a, P [a]) ->
  (forall a b l, P l -> P (a :: b :: l)) -> forall l, P l.
Proof.
  intros H0 H1 H2.
  assert (H : forall l, P l /\ forall a, P (a :: l)).
  { induction l as [| b l [IH1 IH2]]; split; auto. }
  apply H.
Qed.

(** The loop of [decodeHex] on a string of even length. *)
Lemma decode_loop_even (data : str) :
  Nat.modulo (List.length data) 2 = 0%nat ->
  decode_loop data (trips (List.length data) 2) 0 []
  = if forallb (in_map decodeMap) data then Ok (hex_bytes data)
    else Err InvalidCharacter.
Proof.
  induction data as [| c | c1 c2 rest IH] using list_ind2; intros Hlen.
  - reflexivity.
  - discriminate Hlen.
  - rewrite mod2_cons2 in Hlen. rewrite decode_loop_cons2, decode_pair_cons2.
    rewrite (IH Hlen). cbn [forallb hex_bytes].
    destruct (in_map decodeMap c1); cbn [andb bind]; [ | reflexivity].
    destruct (in_map decodeMap c2); cbn [andb bind]; [ | reflexivity].
    destruct (forallb (in_map decodeMap) rest); reflexivity.
Qed.

Lemma hex_bytes_length (data : str) :
  Nat.modulo (List.length data) 2 = 0%nat ->
  List.length data = (2 * List.length (hex_bytes data))%nat.
Proof.
  induction data as [| c | c1 c2 rest IH] using list_ind2; intros Hlen.
  - reflexivity.
  - discriminate Hlen.
  - rewrite mod2_cons2 in Hlen. cbn [hex_bytes List.length].
    rewrite (IH Hlen). lia.
Qed.

Lemma in_map_case (c : ascii) :
  in_map decodeMap (ascii_upper c) = in_map decodeMap c
  /\ in_map decodeMap (ascii_lower c) = in_map decodeMap c.
Proof.
  unfold in_map. destruct (hex_case_lookup c) as [-> ->]. now split.
Qed.

Lemma hex_value_case (c : ascii) :
  hex_value (ascii_upper c) = hex_value c
  /\ hex_value (ascii_lower c) = hex_value c.
Proof.
  unfold hex_value. destruct (hex_case_lookup c) as [-> ->]. now split.
Qed.

Lemma hex_bytes_case (data : str) :
  hex_bytes (map ascii_upper data) = hex_bytes data
  /\ hex_bytes (map ascii_lower data) = hex_bytes data.
Proof.
  induction data as [| c | c1 c2 rest [IHu IHl]] using list_ind2;
    [now split | now split | ].
  cbn [map hex_bytes]. rewrite IHu, IHl.
  destruct (hex_value_case c1) as [-> ->].
  destruct (hex_value_case c2) as [-> ->]. now split.
Qed.

Lemma forallb_in_map_case (data : str) :
  forallb (in_map decodeMap) (map ascii_upper data)
  = forallb (in_map decodeMap) data
  /\ forallb (in_map decodeMap) (map ascii_lower data)
     = forallb (in_map decodeMap) data.
Proof.
  induction data as [| c data [IHu IHl]]; [now split | ].
  cbn [map forallb]. rewrite IHu, IHl.
  destruct (in_map_case c) as [-> ->]. now split.
Qed.

(** The digits written for the byte of two digit values. *)
Lemma digits_hex_bytes (c1 c2 : ascii) :
  in_map decodeMap c1 = true -> in_map decodeMap c2 = true ->
  let b := to_uint8 (16 * hex_value c1 + hex_value c2) in
  digits alphabetUpperCase b = [ascii_upper c1; ascii_upper c2]
  /\ digits alphabetLowerCase b = [ascii_lower c1; ascii_lower c2].
Proof.
  unfold in_map, hex_value.
  destruct (lookup decodeMap c1) as [v1 |] eqn:E1; [ | discriminate].
  destruct (lookup decodeMap c2) as [v2 |] eqn:E2; [ | discriminate].
  intros _ _.
  destruct (hex_digit_spec c1 v1 E1) as (R1 & U1 & L1).
  destruct (hex_digit_spec c2 v2 E2) as (R2 & U2 & L2).
  destruct (hex_cell v1 v2 R1 R2) as (Hb & Hhi & Hlo).
  cbv zeta. rewrite <- Hb. unfold digits. rewrite Hhi, Hlo.
  rewrite U1, U2, L1, L2. now split.
Qed.

Lemma encode_hex_bytes (data : str) :
  Nat.modulo (List.length data) 2 = 0%nat ->
  forallb (in_map decodeMap) data = true ->
  encode_loop alphabetUpperCase (hex_bytes data) [] = map ascii_upper data
  /\ encode_loop alphabetLowerCase (hex_bytes data) [] = map ascii_lower data.
Proof.
  induction data as [| c | c1 c2 rest IH] using list_ind2; intros Hlen Hall.
  - now split.
  - discriminate Hlen.
  - rewrite mod2_cons2 in Hlen. cbn [forallb] in Hall.
    apply andb_prop in Hall as [H1 Hall].
    apply andb_prop in Hall as [H2 Hall].
    destruct (IH Hlen Hall) as [IHu IHl].
    cbn [hex_bytes map]. rewrite !encode_loop_cons, IHu, IHl.
    destruct (digits_hex_bytes c1 c2 H1 H2) as [-> ->]. now split.
Qed.

Lemma encode_loop_app (alphabet : str) (A B : bytes) :
  encode_loop alphabet (A ++ B) []
  = encode_loop alphabet A [] ++ encode_loop alphabet B [].
Proof.
  induction A as [| a A IH]; [reflexivity | ].
  cbn [app]. rewrite !encode_loop_cons, IH. now rewrite app_assoc.
Qed.

Lemma hex_bytes_app (s1 s2 : str) :
  Nat.modulo (List.length s1) 2 = 0%nat ->
  hex_bytes (s1 ++ s2) = hex_bytes s1 ++ hex_bytes s2.
Proof.
  induction s1 as [| c | c1 c2 rest IH] using list_ind2; intros Hlen.
  - reflexivity.
  - discriminate Hlen.
  - rewrite mod2_cons2 in Hlen. cbn [app hex_bytes]. now rewrite IH.
Qed.

Lemma digits_case (b : byte) :
  digits alphabetLowerCase b = map ascii_lower (digits alphabetUpperCase b)
  /\ digits alphabetUpperCase b = map ascii_upper (digits alphabetLowerCase b).
Proof. destruct b; split; reflexivity. Qed.

Lemma encode_loop_case (data : bytes) :
  encode_loop alphabetLowerCase data []
  = map ascii_lower (encode_loop alphabetUpperCase data [])
  /\ encode_loop alphabetUpperCase data []
     = map ascii_upper (encode_loop alphabetLowerCase data []).
Proof.
  induction data as [| b data [IHl IHu]]; [now split | ].
  rewrite !encode_loop_cons, !map_app.
  destruct (digits_case b) as [Hl Hu].
  split; [rewrite <- Hl, <- IHl | rewrite <- Hu, <- IHu]; reflexivity.
Qed.

End HexMore.

(** *** Characters, loops and windows *)

Lemma is_pad_map (f : ascii -> ascii) (e : str) (k : nat) :
  (forall c, In c e -> Ascii.eqb (f c) pad = Ascii.eqb c pad) ->
  is_pad (nth_error (map f e) k) = is_pad (nth_error e k).
Proof.
  intros Hf. rewrite nth_error_map.
  destruct (nth_error e k) as [c |] eqn:E; [ | reflexivity].
  cbn. apply Hf. now apply nth_error_In with k.
Qed.

Lemma sym_map (f : ascii -> ascii) (al : str) (v : Z) :
  f pad = pad -> sym (map f al) v = f (sym al v).
Proof.
  intros Hpad. unfold sym. rewrite <- Hpad at 1. apply map_nth.
Qed.

Lemma map_pads (f : ascii -> ascii) (p : EncodingPadding.t) (n : nat) :
  f pad = pad -> map f (pads p n) = pads p n.
Proof.
  intros Hpad. destruct p; [ | reflexivity].
  cbn [pads]. induction n as [| n IH]; [reflexivity | ].
  cbn [repeat map]. now rewrite Hpad, IH.
Qed.

Lemma agrees_length (n : nat) (al : str) (m : decode_map) :
  agrees n al m = true -> List.length al = n.
Proof.
  unfold agrees. intros H. apply andb_prop in H as [H _].
  now apply Nat.eqb_eq.
Qed.

Lemma sym_In (n : nat) (al : str) (m : decode_map) (v : Z) :
  agrees n al m = true -> 0 <= v < Z.of_nat n -> In (sym al v) al.
Proof.
  intros Hag Hv. unfold sym. apply nth_In.
  rewrite (agrees_length n al m Hag). lia.
Qed.

Lemma chunks_ind {A} (W : nat) (P : list A -> Prop) :
  (0 < W)%nat ->
  (forall l, (List.length l < W)%nat -> P l) ->
  (forall c l, List.length c = W -> P l -> P (c ++ l)) ->
  forall l, P l.
Proof.
  intros HW Hshort Hstep l.
  remember (List.length l) as n eqn:En. revert l En.
  induction n as [n IH] using lt_wf_ind. intros l En.
  destruct (Nat.lt_ge_cases (List.length l) W) as [Hlt | Hge].
  - now apply Hshort.
  - rewrite <- (firstn_skipn W l). apply Hstep.
    + rewrite length_firstn. lia.
    + apply (IH (List.length (skipn W l))); [ | reflexivity].
      rewrite length_skipn. lia.
Qed.

Lemma mod_chunk (W a b : nat) :
  (0 < W)%nat -> Nat.modulo (W + b) W = Nat.modulo b W.
Proof.
  intros HW. replace (W + b)%nat with (b + 1 * W)%nat by lia.
  now rewrite Nat.Div0.mod_add.
Qed.

Lemma for_each_error {St} (f : St -> nat -> res St) (js : list nat) (s : St)
  (E : error) :
  for_each f js s = Err E -> exists s' j, In j js /\ f s' j = Err E.
Proof.
  revert s. induction js as [| j js IH]; intros s; cbn [for_each].
  - discriminate.
  - intros H. apply bind_err in H as [H | (s' & _ & H)].
    + exists s, j. split; [now left | assumption].
    + destruct (IH s' H) as (s'' & j' & Hin & Hf).
      exists s'', j'. split; [now right | assumption].
Qed.

Lemma for_each_ok_bound {St} (f : St -> nat -> res St) (g : St -> Z) (c : Z)
  (js : list nat) (s s' : St) :
  (forall s0 j s1, f s0 j = Ok s1 -> g s0 <= g s1 <= g s0 + c) ->
  for_each f js s = Ok s' ->
  g s <= g s' <= g s + c * Z.of_nat (List.length js).
Proof.
  intros Hf. revert s. induction js as [| j js IH]; intros s; cbn [for_each].
  - intros [= ->]. cbn. lia.
  - intros H. apply bind_ok in H as (s1 & H1 & H2).
    apply Hf in H1. apply IH in H2. cbn [List.length]. nia.
Qed.

Lemma loop_error (window : nat -> bytes -> res bytes) (W n i : nat)
  (r : bytes) (E : error) :
  loop window W n i r = Err E -> exists i' r', window i' r' = Err E.
Proof.
  revert i r. induction n as [| n IH]; intros i r; cbn [loop].
  - discriminate.
  - intros H. apply bind_err in H as [H | (r' & _ & H)]; eauto.
Qed.

Lemma loop_ok_length (window : nat -> bytes -> res bytes) (W k n i : nat)
  (r out : bytes) :
  (forall i r r', window i r = Ok r' ->
     (List.length r' <= List.length r + k)%nat) ->
  loop window W n i r = Ok out ->
  (List.length out <= List.length r + k * n)%nat.
Proof.
  intros Hw. revert i r. induction n as [| n IH]; intros i r; cbn [loop].
  - intros [= ->]. lia.
  - intros H. apply bind_ok in H as (r' & H1 & H2).
    apply Hw in H1. apply IH in H2. nia.
Qed.

Lemma loop_app (window : nat -> bytes -> res bytes) (W n1 n2 i : nat)
  (r : bytes) :
  loop window W (n1 + n2) i r
  = r' <- loop window W n1 i r ;; loop window W n2 (i + W * n1) r'.
Proof.
  revert i r. induction n1 as [| n1 IH]; intros i r.
  - cbn [Nat.add loop bind]. now rewrite Nat.mul_0_r, Nat.add_0_r.
  - cbn [Nat.add loop]. destruct (window i r) as [r' | e]; cbn [bind];
      [ | reflexivity].
    rewrite IH. replace (i + W + W * n1)%nat with (i + W * S n1)%nat by lia.
    reflexivity.
Qed.

Lemma loop_ext (w1 w2 : nat -> bytes -> res bytes) (W n i : nat) (r : bytes) :
  (forall k r', (k < n)%nat -> w1 (i + W * k)%nat r' = w2 (i + W * k)%nat r') ->
  loop w1 W n i r = loop w2 W n i r.
Proof.
  revert i r. induction n as [| n IH]; intros i r H; cbn [loop];
    [reflexivity | ].
  pose proof (H 0%nat r ltac:(lia)) as H0.
  rewrite Nat.mul_0_r, Nat.add_0_r in H0. rewrite H0.
  destruct (w2 i r) as [r' | e]; cbn [bind]; [ | reflexivity].
  apply IH. intros k r'' Hk.
  replace (i + W + W * k)%nat with (i + W * S k)%nat by lia.
  apply H. lia.
Qed.

Lemma trips_mul (W k : nat) : (0 < W)%nat -> trips (W * k) W = k.
Proof.
  intros HW. unfold trips.
  replace (W * k + W - 1)%nat with (W - 1 + k * W)%nat by lia.
  rewrite Nat.div_add by lia. rewrite Nat.div_small by lia. reflexivity.
Qed.

Module Base64More.
Import Base64 Base64Facts Base64Errors.

(** *** The decoder under a change of characters *)

Section CharMap.
Variables (f : ascii -> ascii) (m m' : decode_map) (e : str).
Hypothesis f_ok : forall c, In c e ->
  lookup m' (f c) = lookup m c /\ Ascii.eqb (f c) pad = Ascii.eqb c pad.

Lemma b64_scan_step_map (p : DecodingPadding.t) (i : nat) (st : Z * Z)
  (j : nat) :
  scan_step (map f e) m' p i st j = scan_step e m p i st j.
Proof.
  rewrite !b64_scan_step_eq.
  rewrite (is_pad_map f e (i + j - 1)) by (intros c Hc; now apply f_ok).
  rewrite nth_error_map.
  destruct (nth_error e (i + j)) as [c |] eqn:E; cbn [option_map];
    [ | reflexivity].
  apply nth_error_In in E. destruct (f_ok c E) as [-> ->]. reflexivity.
Qed.

Lemma b64_decode_window_map (p : DecodingPadding.t) (i : nat) (r : bytes) :
  decode_window (map f e) m' p i r = decode_window e m p i r.
Proof.
  unfold decode_window, scan.
  rewrite (for_each_ext _ (scan_step e m p i)); [reflexivity | ].
  intros s j _. apply b64_scan_step_map.
Qed.

Lemma b64_decode_map (p : DecodingPadding.t) :
  decodeBase64_internal (map f e) m' p = decodeBase64_internal e m p.
Proof.
  unfold decodeBase64_internal. rewrite length_map, !b64_loop_eq.
  apply loop_ext. intros k r' _. apply b64_decode_window_map.
Qed.

End CharMap.

(** *** The encoder under a change of alphabet *)

Lemma b64_encode_map (f : ascii -> ascii) (al : str) (m m' : decode_map)
  (p : EncodingPadding.t) (data : bytes) :
  agrees 64 al m = true -> agrees 64 (map f al) m' = true -> f pad = pad ->
  encodeBase64_internal data (map f al) p
  = map f (encodeBase64_internal data al p).
Proof.
  intros Hag Hag' Hpad.
  induction data as [| a | a b | a b c rest IH] using list_ind3.
  - reflexivity.
  - rewrite !b64_encode_short by (cbn; lia).
    rewrite (b64_encode_chunk_one al m Hag),
      (b64_encode_chunk_one (map f al) m' Hag').
    cbv zeta. rewrite map_app, map_pads by assumption.
    cbn [map]. now rewrite !sym_map.
  - rewrite !b64_encode_short by (cbn; lia).
    rewrite (b64_encode_chunk_two al m Hag),
      (b64_encode_chunk_two (map f al) m' Hag').
    cbv zeta. rewrite map_app, map_pads by assumption.
    cbn [map]. now rewrite !sym_map.
  - rewrite !b64_encode_cons3, map_app, IH.
    rewrite (b64_encode_chunk_full al m Hag),
      (b64_encode_chunk_full (map f al) m' Hag').
    cbv zeta. cbn [map]. now rewrite !sym_map.
Qed.

(** *** Pads, alphabet and concatenation *)

Lemma b64_pad_suffix (al : str) (m : decode_map) (data : bytes) :
  agrees 64 al m = true ->
  encodeBase64_internal data al EncodingPadding.Include
  = encodeBase64_internal data al EncodingPadding.None
    ++ repeat pad (pad_count 3 4 (List.length data)).
Proof.
  intros Hag.
  induction data as [| a | a b | a b c rest IH] using list_ind3.
  - reflexivity.
  - rewrite !b64_encode_short by (cbn; lia).
    rewrite !(b64_encode_chunk_one al m Hag). cbv zeta.
    cbn [pads]. now rewrite app_nil_r.
  - rewrite !b64_encode_short by (cbn; lia).
    rewrite !(b64_encode_chunk_two al m Hag). cbv zeta.
    cbn [pads]. now rewrite app_nil_r.
  - rewrite !b64_encode_cons3, IH, !(b64_encode_chunk_full al m Hag).
    cbv zeta. rewrite <- app_assoc. do 3 f_equal.
    unfold pad_count.
    change (List.length (a :: b :: c :: rest))
      with (3 + List.length rest)%nat.
    now rewrite (mod_chunk 3 0) by lia.
Qed.

Lemma b64_encode_alphabet (al : str) (m : decode_map) (data : bytes) :
  agrees 64 al m = true ->
  Forall (fun c => In c al)
    (encodeBase64_internal data al EncodingPadding.None).
Proof.
  intros Hag.
  assert (Hf : forall buf s, In (sym al (field buf s)) al).
  { intros. apply (sym_In 64 al m); [assumption | apply field_range]. }
  assert (Hl : forall buf s, In (sym al (last_field buf s)) al).
  { intros. apply (sym_In 64 al m); [assumption | apply last_field_range]. }
  induction data as [| a | a b | a b c rest IH] using list_ind3.
  - constructor.
  - rewrite b64_encode_short by (cbn; lia).
    rewrite (b64_encode_chunk_one al m Hag). cbv zeta.
    cbn [pads app]. repeat constructor; auto.
  - rewrite b64_encode_short by (cbn; lia).
    rewrite (b64_encode_chunk_two al m Hag). cbv zeta.
    cbn [pads app]. repeat constructor; auto.
  - rewrite b64_encode_cons3, (b64_encode_chunk_full al m Hag). cbv zeta.
    cbn [app]. repeat constructor; auto.
Qed.

Lemma b64_encode_app (al : str) (p : EncodingPadding.t) (A B : bytes) :
  Nat.modulo (List.length A) 3 = 0%nat ->
  encodeBase64_internal (A ++ B) al p
  = encodeBase64_internal A al p ++ encodeBase64_internal B al p.
Proof.
  induction A as [| a | a b | a b c rest IH] using list_ind3; intros Hlen.
  - reflexivity.
  - discriminate Hlen.
  - discriminate Hlen.
  - change (List.length (a :: b :: c :: rest))
      with (3 + List.length rest)%nat in Hlen.
    rewrite (mod_chunk 3 0) in Hlen by lia.
    cbn [app]. rewrite !b64_encode_cons3, (IH Hlen). now rewrite app_assoc.
Qed.

Lemma b64_decode_app (m : decode_map) (p : DecodingPadding.t) (s1 s2 : str) :
  Nat.modulo (List.length s1) 4 = 0%nat ->
  decodeBase64_internal (s1 ++ s2) m p
  = b1 <- decodeBase64_internal s1 m p ;;
    b2 <- decodeBase64_internal s2 m p ;; Ok (b1 ++ b2).
Proof.
  pattern s1. apply (chunks_ind 4); [lia | | ]; clear s1.
  - intros s1 Hshort Hlen. destruct s1 as [| c0 s1].
    + rewrite b64_decode_nil. cbn [app bind].
      now destruct (decodeBase64_internal s2 m p).
    + rewrite Nat.mod_small in Hlen by assumption. discriminate Hlen.
  - intros c rest Hc IH Hlen.
    destruct c as [| c0 [| c1 [| c2 [| c3 [| ]]]]]; try discriminate Hc.
    rewrite length_app, Hc, (mod_chunk 4 0) in Hlen by lia.
    cbn [app]. rewrite !b64_decode_cons4, (IH Hlen).
    rewrite (b64_decode_window_4 m p c0 c1 c2 c3 (rest ++ s2)).
    rewrite (b64_decode_window_4 m p c0 c1 c2 c3 rest).
    destruct (decode_window [c0; c1; c2; c3] m p 0 []) as [w | e];
      cbn [bind]; [ | reflexivity].
    destruct (decodeBase64_internal rest m p) as [b1 | e]; cbn [bind];
      [ | reflexivity].
    destruct (decodeBase64_internal s2 m p) as [b2 | e]; cbn [bind];
      [ | reflexivity].
    now rewrite app_assoc.
Qed.

(** *** Required and Ignore *)

Lemma b64_scan_step_in_range (e : str) (m : decode_map) (i : nat)
  (st : Z * Z) (j : nat) :
  (i + j < List.length e)%nat ->
  scan_step e m DecodingPadding.Required i st j
  = scan_step e m DecodingPadding.Ignore i st j.
Proof.
  intros H. rewrite !b64_scan_step_eq.
  destruct (nth_error e (i + j)) as [c |] eqn:E; [reflexivity | ].
  apply nth_error_None in E. lia.
Qed.

Lemma b64_window_in_range (e : str) (m : decode_map) (i : nat) (r : bytes) :
  (i + 4 <= List.length e)%nat ->
  decode_window e m DecodingPadding.Required i r
  = decode_window e m DecodingPadding.Ignore i r.
Proof.
  intros H. unfold decode_window, scan.
  rewrite (for_each_ext _ (scan_step e m DecodingPadding.Ignore i));
    [reflexivity | ].
  intros s j Hj. apply in_seq in Hj. apply b64_scan_step_in_range. lia.
Qed.

Lemma b64_modes_aligned (e : str) (m : decode_map) :
  Nat.modulo (List.length e) 4 = 0%nat ->
  decodeBase64_internal e m DecodingPadding.Required
  = decodeBase64_internal e m DecodingPadding.Ignore.
Proof.
  intros Hlen. unfold decodeBase64_internal. rewrite !b64_loop_eq.
  apply Nat.Div0.div_exact in Hlen.
  remember (Nat.div (List.length e) 4) as k eqn:Ek. clear Ek.
  rewrite Hlen, trips_mul by lia.
  apply loop_ext. intros q r' Hq. apply b64_window_in_range. lia.
Qed.

(** *** Bits and bytes of a window *)

Lemma b64_scan_bits (e : str) (m : decode_map) (p : DecodingPadding.t)
  (i : nat) (st : Z * Z) :
  scan e m p i = Ok st -> 0 <= snd st <= 24.
Proof.
  unfold scan. intros H.
  apply (for_each_ok_bound _ snd 6) in H; [cbn in H; lia | ].
  intros s0 j s1. rewrite b64_scan_step_eq.
  destruct (nth_error e (i + j)) as [c |].
  - destruct (Ascii.eqb c pad); [intros [= <-]; lia | ].
    destruct ((0 <? j)%nat && is_pad (nth_error e (i + j - 1)));
      [discriminate | ].
    destruct (lookup m c); [intros [= <-]; cbn; lia | discriminate].
  - destruct p; [ | intros [= <-]; lia].
    destruct ((0 <? j)%nat && is_pad (nth_error e (i + j - 1)));
      discriminate.
Qed.

Lemma b64_extract_length (chunk bits : Z) (r : bytes) :
  List.length (extract chunk bits r)
  = (List.length r + Z.to_nat (bits / 8))%nat.
Proof.
  unfold extract.
  rewrite (fold_left_snoc
             (fun k => to_uint8 (JS.and (JS.sar chunk (16 - Z.of_nat k * 8))
                                   255))).
  now rewrite length_app, length_map, length_seq.
Qed.

Lemma b64_window_length (e : str) (m : decode_map) (p : DecodingPadding.t)
  (i : nat) (r r' : bytes) :
  decode_window e m p i r = Ok r' ->
  (List.length r' <= List.length r + 3)%nat.
Proof.
  unfold decode_window. intros H.
  apply bind_ok in H as (st & Hscan & H).
  apply bind_ok in H as (u & _ & H). injection H as <-.
  apply b64_scan_bits in Hscan. rewrite b64_extract_length.
  assert (snd st / 8 <= 3) by (apply Z.div_le_upper_bound; lia).
  assert (0 <= snd st / 8) by (apply Z.div_pos; lia). lia.
Qed.

(** *** Errors *)

Lemma b64_scan_step_error (e : str) (m : decode_map) (p : DecodingPadding.t)
  (i : nat) (st : Z * Z) (j : nat) (E : error) :
  scan_step e m p i st j = Err E ->
  E = InvalidCharacter \/ E = InvalidPadding.
Proof.
  rewrite b64_scan_step_eq.
  destruct (nth_error e (i + j)) as [c |].
  - destruct (Ascii.eqb c pad); [discriminate | ].
    destruct ((0 <? j)%nat && is_pad (nth_error e (i + j - 1)));
      [intros [= <-]; auto | ].
    destruct (lookup m c); [discriminate | intros [= <-]; auto].
  - destruct p; [ | discriminate].
    destruct ((0 <? j)%nat && is_pad (nth_error e (i + j - 1)));
      intros [= <-]; auto.
Qed.

End Base64More.

Module Base32More.
Import Base32 Base64Facts Base32Facts Base32Errors.

(** *** The decoder under a change of characters *)

Section CharMap.
Variables (f : ascii -> ascii) (m m' : decode_map) (e : str).
Hypothesis f_ok : forall c, In c e ->
  lookup m' (f c) = lookup m c /\ Ascii.eqb (f c) pad = Ascii.eqb c pad.

Lemma b32_scan_step_map (p : DecodingPadding.t) (i : nat) (st : Z * Z)
  (j : nat) :
  scan_step (map f e) m' p i st j = scan_step e m p i st j.
Proof.
  rewrite !b32_scan_step_eq.
  rewrite (is_pad_map f e (i + j - 1)) by (intros c Hc; now apply f_ok).
  rewrite nth_error_map.
  destruct (nth_error e (i + j)) as [c |] eqn:E; cbn [option_map];
    [ | reflexivity].
  apply nth_error_In in E. destruct (f_ok c E) as [-> ->]. reflexivity.
Qed.

Lemma b32_decode_window_map (p : DecodingPadding.t) (i : nat) (r : bytes) :
  decode_window (map f e) m' p i r = decode_window e m p i r.
Proof.
  unfold decode_window, scan.
  rewrite (for_each_ext _ (scan_step e m p i)); [reflexivity | ].
  intros s j _. apply b32_scan_step_map.
Qed.

Lemma b32_decode_map (p : DecodingPadding.t) :
  decodeBase32_internal (map f e) m' p = decodeBase32_internal e m p.
Proof.
  unfold decodeBase32_internal. rewrite length_map, !b32_loop_eq.
  apply loop_ext. intros k r' _. apply b32_decode_window_map.
Qed.

End CharMap.

(** *** The encoder under a change of alphabet *)

Lemma map_sym (f : ascii -> ascii) (al : str) (vs : list Z) :
  f pad = pad -> map (sym (map f al)) vs = map f (map (sym al) vs).
Proof.
  intros Hpad. rewrite map_map. apply map_ext. intros v. now apply sym_map.
Qed.

Lemma b32_encode_map (f : ascii -> ascii) (al : str) (m m' : decode_map)
  (p : EncodingPadding.t) (data : bytes) :
  agrees 32 al m = true -> agrees 32 (map f al) m' = true -> f pad = pad ->
  encodeBase32_internal data (map f al) p
  = map f (encodeBase32_internal data al p).
Proof.
  intros Hag Hag' Hpad.
  induction data as [| a | a b | a b c | a b c d | a b c d x rest IH]
    using list_ind5.
  - reflexivity.
  - rewrite !b32_encode_short by (cbn; lia).
    rewrite (b32_encode_chunk_one al m Hag),
      (b32_encode_chunk_one (map f al) m' Hag').
    cbv zeta. now rewrite map_app, map_pads, map_sym.
  - rewrite !b32_encode_short by (cbn; lia).
    rewrite (b32_encode_chunk_two al m Hag),
      (b32_encode_chunk_two (map f al) m' Hag').
    cbv zeta. now rewrite map_app, map_pads, map_sym.
  - rewrite !b32_encode_short by (cbn; lia).
    rewrite (b32_encode_chunk_three al m Hag),
      (b32_encode_chunk_three (map f al) m' Hag').
    cbv zeta. now rewrite map_app, map_pads, map_sym.
  - rewrite !b32_encode_short by (cbn; lia).
    rewrite (b32_encode_chunk_four al m Hag),
      (b32_encode_chunk_four (map f al) m' Hag').
    cbv zeta. now rewrite map_app, map_pads, map_sym.
  - rewrite !b32_encode_cons5, map_app, IH.
    rewrite (b32_encode_chunk_five al m Hag),
      (b32_encode_chunk_five (map f al) m' Hag').
    cbv zeta. now rewrite map_sym.
Qed.

(** *** Pads, alphabet and concatenation *)

Lemma b32_pad_suffix (al : str) (m : decode_map) (data : bytes) :
  agrees 32 al m = true ->
  encodeBase32_internal data al EncodingPadding.Include
  = encodeBase32_internal data al EncodingPadding.None
    ++ repeat pad (pad_count 5 8 (List.length data)).
Proof.
  intros Hag.
  induction data as [| a | a b | a b c | a b c d | a b c d x rest IH]
    using list_ind5.
  - reflexivity.
  - rewrite !b32_encode_short by (cbn; lia).
    rewrite !(b32_encode_chunk_one al m Hag). cbv zeta.
    cbn [pads]. now rewrite app_nil_r.
  - rewrite !b32_encode_short by (cbn; lia).
    rewrite !(b32_encode_chunk_two al m Hag). cbv zeta.
    cbn [pads]. now rewrite app_nil_r.
  - rewrite !b32_encode_short by (cbn; lia).
    rewrite !(b32_encode_chunk_three al m Hag). cbv zeta.
    cbn [pads]. now rewrite app_nil_r.
  - rewrite !b32_encode_short by (cbn; lia).
    rewrite !(b32_encode_chunk_four al m Hag). cbv zeta.
    cbn [pads]. now rewrite app_nil_r.
  - rewrite !b32_encode_cons5, IH, !(b32_encode_chunk_five al m Hag).
    cbv zeta. rewrite <- app_assoc. do 3 f_equal.
    unfold pad_count.
    change (List.length (a :: b :: c :: d :: x :: rest))
      with (5 + List.length rest)%nat.
    now rewrite (mod_chunk 5 0) by lia.
Qed.

Lemma b32_encode_alphabet (al : str) (m : decode_map) (data : bytes) :
  agrees 32 al m = true ->
  Forall (fun c => In c al)
    (encodeBase32_internal data al EncodingPadding.None).
Proof.
  intros Hag.
  assert (Hf : forall buf s, In (sym al (field5 buf s)) al).
  { intros. apply (sym_In 32 al m); [assumption | apply field5_range]. }
  induction data as [| a | a b | a b c | a b c d | a b c d x rest IH]
    using list_ind5.
  - constructor.
  - rewrite b32_encode_short by (cbn; lia).
    rewrite (b32_encode_chunk_one al m Hag). cbv zeta.
    cbn [pads app map]. repeat constructor; auto.
  - rewrite b32_encode_short by (cbn; lia).
    rewrite (b32_encode_chunk_two al m Hag). cbv zeta.
    cbn [pads app map]. repeat constructor; auto.
  - rewrite b32_encode_short by (cbn; lia).
    rewrite (b32_encode_chunk_three al m Hag). cbv zeta.
    cbn [pads app map]. repeat constructor; auto.
  - rewrite b32_encode_short by (cbn; lia).
    rewrite (b32_encode_chunk_four al m Hag). cbv zeta.
    cbn [pads app map]. repeat constructor; auto.
  - rewrite b32_encode_cons5, (b32_encode_chunk_five al m Hag). cbv zeta.
    cbn [app map]. repeat constructor; auto.
Qed.

Lemma b32_encode_app (al : str) (p : EncodingPadding.t) (A B : bytes) :
  Nat.modulo (List.length A) 5 = 0%nat ->
  encodeBase32_internal (A ++ B) al p
  = encodeBase32_internal A al p ++ encodeBase32_internal B al p.
Proof.
  induction A as [| a | a b | a b c | a b c d | a b c d x rest IH]
    using list_ind5; intros Hlen; try discriminate Hlen.
  - reflexivity.
  - change (List.length (a :: b :: c :: d :: x :: rest))
      with (5 + List.length rest)%nat in Hlen.
    rewrite (mod_chunk 5 0) in Hlen by lia.
    cbn [app]. rewrite !b32_encode_cons5, (IH Hlen). now rewrite app_assoc.
Qed.

Lemma b32_decode_app (m : decode_map) (p : DecodingPadding.t) (s1 s2 : str) :
  Nat.modulo (List.length s1) 8 = 0%nat ->
  decodeBase32_internal (s1 ++ s2) m p
  = b1 <- decodeBase32_internal s1 m p ;;
    b2 <- decodeBase32_internal s2 m p ;; Ok (b1 ++ b2).
Proof.
  pattern s1. apply (chunks_ind 8); [lia | | ]; clear s1.
  - intros s1 Hshort Hlen. destruct s1 as [| c0 s1].
    + change (decodeBase32_internal [] m p) with (@Ok bytes []).
      cbn [app bind]. now destruct (decodeBase32_internal s2 m p).
    + rewrite Nat.mod_small in Hlen by assumption. discriminate Hlen.
  - intros c rest Hc IH Hlen.
    destruct c as [| c0 [| c1 [| c2 [| c3 [| c4 [| c5 [| c6 [| c7 [| ]]]]]]]]];
      try discriminate Hc.
    rewrite length_app, Hc, (mod_chunk 8 0) in Hlen by lia.
    cbn [app]. rewrite !b32_decode_cons8. cbv zeta. rewrite (IH Hlen).
    rewrite (b32_decode_window_8 m p c0 c1 c2 c3 c4 c5 c6 c7 (rest ++ s2)).
    rewrite (b32_decode_window_8 m p c0 c1 c2 c3 c4 c5 c6 c7 rest).
    destruct (decode_window [c0; c1; c2; c3; c4; c5; c6; c7] m p 0 [])
      as [w | e]; cbn [bind]; [ | reflexivity].
    destruct (decodeBase32_internal rest m p) as [b1 | e]; cbn [bind];
      [ | reflexivity].
    destruct (decodeBase32_internal s2 m p) as [b2 | e]; cbn [bind];
      [ | reflexivity].
    now rewrite app_assoc.
Qed.

(** *** Required and Ignore *)

Lemma b32_scan_step_in_range (e : str) (m : decode_map) (i : nat)
  (st : Z * Z) (j : nat) :
  (i + j < List.length e)%nat ->
  scan_step e m DecodingPadding.Required i st j
  = scan_step e m DecodingPadding.Ignore i st j.
Proof.
  intros H. rewrite !b32_scan_step_eq.
  destruct (nth_error e (i + j)) as [c |] eqn:E; [reflexivity | ].
  apply nth_error_None in E. lia.
Qed.

Lemma b32_window_in_range (e : str) (m : decode_map) (i : nat) (r : bytes) :
  (i + 8 <= List.length e)%nat ->
  decode_window e m DecodingPadding.Required i r
  = decode_window e m DecodingPadding.Ignore i r.
Proof.
  intros H. unfold decode_window, scan.
  rewrite (for_each_ext _ (scan_step e m DecodingPadding.Ignore i));
    [reflexivity | ].
  intros s j Hj. apply in_seq in Hj. apply b32_scan_step_in_range. lia.
Qed.

Lemma b32_modes_aligned (e : str) (m : decode_map) :
  Nat.modulo (List.length e) 8 = 0%nat ->
  decodeBase32_internal e m DecodingPadding.Required
  = decodeBase32_internal e m DecodingPadding.Ignore.
Proof.
  intros Hlen. unfold decodeBase32_internal. rewrite !b32_loop_eq.
  apply Nat.Div0.div_exact in Hlen.
  remember (Nat.div (List.length e) 8) as k eqn:Ek. clear Ek.
  rewrite Hlen, trips_mul by lia.
  apply loop_ext. intros q r' Hq. apply b32_window_in_range. lia.
Qed.

(** *** Bits and bytes of a window *)

Lemma b32_scan_bits (e : str) (m : decode_map) (p : DecodingPadding.t)
  (i : nat) (st : Z * Z) :
  scan e m p i = Ok st -> 0 <= snd st <= 40.
Proof.
  unfold scan. intros H.
  apply (for_each_ok_bound _ snd 5) in H; [cbn in H; lia | ].
  intros s0 j s1. rewrite b32_scan_step_eq.
  destruct (nth_error e (i + j)) as [c |].
  - destruct (Ascii.eqb c pad); [intros [= <-]; lia | ].
    destruct ((0 <? j)%nat && is_pad (nth_error e (i + j - 1)));
      [discriminate | ].
    destruct (lookup m c); [intros [= <-]; cbn; lia | discriminate].
  - destruct p; [discriminate | intros [= <-]; lia].
Qed.

Lemma b32_extract_length (chunk bits : Z) (r : bytes) :
  List.length (extract chunk bits r)
  = (List.length r + Z.to_nat (bits / 8))%nat.
Proof.
  unfold extract.
  rewrite (fold_left_snoc
             (fun k => to_uint8 (Z.land (Z.shiftr chunk (32 - Z.of_nat k * 8))
                                   255))).
  now rewrite length_app, length_map, length_seq.
Qed.

Lemma b32_window_length (e : str) (m : decode_map) (p : DecodingPadding.t)
  (i : nat) (r r' : bytes) :
  decode_window e m p i r = Ok r' ->
  (List.length r' <= List.length r + 5)%nat.
Proof.
  unfold decode_window. intros H.
  apply bind_ok in H as (st & Hscan & H).
  apply bind_ok in H as (u & _ & H). injection H as <-.
  apply b32_scan_bits in Hscan. rewrite b32_extract_length.
  assert (snd st / 8 <= 5) by (apply Z.div_le_upper_bound; lia).
  assert (0 <= snd st / 8) by (apply Z.div_pos; lia). lia.
Qed.

(** *** Errors *)

Lemma b32_scan_step_error (e : str) (m : decode_map) (p : DecodingPadding.t)
  (i : nat) (st : Z * Z) (j : nat) (E : error) :
  scan_step e m p i st j = Err E ->
  E = InvalidCharacter \/ E = InvalidPadding.
Proof.
  rewrite b32_scan_step_eq.
  destruct (nth_error e (i + j)) as [c |].
  - destruct (Ascii.eqb c pad); [discriminate | ].
    destruct ((0 <? j)%nat && is_pad (nth_error e (i + j - 1)));
      [intros [= <-]; auto | ].
    destruct (lookup m c); [discriminate | intros [= <-]; auto].
  - destruct p; [intros [= <-]; auto | discriminate].
Qed.

(** *** The aligned buffer of the encoder *)

Lemma b32_read_size (data : bytes) (i : nat) (js : list nat) (st : Z * Z) :
  exists k, (k <= List.length js)%nat
    /\ snd (read_loop data i js st) = snd st + 8 * Z.of_nat k.
Proof.
  revert st. induction js as [| j js IH]; intros st; cbn [read_loop].
  - exists 0%nat. split; [lia | cbn; lia].
  - destruct (nth_error data (i + j)) as [b |].
    + destruct (IH (Z.lor (Z.shiftl (fst st) 8) (byte_val b), snd st + 8))
        as (k & Hk & ->).
      exists (S k). split; [cbn; lia | cbn [snd]; lia].
    + exists 0%nat. split; [lia | cbn; lia].
Qed.

Lemma b32_align_size (st : Z * Z) :
  snd (align st)
  = if negb (Z.rem (snd st) 5 =? 0) then snd st + (5 - Z.rem (snd st) 5)
    else snd st.
Proof.
  destruct st as [buffer size]. unfold align. cbn [snd].
  destruct (negb (Z.rem size 5 =? 0)); reflexivity.
Qed.

Lemma b32_aligned (data : bytes) (i : nat) :
  let size := snd (align (read_loop data i (seq 0 5) (0, 0))) in
  0 <= size /\ size mod 5 = 0.
Proof.
  cbv zeta. rewrite b32_align_size.
  destruct (b32_read_size data i (seq 0 5) (0, 0)) as (k & Hk & ->).
  cbn [snd List.length seq] in *.
  do 6 (destruct k as [| k]; [vm_compute; split; [discriminate | reflexivity]
                             | ]).
  lia.
Qed.

Lemma b32_emit_size (al : str) (p : EncodingPadding.t) (buffer : Z)
  (st : str * Z) (j : nat) :
  0 <= snd st /\ snd st mod 5 = 0 ->
  0 <= snd (emit al p buffer st j) /\ snd (emit al p buffer st j) mod 5 = 0.
Proof.
  destruct st as [r size]. cbn [snd]. intros [H0 H5]. unfold emit.
  destruct (5 <=? size) eqn:E5; cbn [snd].
  - apply Z.leb_le in E5. split; [lia | ].
    replace (size - 5) with (size + (-1) * 5) by lia.
    now rewrite Z.mod_add by lia.
  - destruct (0 <? size); cbn [snd]; [split; [lia | reflexivity] | ].
    destruct p; cbn [snd]; auto.
Qed.

Lemma b32_emit_loop_size (al : str) (p : EncodingPadding.t) (buffer : Z)
  (js : list nat) (st : str * Z) :
  0 <= snd st /\ snd st mod 5 = 0 ->
  0 <= snd (fold_left (emit al p buffer) js st)
  /\ snd (fold_left (emit al p buffer) js st) mod 5 = 0.
Proof.
  revert st. induction js as [| j js IH]; intros st H; cbn [fold_left];
    [assumption | ].
  apply IH. now apply b32_emit_size.
Qed.

End Base32More.

(** *** Characters of the alphabets *)

Lemma url_char_lookup (c : ascii) :
  url_only c = false ->
  lookup Base64.base64urlDecodeMap (url_char c)
  = lookup Base64.base64DecodeMap c
  /\ Ascii.eqb (url_char c) pad = Ascii.eqb c pad.
Proof.
  HexMore.each_ascii c; intros H; try discriminate H; split; reflexivity.
Qed.

Lemma base32_case_lookup (c : ascii) :
  (lookup Base32.base32DecodeMap (ascii_upper c)
   = lookup Base32.base32DecodeMap c
   /\ Ascii.eqb (ascii_upper c) pad = Ascii.eqb c pad)
  /\ (lookup Base32.base32DecodeMap (ascii_lower c)
      = lookup Base32.base32DecodeMap c
      /\ Ascii.eqb (ascii_lower c) pad = Ascii.eqb c pad).
Proof. HexMore.each_ascii c; repeat split; reflexivity. Qed.

Lemma base64url_alphabet_map :
  Base64.base64urlAlphabet = map url_char Base64.base64Alphabet.
Proof. reflexivity. Qed.

Lemma base32_alphabet_map :
  Base32.base32LowerCaseAlphabet
  = map ascii_lower Base32.base32UpperCaseAlphabet
  /\ Base32.base32UpperCaseAlphabet
     = map ascii_upper Base32.base32LowerCaseAlphabet.
Proof. split; reflexivity. Qed.

Lemma padded_length_mod (k w n : nat) :
  Nat.modulo (encoded_length k w EncodingPadding.Include n) w = 0%nat.
Proof.
  cbn [encoded_length]. rewrite Nat.mul_comm. apply Nat.Div0.mod_mul.
Qed.

Lemma Forall_pads (al : str) (n : nat) :
  Forall (fun c => In c al \/ c = pad) (repeat pad n).
Proof. apply Forall_forall. intros c Hc. apply repeat_spec in Hc. auto. Qed.

(** *** The groups of bits of an encoding *)

Lemma b64_encode_groups (al : str) (m : decode_map) (data : bytes) :
  agrees 64 al m = true ->
  Base64.encodeBase64_internal data al EncodingPadding.None
  = map (sym al) (groups6 data).
Proof.
  intros Hag.
  induction data as [| a | a b | a b c rest IH] using list_ind3.
  - reflexivity.
  - rewrite Base64Facts.b64_encode_short by (cbn; lia).
    rewrite (Base64Facts.b64_encode_chunk_one al m Hag). cbv zeta.
    cbn [pads]. now rewrite app_nil_r.
  - rewrite Base64Facts.b64_encode_short by (cbn; lia).
    rewrite (Base64Facts.b64_encode_chunk_two al m Hag). cbv zeta.
    cbn [pads]. now rewrite app_nil_r.
  - rewrite Base64Facts.b64_encode_cons3, IH.
    rewrite (Base64Facts.b64_encode_chunk_full al m Hag). cbv zeta.
    change (groups6 (a :: b :: c :: rest))
      with ([field (byte_val a * 65536 + byte_val b * 256 + byte_val c) 18;
             field (byte_val a * 65536 + byte_val b * 256 + byte_val c) 12;
             field (byte_val a * 65536 + byte_val b * 256 + byte_val c) 6;
             field (byte_val a * 65536 + byte_val b * 256 + byte_val c) 0]
            ++ groups6 rest).
    now rewrite map_app.
Qed.

Lemma groups6_range (data : bytes) :
  Forall (fun v => 0 <= v < 64) (groups6 data).
Proof.
  induction data as [| a | a b | a b c rest IH] using list_ind3.
  - constructor.
  - repeat constructor;
      first [apply Base64Facts.field_range
            | apply Base64Facts.last_field_range].
  - repeat constructor;
      first [apply Base64Facts.field_range
            | apply Base64Facts.last_field_range].
  - change (groups6 (a :: b :: c :: rest))
      with ([field (byte_val a * 65536 + byte_val b * 256 + byte_val c) 18;
             field (byte_val a * 65536 + byte_val b * 256 + byte_val c) 12;
             field (byte_val a * 65536 + byte_val b * 256 + byte_val c) 6;
             field (byte_val a * 65536 + byte_val b * 256 + byte_val c) 0]
            ++ groups6 rest).
    apply Forall_app. split; [ | exact IH].
    repeat constructor; apply Base64Facts.field_range.
Qed.

Lemma groups5_cons5 (a b c d x : byte) (rest : bytes) :
  groups5 (a :: b :: c :: d :: x :: rest)
  = (let buf :=
       (((byte_val a * 256 + byte_val b) * 256 + byte_val c) * 256
        + byte_val d) * 256 + byte_val x in
     [field5 buf 35; field5 buf 30; field5 buf 25; field5 buf 20;
      field5 buf 15; field5 buf 10; field5 buf 5; field5 buf 0])
    ++ groups5 rest.
Proof. reflexivity. Qed.

Lemma b32_encode_groups (al : str) (m : decode_map) (data : bytes) :
  agrees 32 al m = true ->
  Base32.encodeBase32_internal data al EncodingPadding.None
  = map (sym al) (groups5 data).
Proof.
  intros Hag.
  induction data as [| a | a b | a b c | a b c d | a b c d x rest IH]
    using list_ind5.
  - reflexivity.
  - rewrite Base32Facts.b32_encode_short by (cbn; lia).
    rewrite (Base32Facts.b32_encode_chunk_one al m Hag). cbv zeta.
    cbn [pads]. now rewrite app_nil_r.
  - rewrite Base32Facts.b32_encode_short by (cbn; lia).
    rewrite (Base32Facts.b32_encode_chunk_two al m Hag). cbv zeta.
    cbn [pads]. now rewrite app_nil_r.
  - rewrite Base32Facts.b32_encode_short by (cbn; lia).
    rewrite (Base32Facts.b32_encode_chunk_three al m Hag). cbv zeta.
    cbn [pads]. now rewrite app_nil_r.
  - rewrite Base32Facts.b32_encode_short by (cbn; lia).
    rewrite (Base32Facts.b32_encode_chunk_four al m Hag). cbv zeta.
    cbn [pads]. now rewrite app_nil_r.
  - rewrite Base32Facts.b32_encode_cons5, IH.
    rewrite (Base32Facts.b32_encode_chunk_five al m Hag). cbv zeta.
    rewrite groups5_cons5. cbv zeta. now rewrite map_app.
Qed.

Lemma groups5_range (data : bytes) :
  Forall (fun v => 0 <= v < 32) (groups5 data).
Proof.
  induction data as [| a | a b | a b c | a b c d | a b c d x rest IH]
    using list_ind5;
    try (repeat constructor; apply field5_range).
  rewrite groups5_cons5. cbv zeta. apply Forall_app. split; [ | exact IH].
  repeat constructor; apply field5_range.
Qed.

(** ** Further properties of the codecs *)

(** ** Hex *)


(** Property X1.  [decodeHex] as a function of its input: an odd length is an
    invalid hex string, a character outside the decode map is an invalid
    character, and any other string gives the bytes of its pairs of digits. *)
Theorem decodeHex_outcome (data : str) :
  Hex.decodeHex data
  = if negb (Nat.eqb (Nat.modulo (List.length data) 2) 0)
    then Err InvalidHexString
    else if forallb (in_map Hex.decodeMap) data then Ok (hex_bytes data)
         else Err InvalidCharacter.
Proof.
  unfold Hex.decodeHex.
  destruct (Nat.eqb (Nat.modulo (List.length data) 2) 0) eqn:E;
    cbn [negb]; [ | reflexivity].
  apply Nat.eqb_eq in E. now apply HexMore.decode_loop_even.
Qed.

Lemma decodeHex_ok_inv (data : str) (out : bytes) :
  Hex.decodeHex data = Ok out ->
  Nat.modulo (List.length data) 2 = 0%nat
  /\ forallb (in_map Hex.decodeMap) data = true
  /\ out = hex_bytes data.
Proof.
  unfold Hex.decodeHex.
  destruct (Nat.eqb (Nat.modulo (List.length data) 2) 0) eqn:E;
    cbn [negb]; [ | discriminate].
  apply Nat.eqb_eq in E. rewrite (HexMore.decode_loop_even data E).
  destruct (forallb (in_map Hex.decodeMap) data); [ | discriminate].
  intros [= <-]. auto.
Qed.

(** Property X2.  A string that [decodeHex] accepts has two characters for
    each byte of the result. *)
Theorem decodeHex_length (data : str) (out : bytes) :
  Hex.decodeHex data = Ok out ->
  List.length data = (2 * List.length out)%nat.
Proof.
  intros H. apply decodeHex_ok_inv in H as (Hlen & _ & ->).
  now apply HexMore.hex_bytes_length.
Qed.

(** The length of "ff0a0F" and of its three bytes. *)
Lemma decodeHex_length_witness :
  Hex.decodeHex (lit "ff0a0F") = Ok (map to_uint8 [255; 10; 15])
  /\ List.length (lit "ff0a0F")
     = Nat.mul 2 (List.length (map to_uint8 [255; 10; 15])).
Proof.
  split; [reflexivity | ].
  apply (decodeHex_length (lit "ff0a0F") (map to_uint8 [255; 10; 15])).
  reflexivity.
Defined.

(** Property X3.  [decodeHex] does not see the case of the letters: a string,
    its upper-case form and its lower-case form have the same result. *)
Theorem decodeHex_case_insensitive (data : str) :
  Hex.decodeHex (map ascii_upper data) = Hex.decodeHex data
  /\ Hex.decodeHex (map ascii_lower data) = Hex.decodeHex data.
Proof.
  unfold Hex.decodeHex. rewrite !length_map.
  destruct (Nat.eqb (Nat.modulo (List.length data) 2) 0) eqn:E;
    cbn [negb]; [ | now split].
  apply Nat.eqb_eq in E.
  rewrite (HexMore.decode_loop_even data E).
  pose proof (HexMore.decode_loop_even (map ascii_upper data)) as Hu.
  pose proof (HexMore.decode_loop_even (map ascii_lower data)) as Hl.
  rewrite length_map in Hu, Hl. rewrite (Hu E), (Hl E).
  destruct (HexMore.forallb_in_map_case data) as [-> ->].
  destruct (HexMore.hex_bytes_case data) as [-> ->]. now split.
Qed.

(** Property X4.  Encoding what [decodeHex] returned gives the input back with
    its letters in the case of the encoder. *)
Theorem decodeHex_then_encode (data : str) (out : bytes) :
  Hex.decodeHex data = Ok out ->
  Hex.encodeHexUpperCase out = map ascii_upper data
  /\ Hex.encodeHexLowerCase out = map ascii_lower data.
Proof.
  intros H. apply decodeHex_ok_inv in H as (Hlen & Hall & ->).
  now apply HexMore.encode_hex_bytes.
Qed.

(** "ff0a0F" comes back as "FF0A0F" and as "ff0a0f". *)
Lemma decodeHex_then_encode_witness :
  Hex.decodeHex (lit "ff0a0F") = Ok (map to_uint8 [255; 10; 15])
  /\ Hex.encodeHexUpperCase (map to_uint8 [255; 10; 15])
     = map ascii_upper (lit "ff0a0F")
  /\ Hex.encodeHexLowerCase (map to_uint8 [255; 10; 15])
     = map ascii_lower (lit "ff0a0F").
Proof.
  split; [reflexivity | ].
  apply (decodeHex_then_encode (lit "ff0a0F") (map to_uint8 [255; 10; 15])).
  reflexivity.
Defined.

(** Property X5.  The hex encoders work byte by byte: the encoding of a
    concatenation is the concatenation of the encodings, and the lower-case
    encoding is the upper-case one with its letters in lower case. *)
Theorem encodeHex_app_case (A B : bytes) :
  Hex.encodeHexUpperCase (A ++ B)
  = Hex.encodeHexUpperCase A ++ Hex.encodeHexUpperCase B
  /\ Hex.encodeHexLowerCase (A ++ B)
     = Hex.encodeHexLowerCase A ++ Hex.encodeHexLowerCase B
  /\ Hex.encodeHexLowerCase A = map ascii_lower (Hex.encodeHexUpperCase A)
  /\ Hex.encodeHexUpperCase A = map ascii_upper (Hex.encodeHexLowerCase A).
Proof.
  unfold Hex.encodeHexUpperCase, Hex.encodeHexLowerCase.
  rewrite !HexMore.encode_loop_app.
  destruct (HexMore.encode_loop_case A) as [Hl Hu]. auto.
Qed.

(** Property X6.  [decodeHex] works pair by pair: on two strings of even
    length the result for the concatenation is the concatenation of the
    results, and the first error is the error of the concatenation. *)
Theorem decodeHex_app (s1 s2 : str) :
  Nat.modulo (List.length s1) 2 = 0%nat ->
  Nat.modulo (List.length s2) 2 = 0%nat ->
  Hex.decodeHex (s1 ++ s2)
  = b1 <- Hex.decodeHex s1 ;; b2 <- Hex.decodeHex s2 ;; Ok (b1 ++ b2).
Proof.
  intros H1 H2. unfold Hex.decodeHex.
  rewrite length_app, Nat.Div0.add_mod, H1, H2, <- length_app.
  change (Nat.modulo (0 + 0) 2) with 0%nat. cbn [Nat.eqb negb].
  rewrite !HexMore.decode_loop_even; try assumption.
  2:{ now rewrite length_app, Nat.Div0.add_mod, H1, H2. }
  rewrite forallb_app, HexMore.hex_bytes_app by assumption.
  destruct (forallb (in_map Hex.decodeMap) s1); cbn [andb bind];
    [ | reflexivity].
  destruct (forallb (in_map Hex.decodeMap) s2); reflexivity.
Qed.

(** "ff0a" followed by "0F". *)
Lemma decodeHex_app_witness :
  Nat.modulo (List.length (lit "ff0a")) 2 = 0%nat
  /\ Nat.modulo (List.length (lit "0F")) 2 = 0%nat
  /\ Hex.decodeHex (lit "ff0a" ++ lit "0F")
     = b1 <- Hex.decodeHex (lit "ff0a") ;;
       b2 <- Hex.decodeHex (lit "0F") ;; Ok (b1 ++ b2).
Proof.
  split; [reflexivity | ]. split; [reflexivity | ].
  apply (decodeHex_app (lit "ff0a") (lit "0F")); reflexivity.
Defined.

(** ** Base64 *)

(** Property X7.  The Base64url encoders write what the Base64 encoders write,
    with "+" replaced by "-" and "/" by "_". *)
Theorem base64url_encoding_translates (B : bytes) :
  Base64.encodeBase64url B = map url_char (Base64.encodeBase64 B)
  /\ Base64.encodeBase64urlNoPadding B
     = map url_char (Base64.encodeBase64NoPadding B).
Proof.
  unfold Base64.encodeBase64url, Base64.encodeBase64urlNoPadding,
    Base64.encodeBase64, Base64.encodeBase64NoPadding.
  rewrite base64url_alphabet_map.
  split;
    apply (Base64More.b64_encode_map url_char Base64.base64Alphabet
             Base64.base64DecodeMap Base64.base64urlDecodeMap _ B
             base64_agrees base64url_agrees eq_refl).
Qed.

(** Property X8.  The Base64url decoders read the translation of a string as
    the Base64 decoders read the string, when the string has no character of
    the Base64url alphabet alone. *)
Theorem base64url_decoding_translates (e : str) :
  forallb (fun c => negb (url_only c)) e = true ->
  Base64.decodeBase64url (map url_char e) = Base64.decodeBase64 e
  /\ Base64.decodeBase64urlIgnorePadding (map url_char e)
     = Base64.decodeBase64IgnorePadding e.
Proof.
  intros H.
  assert (Hf : forall c, In c e ->
            lookup Base64.base64urlDecodeMap (url_char c)
            = lookup Base64.base64DecodeMap c
            /\ Ascii.eqb (url_char c) pad = Ascii.eqb c pad).
  { intros c Hc. apply url_char_lookup.
    rewrite forallb_forall in H. apply negb_true_iff. now apply H. }
  split; now apply Base64More.b64_decode_map.
Qed.

(** "+/+/" and its translation "-_-_". *)
Lemma base64url_decoding_translates_witness :
  map url_char (lit "+/+/") = lit "-_-_"
  /\ Base64.decodeBase64url (map url_char (lit "+/+/"))
     = Base64.decodeBase64 (lit "+/+/")
  /\ Base64.decodeBase64urlIgnorePadding (map url_char (lit "+/+/"))
     = Base64.decodeBase64IgnorePadding (lit "+/+/").
Proof.
  split; [reflexivity | ].
  apply (base64url_decoding_translates (lit "+/+/")). reflexivity.
Defined.

(** Property X9.  A padded Base64 encoding is the unpadded one followed by
    pads: none for a length that is a multiple of three, two for one byte left
    over, one for two. *)
Theorem base64_padding_is_suffix (B : bytes) :
  Base64.encodeBase64 B
  = Base64.encodeBase64NoPadding B
    ++ repeat pad (pad_count 3 4 (List.length B))
  /\ Base64.encodeBase64url B
     = Base64.encodeBase64urlNoPadding B
       ++ repeat pad (pad_count 3 4 (List.length B))
  /\ pad_count 3 4 (List.length B)
     = match Nat.modulo (List.length B) 3 with
       | 0 => 0 | 1 => 2 | _ => 1
       end%nat.
Proof.
  split; [apply (Base64More.b64_pad_suffix _ _ _ base64_agrees) | ].
  split; [apply (Base64More.b64_pad_suffix _ _ _ base64url_agrees) | ].
  unfold pad_count.
  pose proof (Nat.mod_upper_bound (List.length B) 3 ltac:(lia)) as H.
  destruct (Nat.modulo (List.length B) 3) as [| [| [| r]]];
    [reflexivity | reflexivity | reflexivity | lia].
Qed.

(** Property X10.  An unpadded Base64 encoding is the list of the alphabet
    characters of the six-bit groups of the input, each an index from 0 to
    63, so that no alphabet entry read is undefined; the characters of an
    unpadded encoding are characters of its alphabet, and those of a padded
    one are characters of its alphabet or pads. *)
Theorem base64_output_alphabet (B : bytes) :
  Base64.encodeBase64NoPadding B
  = map (sym Base64.base64Alphabet) (groups6 B)
  /\ Base64.encodeBase64urlNoPadding B
     = map (sym Base64.base64urlAlphabet) (groups6 B)
  /\ Forall (fun v => 0 <= v < 64) (groups6 B)
  /\ Forall (fun c => In c Base64.base64Alphabet)
       (Base64.encodeBase64NoPadding B)
  /\ Forall (fun c => In c Base64.base64urlAlphabet)
       (Base64.encodeBase64urlNoPadding B)
  /\ Forall (fun c => In c Base64.base64Alphabet \/ c = pad)
       (Base64.encodeBase64 B)
  /\ Forall (fun c => In c Base64.base64urlAlphabet \/ c = pad)
       (Base64.encodeBase64url B).
Proof.
  split; [exact (b64_encode_groups _ _ B base64_agrees) | ].
  split; [exact (b64_encode_groups _ _ B base64url_agrees) | ].
  split; [apply groups6_range | ].
  pose proof (Base64More.b64_encode_alphabet _ _ B base64_agrees) as H1.
  pose proof (Base64More.b64_encode_alphabet _ _ B base64url_agrees) as H2.
  split; [exact H1 | ]. split; [exact H2 | ].
  unfold Base64.encodeBase64, Base64.encodeBase64url.
  rewrite (Base64More.b64_pad_suffix _ _ B base64_agrees).
  rewrite (Base64More.b64_pad_suffix _ _ B base64url_agrees).
  split; apply Forall_app; (split; [ | apply Forall_pads]).
  - revert H1. apply Forall_impl. auto.
  - revert H2. apply Forall_impl. auto.
Qed.

(** Property X11.  After a whole number of chunks of three bytes the Base64
    encoders start afresh: the encoding of a concatenation is the
    concatenation of the encodings. *)
Theorem base64_encode_app (A B : bytes) :
  Nat.modulo (List.length A) 3 = 0%nat ->
  Base64.encodeBase64 (A ++ B)
  = Base64.encodeBase64 A ++ Base64.encodeBase64 B
  /\ Base64.encodeBase64NoPadding (A ++ B)
     = Base64.encodeBase64NoPadding A ++ Base64.encodeBase64NoPadding B
  /\ Base64.encodeBase64url (A ++ B)
     = Base64.encodeBase64url A ++ Base64.encodeBase64url B
  /\ Base64.encodeBase64urlNoPadding (A ++ B)
     = Base64.encodeBase64urlNoPadding A ++ Base64.encodeBase64urlNoPadding B.
Proof.
  intros H. repeat split; now apply Base64More.b64_encode_app.
Qed.

(** The three bytes of "Hel" followed by the two bytes of "lo". *)
Lemma base64_encode_app_witness :
  Nat.modulo (List.length (map to_uint8 [72; 101; 108])) 3 = 0%nat
  /\ Base64.encodeBase64
       (map to_uint8 [72; 101; 108] ++ map to_uint8 [108; 111])
     = Base64.encodeBase64 (map to_uint8 [72; 101; 108])
       ++ Base64.encodeBase64 (map to_uint8 [108; 111]).
Proof.
  split; [reflexivity | ].
  apply (base64_encode_app (map to_uint8 [72; 101; 108])
           (map to_uint8 [108; 111])).
  reflexivity.
Defined.

(** Property X12.  After a whole number of windows of four characters the
    Base64 decoder starts afresh: the result for a concatenation is the
    concatenation of the results, and the first error is its error. *)
Theorem base64_decode_app (m : decode_map) (p : DecodingPadding.t)
  (s1 s2 : str) :
  Nat.modulo (List.length s1) 4 = 0%nat ->
  Base64.decodeBase64_internal (s1 ++ s2) m p
  = b1 <- Base64.decodeBase64_internal s1 m p ;;
    b2 <- Base64.decodeBase64_internal s2 m p ;; Ok (b1 ++ b2).
Proof. apply Base64More.b64_decode_app. Qed.

(** "SGVs" followed by "bG8=". *)
Lemma base64_decode_app_witness :
  Nat.modulo (List.length (lit "SGVs")) 4 = 0%nat
  /\ Base64.decodeBase64 (lit "SGVs" ++ lit "bG8=")
     = b1 <- Base64.decodeBase64 (lit "SGVs") ;;
       b2 <- Base64.decodeBase64 (lit "bG8=") ;; Ok (b1 ++ b2).
Proof.
  split; [reflexivity | ].
  apply (base64_decode_app Base64.base64DecodeMap DecodingPadding.Required
           (lit "SGVs") (lit "bG8=")).
  reflexivity.
Defined.

(** Property X13.  The Base64 decoders accept padded encodings written one
    after the other, pads in the middle included, and return the bytes of
    both. *)
Theorem base64_decode_concatenated (A B : bytes) :
  Base64.decodeBase64 (Base64.encodeBase64 A ++ Base64.encodeBase64 B)
  = Ok (A ++ B)
  /\ Base64.decodeBase64url
       (Base64.encodeBase64url A ++ Base64.encodeBase64url B)
     = Ok (A ++ B).
Proof.
  unfold Base64.decodeBase64, Base64.decodeBase64url, Base64.encodeBase64,
    Base64.encodeBase64url.
  split; rewrite Base64More.b64_decode_app.
  - rewrite !(Base64Facts.b64_decode_encode _ _ base64_agrees) by now left.
    reflexivity.
  - rewrite (base64_length _ _ _ _ base64_agrees). apply padded_length_mod.
  - rewrite !(Base64Facts.b64_decode_encode _ _ base64url_agrees) by now left.
    reflexivity.
  - rewrite (base64_length _ _ _ _ base64url_agrees). apply padded_length_mod.
Qed.

(** Property X14.  What a Base64 decoder accepts with padding required, it
    accepts with padding ignored, with the same bytes. *)
Theorem base64_ignore_extends_required (e : str) (m : decode_map)
  (out : bytes) :
  Base64.decodeBase64_internal e m DecodingPadding.Required = Ok out ->
  Base64.decodeBase64_internal e m DecodingPadding.Ignore = Ok out.
Proof.
  intros H.
  destruct (Nat.eq_dec (Nat.modulo (List.length e) 4) 0) as [Hlen | Hlen].
  - now rewrite <- Base64More.b64_modes_aligned.
  - destruct (Base64Errors.b64_unaligned e m Hlen) as [E HE].
    rewrite HE in H. discriminate H.
Qed.

(** "SGVsbG8=" in both modes. *)
Lemma base64_ignore_extends_required_witness :
  Base64.decodeBase64 (lit "SGVsbG8=") = Ok hello
  /\ Base64.decodeBase64IgnorePadding (lit "SGVsbG8=") = Ok hello.
Proof.
  split; [reflexivity | ].
  apply (base64_ignore_extends_required (lit "SGVsbG8=")
           Base64.base64DecodeMap hello).
  reflexivity.
Defined.

(** Property X15.  On a string whose length is a multiple of four the two
    padding modes of the Base64 decoder give the same result or the same
    error. *)
Theorem base64_modes_agree_aligned (e : str) (m : decode_map) :
  Nat.modulo (List.length e) 4 = 0%nat ->
  Base64.decodeBase64_internal e m DecodingPadding.Required
  = Base64.decodeBase64_internal e m DecodingPadding.Ignore.
Proof. apply Base64More.b64_modes_aligned. Qed.

(** "SG=sbG8=", of eight characters, is rejected alike in both modes. *)
Lemma base64_modes_agree_aligned_witness :
  Nat.modulo (List.length (lit "SG=sbG8=")) 4 = 0%nat
  /\ Base64.decodeBase64 (lit "SG=sbG8=")
     = Base64.decodeBase64IgnorePadding (lit "SG=sbG8=").
Proof.
  split; [reflexivity | ].
  apply (base64_modes_agree_aligned (lit "SG=sbG8=") Base64.base64DecodeMap).
  reflexivity.
Defined.

(** Property X16.  The Base64 decoder returns at most three bytes per window
    of four characters: the array of [ceil(length / 4) * 3] cells that it
    allocates holds every byte it writes. *)
Theorem base64_decoded_length (e : str) (m : decode_map)
  (p : DecodingPadding.t) (out : bytes) :
  Base64.decodeBase64_internal e m p = Ok out ->
  (List.length out <= 3 * ceil_div (List.length e) 4)%nat.
Proof.
  unfold Base64.decodeBase64_internal.
  rewrite Base64Errors.b64_loop_eq. intros H.
  apply (loop_ok_length _ 4 3) in H; [exact H | ].
  intros i r r'. apply Base64More.b64_window_length.
Qed.

(** The five bytes of "SGVsbG8=" in an array of six cells. *)
Lemma base64_decoded_length_witness :
  Base64.decodeBase64 (lit "SGVsbG8=") = Ok hello
  /\ (List.length hello <= 3 * ceil_div (List.length (lit "SGVsbG8=")) 4)%nat.
Proof.
  split; [reflexivity | ].
  apply (base64_decoded_length (lit "SGVsbG8=") Base64.base64DecodeMap
           DecodingPadding.Required hello).
  reflexivity.
Defined.

(** Property X17.  The Base64 decoder fails with the invalid-character error
    or the invalid-padding error, never with another one. *)
Theorem base64_decode_errors (e : str) (m : decode_map)
  (p : DecodingPadding.t) (E : error) :
  Base64.decodeBase64_internal e m p = Err E ->
  E = InvalidCharacter \/ E = InvalidPadding.
Proof.
  unfold Base64.decodeBase64_internal.
  rewrite Base64Errors.b64_loop_eq. intros H.
  apply loop_error in H as (i & r & H). unfold Base64.decode_window in H.
  apply bind_err in H as [H | (st & _ & H)].
  - apply for_each_error in H as (s & j & _ & H).
    now apply Base64More.b64_scan_step_error in H.
  - apply bind_err in H as [H | (u & _ & H)]; [ | discriminate].
    destruct (Base64Errors.b64_check_cases (fst st) (snd st))
      as [Hc | (u & Hc)];
      rewrite Hc in H; [injection H as <-; auto | discriminate].
Qed.

(** The error of "SG=sbG8=". *)
Lemma base64_decode_errors_witness :
  Base64.decodeBase64 (lit "SG=sbG8=") = Err InvalidPadding
  /\ (InvalidPadding = InvalidCharacter \/ InvalidPadding = InvalidPadding).
Proof.
  split; [reflexivity | ].
  apply (base64_decode_errors (lit "SG=sbG8=") Base64.base64DecodeMap
           DecodingPadding.Required InvalidPadding).
  reflexivity.
Defined.

(** ** Base32 *)

(** Property X18.  The Base32 decoders do not see the case of the letters: a
    string, its upper-case form and its lower-case form have the same result. *)
Theorem base32_decode_case_insensitive (e : str) :
  Base32.decodeBase32 (map ascii_upper e) = Base32.decodeBase32 e
  /\ Base32.decodeBase32 (map ascii_lower e) = Base32.decodeBase32 e
  /\ Base32.decodeBase32IgnorePadding (map ascii_upper e)
     = Base32.decodeBase32IgnorePadding e
  /\ Base32.decodeBase32IgnorePadding (map ascii_lower e)
     = Base32.decodeBase32IgnorePadding e.
Proof.
  repeat split; apply Base32More.b32_decode_map; intros c _;
    apply (base32_case_lookup c).
Qed.

(** Property X19.  The lower-case Base32 encoders write what the upper-case
    ones write, with the letters in lower case; [encodeBase32] and
    [encodeBase32NoPadding] are the upper-case encoders. *)
Theorem base32_encoding_case (B : bytes) :
  Base32.encodeBase32LowerCase B
  = map ascii_lower (Base32.encodeBase32UpperCase B)
  /\ Base32.encodeBase32LowerCaseNoPadding B
     = map ascii_lower (Base32.encodeBase32UpperCaseNoPadding B)
  /\ Base32.encodeBase32UpperCase B
     = map ascii_upper (Base32.encodeBase32LowerCase B)
  /\ Base32.encodeBase32UpperCaseNoPadding B
     = map ascii_upper (Base32.encodeBase32LowerCaseNoPadding B)
  /\ Base32.encodeBase32 B = Base32.encodeBase32UpperCase B
  /\ Base32.encodeBase32NoPadding B = Base32.encodeBase32UpperCaseNoPadding B.
Proof.
  unfold Base32.encodeBase32, Base32.encodeBase32NoPadding,
    Base32.encodeBase32LowerCase, Base32.encodeBase32LowerCaseNoPadding,
    Base32.encodeBase32UpperCase, Base32.encodeBase32UpperCaseNoPadding.
  destruct base32_alphabet_map as [Hl Hu].
  split; [ | split; [ | split; [ | split; [ | split; reflexivity]]]].
  - rewrite Hl.
    apply (Base32More.b32_encode_map ascii_lower Base32.base32UpperCaseAlphabet
             Base32.base32DecodeMap Base32.base32DecodeMap _ B
             base32_upper_agrees base32_lower_agrees eq_refl).
  - rewrite Hl.
    apply (Base32More.b32_encode_map ascii_lower Base32.base32UpperCaseAlphabet
             Base32.base32DecodeMap Base32.base32DecodeMap _ B
             base32_upper_agrees base32_lower_agrees eq_refl).
  - rewrite Hu.
    apply (Base32More.b32_encode_map ascii_upper Base32.base32LowerCaseAlphabet
             Base32.base32DecodeMap Base32.base32DecodeMap _ B
             base32_lower_agrees base32_upper_agrees eq_refl).
  - rewrite Hu.
    apply (Base32More.b32_encode_map ascii_upper Base32.base32LowerCaseAlphabet
             Base32.base32DecodeMap Base32.base32DecodeMap _ B
             base32_lower_agrees base32_upper_agrees eq_refl).
Qed.

(** Property X20.  A padded Base32 encoding is the unpadded one followed by
    pads: none for a length that is a multiple of five, and six, four, three
    or one for one, two, three or four bytes left over. *)
Theorem base32_padding_is_suffix (B : bytes) :
  Base32.encodeBase32UpperCase B
  = Base32.encodeBase32UpperCaseNoPadding B
    ++ repeat pad (pad_count 5 8 (List.length B))
  /\ Base32.encodeBase32LowerCase B
     = Base32.encodeBase32LowerCaseNoPadding B
       ++ repeat pad (pad_count 5 8 (List.length B))
  /\ pad_count 5 8 (List.length B)
     = match Nat.modulo (List.length B) 5 with
       | 0 => 0 | 1 => 6 | 2 => 4 | 3 => 3 | _ => 1
       end%nat.
Proof.
  split; [apply (Base32More.b32_pad_suffix _ _ _ base32_upper_agrees) | ].
  split; [apply (Base32More.b32_pad_suffix _ _ _ base32_lower_agrees) | ].
  unfold pad_count.
  pose proof (Nat.mod_upper_bound (List.length B) 5 ltac:(lia)) as H.
  destruct (Nat.modulo (List.length B) 5) as [| [| [| [| [| r]]]]];
    [reflexivity | reflexivity | reflexivity | reflexivity | reflexivity
    | lia].
Qed.

(** Property X21.  An unpadded Base32 encoding is the list of the alphabet
    characters of the five-bit groups of the input, each an index from 0 to
    31, so that no alphabet entry read is undefined; the characters of an
    unpadded encoding are characters of its alphabet, and those of a padded
    one are characters of its alphabet or pads. *)
Theorem base32_output_alphabet (B : bytes) :
  Base32.encodeBase32UpperCaseNoPadding B
  = map (sym Base32.base32UpperCaseAlphabet) (groups5 B)
  /\ Base32.encodeBase32LowerCaseNoPadding B
     = map (sym Base32.base32LowerCaseAlphabet) (groups5 B)
  /\ Forall (fun v => 0 <= v < 32) (groups5 B)
  /\ Forall (fun c => In c Base32.base32UpperCaseAlphabet)
       (Base32.encodeBase32UpperCaseNoPadding B)
  /\ Forall (fun c => In c Base32.base32LowerCaseAlphabet)
       (Base32.encodeBase32LowerCaseNoPadding B)
  /\ Forall (fun c => In c Base32.base32UpperCaseAlphabet \/ c = pad)
       (Base32.encodeBase32UpperCase B)
  /\ Forall (fun c => In c Base32.base32LowerCaseAlphabet \/ c = pad)
       (Base32.encodeBase32LowerCase B).
Proof.
  split; [exact (b32_encode_groups _ _ B base32_upper_agrees) | ].
  split; [exact (b32_encode_groups _ _ B base32_lower_agrees) | ].
  split; [apply groups5_range | ].
  pose proof (Base32More.b32_encode_alphabet _ _ B base32_upper_agrees) as H1.
  pose proof (Base32More.b32_encode_alphabet _ _ B base32_lower_agrees) as H2.
  split; [exact H1 | ]. split; [exact H2 | ].
  unfold Base32.encodeBase32UpperCase, Base32.encodeBase32LowerCase.
  rewrite (Base32More.b32_pad_suffix _ _ B base32_upper_agrees).
  rewrite (Base32More.b32_pad_suffix _ _ B base32_lower_agrees).
  split; apply Forall_app; (split; [ | apply Forall_pads]).
  - revert H1. apply Forall_impl. auto.
  - revert H2. apply Forall_impl. auto.
Qed.

(** Property X22.  After a whole number of chunks of five bytes the Base32
    encoders start afresh: the encoding of a concatenation is the
    concatenation of the encodings. *)
Theorem base32_encode_app (al : str) (p : EncodingPadding.t) (A B : bytes) :
  Nat.modulo (List.length A) 5 = 0%nat ->
  Base32.encodeBase32_internal (A ++ B) al p
  = Base32.encodeBase32_internal A al p
    ++ Base32.encodeBase32_internal B al p.
Proof. apply Base32More.b32_encode_app. Qed.

(** The five bytes of "Hello" followed by the two bytes of "He". *)
Lemma base32_encode_app_witness :
  Nat.modulo (List.length hello) 5 = 0%nat
  /\ Base32.encodeBase32UpperCase (hello ++ map to_uint8 [72; 101])
     = Base32.encodeBase32UpperCase hello
       ++ Base32.encodeBase32UpperCase (map to_uint8 [72; 101]).
Proof.
  split; [reflexivity | ].
  apply (base32_encode_app Base32.base32UpperCaseAlphabet
           EncodingPadding.Include hello (map to_uint8 [72; 101])).
  reflexivity.
Defined.

(** Property X23.  After a whole number of windows of eight characters the
    Base32 decoder starts afresh: the result for a concatenation is the
    concatenation of the results, and the first error is its error. *)
Theorem base32_decode_app (m : decode_map) (p : DecodingPadding.t)
  (s1 s2 : str) :
  Nat.modulo (List.length s1) 8 = 0%nat ->
  Base32.decodeBase32_internal (s1 ++ s2) m p
  = b1 <- Base32.decodeBase32_internal s1 m p ;;
    b2 <- Base32.decodeBase32_internal s2 m p ;; Ok (b1 ++ b2).
Proof. apply Base32More.b32_decode_app. Qed.

(** "JBSWY3DP" followed by "JBSQ====". *)
Lemma base32_decode_app_witness :
  Nat.modulo (List.length (lit "JBSWY3DP")) 8 = 0%nat
  /\ Base32.decodeBase32 (lit "JBSWY3DP" ++ lit "JBSQ====")
     = b1 <- Base32.decodeBase32 (lit "JBSWY3DP") ;;
       b2 <- Base32.decodeBase32 (lit "JBSQ====") ;; Ok (b1 ++ b2).
Proof.
  split; [reflexivity | ].
  apply (base32_decode_app Base32.base32DecodeMap DecodingPadding.Required
           (lit "JBSWY3DP") (lit "JBSQ====")).
  reflexivity.
Defined.

(** Property X24.  The Base32 decoders accept padded encodings written one
    after the other, pads in the middle included, and return the bytes of
    both. *)
Theorem base32_decode_concatenated (A B : bytes) :
  Base32.decodeBase32
    (Base32.encodeBase32UpperCase A ++ Base32.encodeBase32UpperCase B)
  = Ok (A ++ B)
  /\ Base32.decodeBase32
       (Base32.encodeBase32LowerCase A ++ Base32.encodeBase32LowerCase B)
     = Ok (A ++ B).
Proof.
  unfold Base32.decodeBase32, Base32.encodeBase32UpperCase,
    Base32.encodeBase32LowerCase.
  split; rewrite Base32More.b32_decode_app.
  - rewrite !(Base32Facts.b32_decode_encode _ _ base32_upper_agrees)
      by now left.
    reflexivity.
  - rewrite (base32_length _ _ _ _ base32_upper_agrees).
    apply padded_length_mod.
  - rewrite !(Base32Facts.b32_decode_encode _ _ base32_lower_agrees)
      by now left.
    reflexivity.
  - rewrite (base32_length _ _ _ _ base32_lower_agrees).
    apply padded_length_mod.
Qed.

(** Property X25.  What the Base32 decoder accepts with padding required, it
    accepts with padding ignored, with the same bytes. *)
Theorem base32_ignore_extends_required (e : str) (m : decode_map)
  (out : bytes) :
  Base32.decodeBase32_internal e m DecodingPadding.Required = Ok out ->
  Base32.decodeBase32_internal e m DecodingPadding.Ignore = Ok out.
Proof.
  intros H.
  destruct (Nat.eq_dec (Nat.modulo (List.length e) 8) 0) as [Hlen | Hlen].
  - now rewrite <- Base32More.b32_modes_aligned.
  - destruct (Base32Errors.b32_unaligned e m Hlen) as [E HE].
    rewrite HE in H. discriminate H.
Qed.

(** "JBSQ====" in both modes. *)
Lemma base32_ignore_extends_required_witness :
  Base32.decodeBase32 (lit "JBSQ====") = Ok (map to_uint8 [72; 101])
  /\ Base32.decodeBase32IgnorePadding (lit "JBSQ====")
     = Ok (map to_uint8 [72; 101]).
Proof.
  split; [reflexivity | ].
  apply (base32_ignore_extends_required (lit "JBSQ====")
           Base32.base32DecodeMap (map to_uint8 [72; 101])).
  reflexivity.
Defined.

(** Property X26.  On a string whose length is a multiple of eight the two
    padding modes of the Base32 decoder give the same result or the same
    error. *)
Theorem base32_modes_agree_aligned (e : str) (m : decode_map) :
  Nat.modulo (List.length e) 8 = 0%nat ->
  Base32.decodeBase32_internal e m DecodingPadding.Required
  = Base32.decodeBase32_internal e m DecodingPadding.Ignore.
Proof. apply Base32More.b32_modes_aligned. Qed.

(** "JB=Q====", of eight characters, is rejected alike in both modes. *)
Lemma base32_modes_agree_aligned_witness :
  Nat.modulo (List.length (lit "JB=Q====")) 8 = 0%nat
  /\ Base32.decodeBase32 (lit "JB=Q====")
     = Base32.decodeBase32IgnorePadding (lit "JB=Q====").
Proof.
  split; [reflexivity | ].
  apply (base32_modes_agree_aligned (lit "JB=Q====") Base32.base32DecodeMap).
  reflexivity.
Defined.

(** Property X27.  The Base32 decoder returns at most five bytes per window of
    eight characters: the array of [ceil(length / 8) * 5] cells that it
    allocates holds every byte it writes. *)
Theorem base32_decoded_length (e : str) (m : decode_map)
  (p : DecodingPadding.t) (out : bytes) :
  Base32.decodeBase32_internal e m p = Ok out ->
  (List.length out <= 5 * ceil_div (List.length e) 8)%nat.
Proof.
  unfold Base32.decodeBase32_internal.
  rewrite Base32Errors.b32_loop_eq. intros H.
  apply (loop_ok_length _ 8 5) in H; [exact H | ].
  intros i r r'. apply Base32More.b32_window_length.
Qed.

(** The five bytes of "JBSWY3DP" in an array of five cells. *)
Lemma base32_decoded_length_witness :
  Base32.decodeBase32 (lit "JBSWY3DP") = Ok hello
  /\ (List.length hello <= 5 * ceil_div (List.length (lit "JBSWY3DP")) 8)%nat.
Proof.
  split; [reflexivity | ].
  apply (base32_decoded_length (lit "JBSWY3DP") Base32.base32DecodeMap
           DecodingPadding.Required hello).
  reflexivity.
Defined.

(** Property X28.  The Base32 decoder fails with the invalid-character error
    or the invalid-padding error, never with another one. *)
Theorem base32_decode_errors (e : str) (m : decode_map)
  (p : DecodingPadding.t) (E : error) :
  Base32.decodeBase32_internal e m p = Err E ->
  E = InvalidCharacter \/ E = InvalidPadding.
Proof.
  unfold Base32.decodeBase32_internal.
  rewrite Base32Errors.b32_loop_eq. intros H.
  apply loop_error in H as (i & r & H). unfold Base32.decode_window in H.
  apply bind_err in H as [H | (st & _ & H)].
  - apply for_each_error in H as (s & j & _ & H).
    now apply Base32More.b32_scan_step_error in H.
  - apply bind_err in H as [H | (u & _ & H)]; [ | discriminate].
    destruct (Base32Errors.b32_check_cases (fst st) (snd st))
      as [Hc | (u & Hc)];
      rewrite Hc in H; [injection H as <-; auto | discriminate].
Qed.

(** The error of "JB=Q====". *)
Lemma base32_decode_errors_witness :
  Base32.decodeBase32 (lit "JB=Q====") = Err InvalidPadding
  /\ (InvalidPadding = InvalidCharacter \/ InvalidPadding = InvalidPadding).
Proof.
  split; [reflexivity | ].
  apply (base32_decode_errors (lit "JB=Q====") Base32.base32DecodeMap
           DecodingPadding.Required InvalidPadding).
  reflexivity.
Defined.

(** Property X29.  In the Base32 encoder the buffer is aligned before the
    characters are written, so that in every iteration of the character loop
    the number of bits left is a multiple of five: the branch for one to four
    bits left is never taken. *)
Theorem base32_partial_branch_unreachable (data : bytes) (al : str)
  (p : EncodingPadding.t) (i : nat) (r : str) (k : nat) :
  let st := Base32.align (Base32.read_loop data i (seq 0 5) (0, 0)) in
  let size :=
    snd (fold_left (Base32.emit al p (fst st)) (seq 0 k) (r, snd st)) in
  0 <= size /\ size mod 5 = 0
  /\ negb (5 <=? size) && (0 <? size) = false.
Proof.
  cbv zeta.
  pose proof (Base32More.b32_aligned data i) as Hal. cbv zeta in Hal.
  destruct (Base32More.b32_emit_loop_size al p
              (fst (Base32.align (Base32.read_loop data i (seq 0 5) (0, 0))))
              (seq 0 k)
              (r, snd (Base32.align
                         (Base32.read_loop data i (seq 0 5) (0, 0)))) Hal)
    as [H0 H5].
  split; [exact H0 | ]. split; [exact H5 | ].
  destruct (5 <=? _) eqn:E5; [reflexivity | ]. cbn [negb andb].
  apply Z.leb_gt in E5. apply Z.ltb_ge.
  apply Z.mod_divide in H5; [ | lia]. destruct H5 as [q Hq]. lia.
Qed.

(** ** All encoders *)

Lemma decoded_eq {A} (f : bytes -> str) (g : str -> res A) (a b : bytes)
  (x y : A) : g (f a) = Ok x -> g (f b) = Ok y -> f a = f b -> x = y.
Proof. intros Ha Hb Heq. rewrite Heq, Hb in Ha. now injection Ha. Qed.

(** Property X30.  No encoder writes the same string for two byte arrays. *)
Theorem encoders_injective (A B : bytes) :
  (Hex.encodeHexUpperCase A = Hex.encodeHexUpperCase B
   \/ Hex.encodeHexLowerCase A = Hex.encodeHexLowerCase B
   \/ Base64.encodeBase64 A = Base64.encodeBase64 B
   \/ Base64.encodeBase64NoPadding A = Base64.encodeBase64NoPadding B
   \/ Base64.encodeBase64url A = Base64.encodeBase64url B
   \/ Base64.encodeBase64urlNoPadding A = Base64.encodeBase64urlNoPadding B
   \/ Base32.encodeBase32UpperCase A = Base32.encodeBase32UpperCase B
   \/ Base32.encodeBase32UpperCaseNoPadding A
      = Base32.encodeBase32UpperCaseNoPadding B
   \/ Base32.encodeBase32LowerCase A = Base32.encodeBase32LowerCase B
   \/ Base32.encodeBase32LowerCaseNoPadding A
      = Base32.encodeBase32LowerCaseNoPadding B) ->
  A = B.
Proof.
  intros [H | [H | [H | [H | [H | [H | [H | [H | [H | H]]]]]]]]];
    symmetry.
  - apply (decoded_eq Hex.encodeHexUpperCase Hex.decodeHex B A);
      [ | | now symmetry];
      apply (HexFacts.decodeHex_encode _ _ HexFacts.upper_inverts).
  - apply (decoded_eq Hex.encodeHexLowerCase Hex.decodeHex B A);
      [ | | now symmetry];
      apply (HexFacts.decodeHex_encode _ _ HexFacts.lower_inverts).
  - apply (decoded_eq Base64.encodeBase64 Base64.decodeBase64 B A);
      [ | | now symmetry];
      apply (Base64Facts.b64_decode_encode _ _ base64_agrees); now left.
  - apply (decoded_eq Base64.encodeBase64NoPadding
             Base64.decodeBase64IgnorePadding B A); [ | | now symmetry];
      apply (Base64Facts.b64_decode_encode _ _ base64_agrees); now right.
  - apply (decoded_eq Base64.encodeBase64url Base64.decodeBase64url B A);
      [ | | now symmetry];
      apply (Base64Facts.b64_decode_encode _ _ base64url_agrees); now left.
  - apply (decoded_eq Base64.encodeBase64urlNoPadding
             Base64.decodeBase64urlIgnorePadding B A); [ | | now symmetry];
      apply (Base64Facts.b64_decode_encode _ _ base64url_agrees); now right.
  - apply (decoded_eq Base32.encodeBase32UpperCase Base32.decodeBase32 B A);
      [ | | now symmetry];
      apply (Base32Facts.b32_decode_encode _ _ base32_upper_agrees); now left.
  - apply (decoded_eq Base32.encodeBase32UpperCaseNoPadding
             Base32.decodeBase32IgnorePadding B A); [ | | now symmetry];
      apply (Base32Facts.b32_decode_encode _ _ base32_upper_agrees);
      now right.
  - apply (decoded_eq Base32.encodeBase32LowerCase Base32.decodeBase32 B A);
      [ | | now symmetry];
      apply (Base32Facts.b32_decode_encode _ _ base32_lower_agrees); now left.
  - apply (decoded_eq Base32.encodeBase32LowerCaseNoPadding
             Base32.decodeBase32IgnorePadding B A); [ | | now symmetry];
      apply (Base32Facts.b32_decode_encode _ _ base32_lower_agrees);
      now right.
Qed.

(** Two arrays with the upper-case hex encoding "48656C6C6F". *)
Lemma encoders_injective_witness :
  Hex.encodeHexUpperCase hello
  = Hex.encodeHexUpperCase (map to_uint8 [72; 101; 108; 108; 111])
  /\ hello = map to_uint8 [72; 101; 108; 108; 111].
Proof.
  split; [reflexivity | ].
  apply (encoders_injective hello (map to_uint8 [72; 101; 108; 108; 111])).
  left. reflexivity.
Defined.
